(** * charge_assign: the charge repository, its isomorphism index,
      its archive format, the corpus build, the filtered view, the solver
      channel and the solver request.

    A shallow embedding of [charge/repository.py], [charge/nauty.py] and
    [charge/validation.py], with the properties of the specification stated
    and settled against it, and further properties of the same code.

    Conventions of the embedding:
    - Python [int]s (shell sizes, molecule ids, atom ids) are [Z];
    - neighbourhood hashes are [string]s;
    - a [dict] is a [gmap]; a Python [list] is a [list];
    - partial charges are Python [float]s.  The repository only ever compares
      them with [<] (inside [bisect]) and stores them, so the development is
      parametric in the type of charges and in its comparison [ltb], which is
      assumed to be a decidable strict total order (as [<] is on the floats
      that are not NaN, with [0.0] and [-0.0] taken as one value);
    - [Nauty.canonize_neighborhood] talks to the external solver; it is a
      parameter, a function from a graph, an atom and a shell size to a hash,
      and so is [Nauty.canonize] on a whole molecule;
    - the worker pool of the corpus build ([charge/multiprocessor.py]) is
      not among the sources; it is described by the order in which it hands
      back the results of its work items;
    - an attribute that [__init__] does not assign is an [option]: the two
      isomorphism indices of a repository are [None] until [create_from] or
      [read] assigns them;
    - [msgpack] is described by its object model, with the range of the
      integers that it packs (64 bits); the limits that it puts on the
      lengths of strings, arrays and maps depend on its version and are not
      described;
    - an exception is a value of [exn]; a call that may raise returns a
      [result], and what the call had changed before it raised is not kept. *)

From stdpp Require Import gmap strings list fin_maps sorting.
From Stdlib Require OrdersEx.

Local Open Scope Z_scope.

(** ** Exceptions and results *)

Inductive exn : Type :=
  | KeyError_partial_charge (atom : Z)
      (* KeyError('Missing property "partial_charge" for atom {}') *)
  | LookupError
      (* any other KeyError or IndexError: a missing dict key, a pop out of
         range *)
  | OSError
      (* [open] failing on a molecule file *)
  | ValueError
      (* [a, b = x] when [x] does not have two items.  It also stands for an
         archive entry that is not of the shape [write] gives it, which
         Python would load as it is. *)
  | AttributeError
      (* reading an attribute of an object to which it was never assigned *)
  | OverflowError.
      (* [msgpack.packb] on an integer that does not fit in 64 bits *)

Inductive result (A : Type) : Type :=
  | Ok (a : A)
  | Raise (e : exn).
Global Arguments Ok {A} a.
Global Arguments Raise {A} e.

Global Instance result_ret : MRet result := λ A a, Ok a.
Global Instance result_bind : MBind result := λ A B f m,
  match m with
  | Ok a => f a
  | Raise e => Raise e
  end.

Global Instance result_fmap : FMap result := λ A B f m,
  match m with
  | Ok a => Ok (f a)
  | Raise e => Raise e
  end.

Definition of_option {A} (o : option A) (e : exn) : result A :=
  match o with
  | Some a => Ok a
  | None => Raise e
  end.

(** A [for] loop whose body may raise: the loop stops at the first
    exception. *)
Fixpoint for_each {A S : Type} (items : list A) (body : A → S → result S)
    (st : S) : result S :=
  match items with
  | [] => Ok st
  | x :: rest => st' ← body x st; for_each rest body st'
  end.

(** ** The comparison on charges *)

Record strict_total_order {A : Type} (ltb : A → A → bool) : Prop := {
  ltb_irrefl : ∀ x, ltb x x = false;
  ltb_trans : ∀ x y z, ltb x y = true → ltb y z = true → ltb x z = true;
  ltb_total : ∀ x y, ltb x y = false → ltb y x = false → x = y
}.

(** ** Molecule graphs

    A molecule is a [networkx] graph whose nodes carry an [atom_type] and,
    when the input file gave one, a [partial_charge].  [nodes] lists the
    nodes in the order [graph.nodes()] iterates over them. *)

Record node_data (charge : Type) : Type := {
  atom_type : string;
  partial_charge : option charge
}.
Global Arguments atom_type {charge} _.
Global Arguments partial_charge {charge} _.

Record Graph (charge : Type) : Type := {
  nodes : list (Z * node_data charge);
  edges : list (Z * Z)
}.
Global Arguments nodes {charge} _.
Global Arguments edges {charge} _.

(** ** The repository

    [__init__] assigns the shell bounds and the two stores, and nothing to
    [__iso_iacm] and [__iso_elem]: only [create_from] and [read] assign the
    two isomorphism indices.  An index is [None] as long as the attribute
    has not been assigned; reading it then raises AttributeError. *)

Record Repository (charge : Type) : Type := {
  min_shell : Z;
  max_shell : Z;
  charges_iacm : gmap Z (gmap string (list charge));
  charges_elem : gmap Z (gmap string (list charge));
  iso_iacm : option (gmap Z (list Z));
  iso_elem : option (gmap Z (list Z))
}.
Global Arguments min_shell {charge} _.
Global Arguments max_shell {charge} _.
Global Arguments charges_iacm {charge} _.
Global Arguments charges_elem {charge} _.
Global Arguments iso_iacm {charge} _.
Global Arguments iso_elem {charge} _.

Definition set_charges_iacm {charge} (c : gmap Z (gmap string (list charge)))
    (r : Repository charge) : Repository charge :=
  {| min_shell := min_shell r; max_shell := max_shell r;
     charges_iacm := c; charges_elem := charges_elem r;
     iso_iacm := iso_iacm r; iso_elem := iso_elem r |}.

Definition set_charges_elem {charge} (c : gmap Z (gmap string (list charge)))
    (r : Repository charge) : Repository charge :=
  {| min_shell := min_shell r; max_shell := max_shell r;
     charges_iacm := charges_iacm r; charges_elem := c;
     iso_iacm := iso_iacm r; iso_elem := iso_elem r |}.

(** [repo.__iso_iacm = i_iacm; repo.__iso_elem = i_elem] *)
Definition set_iso {charge} (i_iacm i_elem : gmap Z (list Z))
    (r : Repository charge) : Repository charge :=
  {| min_shell := min_shell r; max_shell := max_shell r;
     charges_iacm := charges_iacm r; charges_elem := charges_elem r;
     iso_iacm := Some i_iacm; iso_elem := Some i_elem |}.

(** [Repository.__init__(min_shell, max_shell)]:
    [self.__min_shell = max(min_shell, 0)]
    [self.__max_shell = max_shell]
    [self.charges_iacm = defaultdict(...)]
    [self.charges_elem = defaultdict(...)] *)
Definition Repository_init {charge} (min_shell max_shell : Z)
    : Repository charge :=
  {| min_shell := Z.max min_shell 0; max_shell := max_shell;
     charges_iacm := ∅; charges_elem := ∅;
     iso_iacm := None; iso_elem := None |}.

(** Both isomorphism indices have been assigned, as [create_from] and
    [read] leave a repository. *)
Definition has_indices {charge} (r : Repository charge) : Prop :=
  is_Some (iso_iacm r) ∧ is_Some (iso_elem r).

(** A generator: the items it yields, and the exception that ends it, if
    one does. *)
Definition generator (A : Type) : Type := list A * option exn.

(** [for x in gen: body(x)]: the body runs on every item yielded before the
    generator raises; an exception of the body ends the loop at once. *)
Definition for_generated {A S : Type} (gen : generator A)
    (body : A → S → result S) (st : S) : result S :=
  st' ← for_each gen.1 body st;
  match gen.2 with
  | Some e => Raise e
  | None => Ok st'
  end.


(** ** The solver channel: [Nauty.__ensure_dreadnaut_running]

    A [Popen] object is described by what [poll()] returns for it now:
    [None] while the process runs, its return code once it has exited.
    [spawned] counts the calls to [subprocess.Popen]. *)

Record Popen : Type := { poll : option Z }.

Record Nauty : Type := {
  process : option Popen;
  spawned : nat
}.

(** Python's truth value of [self.__process.poll()]: [None] and [0] are
    false, every other return code is true. *)
Definition poll_truthy (p : Popen) : bool :=
  match poll p with
  | None => false
  | Some rc => negb (rc =? 0)
  end.

(** [if not self.__process or self.__process.poll():
       self.__process = subprocess.Popen(...)] *)
Definition ensure_dreadnaut_running (self : Nauty) : Nauty :=
  match process self with
  | None => {| process := Some {| poll := None |}; spawned := S (spawned self) |}
  | Some p =>
      if poll_truthy p
      then {| process := Some {| poll := None |}; spawned := S (spawned self) |}
      else self
  end.

Definition running (self : Nauty) : Prop :=
  ∃ p, process self = Some p ∧ poll p = None.

(** ** The isomorphism index: [Repository.__make_isomorphics] *)

(** [itertools.groupby(items, key)]: the maximal runs of consecutive items
    with equal keys, in order. *)
Fixpoint groupby {A K : Type} `{EqDecision K} (key : A → K) (items : list A)
    : list (K * list A) :=
  match items with
  | [] => []
  | x :: rest =>
      match groupby key rest with
      | (k, group) :: groups =>
          if decide (key x = k) then (k, x :: group) :: groups
          else (key x, [x]) :: (k, group) :: groups
      | [] => [(key x, [x])]
      end
  end.

(** Every key occupies one run of the list: between two items with the
    same key there are only items with that key. *)
Definition contiguous {A K : Type} (key : A → K) (l : list A) : Prop :=
  ∀ l1 x l2 y l3, l = l1 ++ x :: l2 ++ y :: l3 → key x = key y →
    Forall (λ z, key z = key x) l2.

(** [for molid in isogroup: isomorphics[molid] = isogroup], when
    [len(isogroup) > 1]. *)
Definition record_isogroup (isomorphics : gmap Z (list Z)) (isogroup : list Z)
    : gmap Z (list Z) :=
  if decide (1 < length isogroup)%nat
  then foldl (λ iso molid, <[molid := isogroup]> iso) isomorphics isogroup
  else isomorphics.

(** [__make_isomorphics(molids, canons)].  [canons[molid]] raises KeyError
    for a molecule id without a canonical hash. *)
Definition make_isomorphics (molids : list Z) (canons : gmap Z string)
    : result (gmap Z (list Z)) :=
  if decide (Forall (λ molid, is_Some (canons !! molid)) molids) then
    Ok (foldl (λ iso kg, record_isogroup iso kg.2) ∅
          (groupby (λ molid, canons !! molid) molids))
  else Raise LookupError.

(** ** The archive

    [msgpack.packb] turns a Python value into a msgpack object and
    [msgpack.unpackb] turns the object back: tuples and lists are arrays,
    dicts (and defaultdicts) are maps.  The archive is the zip file, a map
    from entry names to the packed objects.  The integers of an object that
    [packb] has produced lie between [-2^63] and [2^64 - 1]. *)

#[warnings="-register-all"]
Inductive msg (charge : Type) : Type :=
  | MInt (z : Z)
  | MFloat (c : charge)
  | MStr (s : string)
  | MArray (items : list (msg charge))
  | MMap (items : list (msg charge * msg charge)).
Global Arguments MInt {charge} z.
Global Arguments MFloat {charge} c.
Global Arguments MStr {charge} s.
Global Arguments MArray {charge} items.
Global Arguments MMap {charge} items.

(** [[f(x) for x in items]] where [f] may raise. *)
Fixpoint result_map {A B : Type} (f : A → result B) (items : list A)
    : result (list B) :=
  match items with
  | [] => Ok []
  | x :: rest => y ← f x; ys ← result_map f rest; Ok (y :: ys)
  end.

(** ** Dict reads

    [key in d] never changes [d]; [d[key]] on a [defaultdict] stores the
    default under a missing key. *)
Definition dict_contains `{Countable K} {V : Type} (d : gmap K V) (key : K) : bool :=
  bool_decide (is_Some (d !! key)).

Definition defaultdict_getitem `{Countable K} {V : Type} (dflt : V)
    (d : gmap K V) (key : K) : V * gmap K V :=
  match d !! key with
  | Some v => (v, d)
  | None => (dflt, <[key := dflt]> d)
  end.

(** ** The filtered view of [charge/validation.py]

    A traceable repository keeps, for every observation, the tuple
    [(charge, molid, atom)]. *)

Record TraceableRepository (charge Atom : Type) : Type := {
  t_charges_iacm : gmap Z (gmap string (list (charge * Z * Atom)));
  t_charges_elem : gmap Z (gmap string (list (charge * Z * Atom)));
  t_iso_iacm : gmap Z (list Z);
  t_iso_elem : gmap Z (list Z)
}.
Global Arguments t_charges_iacm {charge Atom} _.
Global Arguments t_charges_elem {charge Atom} _.
Global Arguments t_iso_iacm {charge Atom} _.
Global Arguments t_iso_elem {charge Atom} _.

(** [_FilteredCharges]: the wrapped dict and the blocked molecule ids. *)
Record FilteredCharges (charge Atom : Type) : Type := {
  fc_charges : gmap string (list (charge * Z * Atom));
  fc_blocked_molids : list Z
}.
Global Arguments fc_charges {charge Atom} _.
Global Arguments fc_blocked_molids {charge Atom} _.

(** [_FilteredRepository] *)
Record FilteredRepository (charge Atom : Type) : Type := {
  f_charges_iacm : gmap Z (FilteredCharges charge Atom);
  f_charges_elem : gmap Z (FilteredCharges charge Atom)
}.
Global Arguments f_charges_iacm {charge Atom} _.
Global Arguments f_charges_elem {charge Atom} _.

(** ** Sequences of [add] and [subtract] calls *)

Inductive op : Type :=
  | Add (molid : Z)
  | Subtract (molid : Z).

(** Drops the first occurrence of [x]; [None] when there is none. *)
Fixpoint remove_first (x : Z) (l : list Z) : option (list Z) :=
  match l with
  | [] => None
  | y :: l' => if decide (x = y) then Some l' else (y ::.) <$> remove_first x l'
  end.

(** The molecules that contribute after [ops], starting from [cur]; [None]
    when some [Subtract] names a molecule that does not contribute then. *)
Fixpoint contributing (ops : list op) (cur : list Z) : option (list Z) :=
  match ops with
  | [] => Some cur
  | Add molid :: rest => contributing rest (molid :: cur)
  | Subtract molid :: rest =>
      cur' ← remove_first molid cur; contributing rest cur'
  end.

Definition op_molid (o : op) : Z :=
  match o with
  | Add molid => molid
  | Subtract molid => molid
  end.

(** ** Python's [list.sort] and [sorted], indexing and [enumerate]

    Both sorts compare with [<] only and are stable: items whose keys
    compare equal keep their order.  Insertion from the right, each item put
    before the first item whose key is not smaller, gives that list. *)

Fixpoint py_insert {A K : Type} (lt : K → K → bool) (key : A → K) (x : A)
    (l : list A) : list A :=
  match l with
  | [] => [x]
  | y :: l' =>
      if lt (key y) (key x) then y :: py_insert lt key x l' else x :: y :: l'
  end.

(** [sorted(l, key=key)], and [l] after [l.sort(key=key)]. *)
Definition py_sorted {A K : Type} (lt : K → K → bool) (key : A → K)
    (l : list A) : list A :=
  foldr (py_insert lt key) [] l.

(** [l[i]] on a list: a negative index counts from the end, an index
    outside [-len(l) .. len(l) - 1] raises IndexError. *)
Definition py_getitem {A : Type} (l : list A) (i : Z) : result A :=
  if decide (0 ≤ i) then of_option (l !! Z.to_nat i) LookupError
  else if decide (0 ≤ Z.of_nat (length l) + i)
       then of_option (l !! Z.to_nat (Z.of_nat (length l) + i)) LookupError
       else Raise LookupError.

(** [enumerate(l)] *)
Definition enumerate {A : Type} (l : list A) : list (nat * A) :=
  imap (λ i x, (i, x)) l.

(** ** The solver request and response: helpers of [Nauty.canonize]

    [Color = Tuple[bool, str]]: whether the node is the core, and its atom
    type.  [Edges = List[Tuple[int, int]]],
    [Partition = List[Tuple[Color, List[int]]]],
    [AdjacencyLists = List[Tuple[int, List[int]]]]. *)

Abbreviation Color := (bool * string)%type.

(** [<] on pairs of ints: the first components decide unless they are
    equal. *)
Definition int_pair_ltb (p q : Z * Z) : bool :=
  if decide (p.1 = q.1) then p.2 <? q.2 else p.1 <? q.1.

(** [<] on colours: [False < True] on the first components, and the order
    of [str] (by code point, which on the UTF-8 bytes of a [string] is
    [String.ltb]) on the atom types when the first components are equal. *)
Definition Color_ltb (c d : Color) : bool :=
  if decide (c.1 = d.1) then String.ltb c.2 d.2 else negb c.1 && d.1.

(** The loop at the start of [canonize]:
    [for node, color_str in graph.nodes(data=color_key):
       node_colors.append((node == core, color_str))];
    [core] is [None] when [canonize] is called without one. *)
Definition node_colors {charge : Type} (graph : Graph charge) (core : option Z)
    : list Color :=
  (λ nd, (bool_decide (Some nd.1 = core), atom_type nd.2)) <$> nodes graph.

(** [{ v: i for i, v in enumerate(graph.nodes()) }] in
    [__make_nauty_input] *)
Definition node_to_index (ns : list Z) : gmap Z Z :=
  foldl (λ m iv, <[iv.2 := Z.of_nat iv.1]> m) ∅ (enumerate ns).

(** [__make_nauty_edges(edges, node_to_index)]:
    [for u, v in edges:
       nauty_edges.append((node_to_index[u], node_to_index[v]))]
    [nauty_edges.sort()] *)
Definition make_nauty_edges (edges : list (Z * Z)) (node_to_index : gmap Z Z)
    : result (list (Z * Z)) :=
  nauty_edges ← result_map (λ uv,
      u ← of_option (node_to_index !! uv.1) LookupError;
      v ← of_option (node_to_index !! uv.2) LookupError;
      Ok (u, v)) edges;
  Ok (py_sorted int_pair_ltb id nauty_edges).

(** [__make_partition(nodes, node_colors, node_to_index)]:
    [for node_id, color in enumerate(node_colors):
       colored_nauty_nodes.append((node_to_index[nodes[node_id]], color))]
    [colored_nauty_nodes.sort(key=by_color)]
    [for color, node_and_colors in groupby(colored_nauty_nodes, key=by_color):
       partition.append((color, sorted(map(get_node, node_and_colors))))] *)
Definition make_partition (nodes : list Z) (node_colors : list Color)
    (node_to_index : gmap Z Z) : result (list (Color * list Z)) :=
  colored_nauty_nodes ← result_map (λ ic,
      node ← of_option (nodes !! ic.1) LookupError;
      index ← of_option (node_to_index !! node) LookupError;
      Ok (index, ic.2)) (enumerate node_colors);
  Ok ((λ kg, (kg.1, py_sorted Z.ltb id kg.2.*1)) <$>
        groupby snd (py_sorted Color_ltb snd colored_nauty_nodes)).

(** [__canonical_node_colors(canonical_node_ids, node_colors)]:
    [list(map(lambda nauty_id: node_colors[nauty_id], canonical_node_ids))] *)
Definition canonical_node_colors (canonical_node_ids : list Z)
    (node_colors : list Color) : result (list Color) :=
  result_map (py_getitem node_colors) canonical_node_ids.

(** [__canonical_edges(adjacency_lists)]:
    [for node_id, neighbors in adjacency_lists:
       for neighbor_id in neighbors:
         canonical_edges.append((node_id, neighbor_id))]
    [canonical_edges.sort()] *)
Definition canonical_edges (adjacency_lists : list (Z * list Z)) : list (Z * Z) :=
  py_sorted int_pair_ltb id
    (nb ← adjacency_lists; (λ neighbor_id, (nb.1, neighbor_id)) <$> nb.2).

(** The list that [__make_partition] sorts when every colour has its node:
    the index of each node with its colour. *)
Definition colored_nodes (colors : list Color) : list (Z * Color) :=
  (λ ic, (Z.of_nat ic.1, ic.2)) <$> enumerate colors.

(** The cells that [__make_partition] builds from that list. *)
Definition cells_of (colored : list (Z * Color)) : list (Color * list Z) :=
  (λ kg, (kg.1, py_sorted Z.ltb id kg.2.*1)) <$>
    groupby snd (py_sorted Color_ltb snd colored).

(** ** Cross-validation: what [cross_validate_molecules] selects *)

(** [sorted(l, key=key, reverse=True)]: the list is reversed, sorted and
    reversed again, which keeps items that compare equal in their order. *)
Definition py_sorted_reverse {A K : Type} (lt : K → K → bool) (key : A → K)
    (l : list A) : list A :=
  reverse (py_sorted lt key (reverse l)).

(** The argument [shell]: [None], an [int], or an iterable of ints. *)
Inductive shell_arg : Type :=
  | ShellNone
  | ShellInt (shell : Z)
  | ShellList (shell : list Z).

(** [if shell is None: wanted_shells = None
     else:
       if isinstance(shell, int): shell = [shell]
       min_shell, max_shell = min(shell), max(shell)
       wanted_shells = sorted(shell, reverse=True)]
    [min] of an empty sequence raises ValueError. *)
Definition wanted_shells (shell : shell_arg) : result (option (list Z)) :=
  match shell with
  | ShellNone => Ok None
  | ShellInt s => Ok (Some (py_sorted_reverse Z.ltb id [s]))
  | ShellList [] => Raise ValueError
  | ShellList l => Ok (Some (py_sorted_reverse Z.ltb id l))
  end.

(** The shells handed to the charger, for a [repo] that is given:
    [if wanted_shells is None:
       shells = sorted(repo.charges_iacm.keys(), reverse=True)
     else:
       for s in wanted_shells:
         if s not in repo.charges_iacm.keys(): warn(...)
         else: shells.append(s)] *)
Definition select_shells {V : Type} (shell : shell_arg) (charges_iacm : gmap Z V)
    : result (list Z) :=
  wanted ← wanted_shells shell;
  match wanted with
  | None => Ok (py_sorted_reverse Z.ltb id (map_to_list charges_iacm).*1)
  | Some wanted => Ok (filter (λ s, is_Some (charges_iacm !! s)) wanted)
  end.

(** [for molid in molids: if (molid % num_buckets) == bucket: ...]: the
    molecules that one call validates, in order.  [None] stands for the
    ZeroDivisionError of [molid % 0]. *)
Definition bucket_molids (molids : list Z) (bucket num_buckets : Z)
    : option (list Z) :=
  match molids with
  | [] => Some []
  | _ =>
      if decide (num_buckets = 0) then None
      else Some (filter (λ molid, molid `mod` num_buckets = bucket) molids)
  end.

(** ** The worker pool of the corpus build *)

(** The results of the work items in the order given, up to the first
    item whose worker raises. *)
Fixpoint processed_from {A B : Type} (process : A → result B) (items : list A)
    : generator B :=
  match items with
  | [] => ([], None)
  | x :: rest =>
      match process x with
      | Ok b => let gen := processed_from process rest in (b :: gen.1, gen.2)
      | Raise e => ([], Some e)
      end
  end.

(** Modelled from the spec: [MultiProcessor.processed] of
    [charge/multiprocessor.py], which is not among the sources.  The
    specification says of it: each parallel stage fans out fixed work items
    to a worker pool and fans in results; workers complete in
    non-deterministic order; any worker task raising a data error aborts
    the whole build.  [completion] gives the order in which the results of
    the work items arrive, a rearrangement of the items; the generator
    yields the results in that order and raises the error of the first
    worker that fails. *)
Definition processed {A B : Type} (completion : list A → list A)
    (process : A → result B) (items : list A) : generator B :=
  processed_from process (completion items).

(** The completion orders of the pools that one call of [create_from]
    starts: for reading the files, and, for the pass with IACM types
    ([true]) and the pass with plain elements ([false]), for the charges of
    each shell and for the canonical hashes. *)
Record schedule (charge : Type) : Type := {
  read_order : list Z → list Z;
  charge_order : bool → Z → list (Z * Graph charge) → list (Z * Graph charge);
  canon_order : bool → list (Z * Graph charge) → list (Z * Graph charge)
}.
Global Arguments read_order {charge} _.
Global Arguments charge_order {charge} _.
Global Arguments canon_order {charge} _.

(** Every pool hands back the results of all its work items, each once. *)
Definition fair {charge : Type} (sched : schedule charge) : Prop :=
  (∀ molids, read_order sched molids ≡ₚ molids) ∧
  (∀ iacm shell graphs, charge_order sched iacm shell graphs ≡ₚ graphs) ∧
  (∀ iacm graphs, canon_order sched iacm graphs ≡ₚ graphs).

(** ** Molecules and repositories used in the examples

    Charges are integers here (thousandths of an elementary charge), compared
    with [Z.ltb]; the hash of a neighbourhood is the atom type of its core
    followed by the shell size. *)

Definition example_canonize (graph : Graph Z) (atom shell : Z) : string :=
  match list_to_map (M := gmap Z (node_data Z)) (nodes graph) !! atom with
  | Some data => atom_type data +:+ (if decide (shell ≤ 1) then "/1" else "/n")
  | None => "?"
  end.

Definition example_IACM_MAP : gmap string string :=
  <["C" := "C"]> (<["HC" := "H"]> ∅).

(** A carbon with charge 100 and a hydrogen with charge -25. *)
Definition example_CH : Graph Z :=
  {| nodes := [(1, {| atom_type := "C"; partial_charge := Some 100 |});
               (2, {| atom_type := "HC"; partial_charge := Some (-25) |})];
     edges := [(1, 2)] |}.

(** The same molecule, the hydrogen without a partial charge. *)
Definition example_CH_uncharged : Graph Z :=
  {| nodes := [(1, {| atom_type := "C"; partial_charge := Some 100 |});
               (2, {| atom_type := "HC"; partial_charge := None |})];
     edges := [(1, 2)] |}.

(** A data directory with molecule 1 ([example_CH]) and molecule 2
    ([example_CH_uncharged]). *)
Definition example_files (molid : Z) : option (Graph Z) :=
  if decide (molid = 1) then Some example_CH
  else if decide (molid = 2) then Some example_CH_uncharged
  else None.

(** A repository without shell entries whose indices are assigned and
    empty: for the bounds 1 and 2 it is what is left when [create_from] has
    built a repository from a directory with one molecule and [subtract]
    has removed that molecule. *)
Definition example_repository (mn mx : Z) : Repository Z :=
  {| min_shell := mn; max_shell := mx;
     charges_iacm := ∅; charges_elem := ∅;
     iso_iacm := Some ∅; iso_elem := Some ∅ |}.

(** The repository that [create_from] builds from a directory holding
    [example_CH] alone, with [min_shell = max_shell = 2]. *)
Definition example_built : Repository Z :=
  {| min_shell := 2; max_shell := 2;
     charges_iacm := {[ 2 := <["C/n" := [100]]> {[ "HC/n" := [-25] ]} ]};
     charges_elem := {[ 2 := <["C/n" := [100]]> {[ "H/n" := [-25] ]} ]};
     iso_iacm := Some ∅; iso_elem := Some ∅ |}.

(** The repository that [create_from] builds from the same directory with
    [min_shell = max_shell = 0]. *)
Definition example_built_0 : Repository Z :=
  {| min_shell := 0; max_shell := 0;
     charges_iacm := {[ 0 := <["C/1" := [100]]> {[ "HC/1" := [-25] ]} ]};
     charges_elem := {[ 0 := <["C/1" := [100]]> {[ "H/1" := [-25] ]} ]};
     iso_iacm := Some ∅; iso_elem := Some ∅ |}.

(** A directory that holds molecule 1 only. *)
Definition example_files_1 (molid : Z) : option (Graph Z) :=
  if decide (molid = 1) then Some example_CH else None.

(** The repository that [create_from] builds from an empty directory with
    [min_shell = max_shell = 2]: the second loop of [__generate_charges]
    leaves an empty dict under shell 2. *)
Definition example_built_empty : Repository Z :=
  {| min_shell := 2; max_shell := 2;
     charges_iacm := {[ 2 := ∅ ]}; charges_elem := {[ 2 := ∅ ]};
     iso_iacm := Some ∅; iso_elem := Some ∅ |}.

(** A directory with two copies of [example_CH] whose file names are the
    numbers [2^64] and [2^64 + 1], and the repository that [create_from]
    builds from it with [min_shell = max_shell = 1]. *)
Definition example_files_big (molid : Z) : option (Graph Z) :=
  if decide (molid = 2 ^ 64 ∨ molid = 2 ^ 64 + 1) then Some example_CH else None.

Definition example_built_big : Repository Z :=
  {| min_shell := 1; max_shell := 1;
     charges_iacm := {[ 1 := <["C/1" := [100; 100]]> {[ "HC/1" := [-25; -25] ]} ]};
     charges_elem := {[ 1 := <["C/1" := [100; 100]]> {[ "H/1" := [-25; -25] ]} ]};
     iso_iacm := Some (<[2 ^ 64 := [2 ^ 64; 2 ^ 64 + 1]]>
                         {[ 2 ^ 64 + 1 := [2 ^ 64; 2 ^ 64 + 1] ]});
     iso_elem := Some (<[2 ^ 64 := [2 ^ 64; 2 ^ 64 + 1]]>
                         {[ 2 ^ 64 + 1 := [2 ^ 64; 2 ^ 64 + 1] ]}) |}.

(** Three molecules of which the first and the last have the same
    canonical hash. *)
Definition example_canons : gmap Z string :=
  <[1 := "a"]> (<[2 := "b"]> (<[3 := "a"]> ∅)).

(** A directory with two copies of [example_CH], molecules 1 and 3. *)
Definition example_files_13 (molid : Z) : option (Graph Z) :=
  if decide (molid = 1 ∨ molid = 3) then Some example_CH else None.

(** A whole-molecule hash for the examples: the atom types in order. *)
Definition example_canonize_molecule (graph : Graph Z) : string :=
  String.concat "," ((λ nd, atom_type nd.2) <$> nodes graph).

(** Pools that hand back their results last item first. *)
Definition example_schedule : schedule Z :=
  {| read_order := reverse;
     charge_order := λ _ _, reverse;
     canon_order := λ _, reverse |}.

(** * Definitions that depend on the charge type and on the environment *)

Section charge_assign.
Context {charge : Type} (ltb : charge → charge → bool).

(** [Nauty.canonize_neighborhood(graph, atom, shell)]: the hash that the
    external solver gives for the neighbourhood of [atom]. *)
Variable canonize_neighborhood : Graph charge → Z → Z → string.

(** [charge.settings.IACM_MAP], from atom types to plain elements. *)
Variable IACM_MAP : gmap string string.

(** The molecule files of the data directory: what
    [convert_from(open(path).read(), data_type)] yields for a molecule
    id, or [None] when the file cannot be opened. *)
Variable convert_from_file : Z → option (Graph charge).

(** [charge.charge_types.Atom] *)
Variable Atom : Type.

Abbreviation store := (gmap Z (gmap string (list charge))).

(** ** [bisect.bisect_left], [bisect.insort_left] and [list.pop] *)

(** [x <= y], as [not (y < x)]. *)
Definition leb_of (x y : charge) : Prop := ltb y x = false.

(** The loop of [bisect_left]:
    [while lo < hi: mid = (lo + hi) // 2;
       if a[mid] < x: lo = mid + 1 else: hi = mid].
    The loop runs at most [hi - lo] times; [fuel] is that bound. *)
Fixpoint bisect_loop (fuel : nat) (a : list charge) (x : charge) (lo hi : nat) : nat :=
  match fuel with
  | O => lo
  | S fuel' =>
      if decide (lo < hi)%nat then
        let mid := ((lo + hi) `div` 2)%nat in
        match a !! mid with
        | Some y =>
            if ltb y x then bisect_loop fuel' a x (mid + 1)%nat hi
            else bisect_loop fuel' a x lo mid
        | None => lo
        end
      else lo
  end.

Definition bisect_left (a : list charge) (x : charge) : nat :=
  bisect_loop (length a) a x 0%nat (length a).

(** [a.insert(i, x)] for [0 <= i <= len(a)]. *)
Definition list_insert_at (i : nat) (x : charge) (a : list charge) : list charge :=
  take i a ++ x :: drop i a.

Definition insort_left (a : list charge) (x : charge) : list charge :=
  list_insert_at (bisect_left a x) x a.

(** [a.pop(i)] for [i >= 0]: IndexError when [i] is out of range. *)
Definition list_pop (i : nat) (a : list charge) : result (list charge) :=
  if decide (i < length a)%nat then Ok (delete i a) else Raise LookupError.

Definition sorted (a : list charge) : Prop := StronglySorted leb_of a.

(** The position that [bisect_left] is specified to return: everything
    before it is [< x], everything from it on is not. *)
Definition is_bisect_point (a : list charge) (x : charge) (p : nat) : Prop :=
  (p ≤ length a)%nat ∧
  (∀ i y, (i < p)%nat → a !! i = Some y → ltb y x = true) ∧
  (∀ i y, (p ≤ i)%nat → a !! i = Some y → ltb y x = false).


(** ** The typed stores and the local functions of [add] and [subtract] *)

(** The local function [a] of [Repository.add]:
    [if shell not in repo: repo[shell] = dict()]
    [if key not in repo[shell]: repo[shell][key] = []]
    [bisect.insort_left(repo[shell][key], partial_charge)] *)
Definition add_a (shell : Z) (key : string) (partial_charge : charge)
    (repo : store) : store :=
  let repo1 :=
    match repo !! shell with
    | None => <[shell := ∅]> repo
    | Some _ => repo
    end in
  let d := repo1 !!! shell in
  let d1 :=
    match d !! key with
    | None => <[key := []]> d
    | Some _ => d
    end in
  <[shell := <[key := insort_left (d1 !!! key) partial_charge]> d1]> repo1.

(** The local function [s] of [Repository.subtract]:
    [repo[shell][key].pop(bisect.bisect_left(repo[shell][key], partial_charge))]
    [if len(repo[shell][key]) == 0: del repo[shell][key]]
    [if len(repo[shell]) == 0: del repo[shell]]
    A missing shell or key raises (KeyError on a dict; on the defaultdict
    of a freshly built repository the empty default list is popped, an
    IndexError). *)
Definition subtract_s (shell : Z) (key : string) (partial_charge : charge)
    (repo : store) : result store :=
  d ← of_option (repo !! shell) LookupError;
  bucket ← of_option (d !! key) LookupError;
  bucket' ← list_pop (bisect_left bucket partial_charge) bucket;
  let d' :=
    if decide (length bucket' = 0%nat) then delete key d
    else <[key := bucket']> d in
  let repo' :=
    if decide (size d' = 0%nat) then delete shell repo
    else <[shell := d']> repo in
  Ok repo'.


(** ** [Repository.__iterate], [add] and [subtract] *)

(** [_iter_atomic_fragments(graph, nauty, shell)], over the nodes still to
    be visited. *)
Fixpoint iter_atomic_fragments_from (graph : Graph charge) (shell : Z)
    (atoms : list (Z * node_data charge)) : generator (string * charge) :=
  match atoms with
  | [] => ([], None)
  | (atom, data) :: rest =>
      match partial_charge data with
      | None => ([], Some (KeyError_partial_charge atom))
      | Some pc =>
          let gen := iter_atomic_fragments_from graph shell rest in
          ((canonize_neighborhood graph atom shell, pc) :: gen.1, gen.2)
      end
  end.

Definition _iter_atomic_fragments (graph : Graph charge) (shell : Z)
    : generator (string * charge) :=
  iter_atomic_fragments_from graph shell (nodes graph).

(** [for v, data in graph.nodes(data=True):
       graph.node[v]['atom_type'] = IACM_MAP[data['atom_type']]] *)
Fixpoint to_elements_nodes (ns : list (Z * node_data charge))
    : result (list (Z * node_data charge)) :=
  match ns with
  | [] => Ok []
  | (v, data) :: rest =>
      t ← of_option (IACM_MAP !! atom_type data) LookupError;
      rest' ← to_elements_nodes rest;
      Ok ((v, {| atom_type := t; partial_charge := partial_charge data |})
            :: rest')
  end.

Definition to_elements (graph : Graph charge) : result (Graph charge) :=
  ns ← to_elements_nodes (nodes graph);
  Ok {| nodes := ns; edges := edges graph |}.

(** [range(1, self.__max_shell + 1)] *)
Definition shells (self : Repository charge) : list Z :=
  seqZ 1 (max_shell self).

(** The loop over the shells inside [__iterate], for one graph:
    [for shell in range(1, self.__max_shell + 1):
       for key, partial_charge in _iter_atomic_fragments(graph, nauty, shell):
         callable(shell, key, partial_charge)] *)
Definition shell_loop {S : Type} (graph : Graph charge) (shs : list Z)
    (callable : Z → string → charge → S → result S) (st : S) : result S :=
  for_each shs (λ shell st,
    for_generated (_iter_atomic_fragments graph shell)
      (λ '(key, pc) st, callable shell key pc st) st) st.

(** [_ChargeWorker.process(molid, graph)] of the corpus build, for the
    worker of one shell:
    [charges = defaultdict(list)]
    [for key, partial_charge in _iter_atomic_fragments(graph, nauty, shell):
       charges[key].append(partial_charge)] *)
Definition ChargeWorker_process (shell : Z) (graph : Graph charge)
    : result (gmap string (list charge)) :=
  for_generated (_iter_atomic_fragments graph shell)
    (λ '(key, pc) charges,
       Ok (<[key := default [] (charges !! key) ++ [pc]]> charges)) ∅.

(** The callables that [add] and [subtract] hand to [__iterate]. *)
Definition add_iacm (shell : Z) (key : string) (pc : charge)
    (self : Repository charge) : result (Repository charge) :=
  Ok (set_charges_iacm (add_a shell key pc (charges_iacm self)) self).

Definition add_elem (shell : Z) (key : string) (pc : charge)
    (self : Repository charge) : result (Repository charge) :=
  Ok (set_charges_elem (add_a shell key pc (charges_elem self)) self).

Definition subtract_iacm (shell : Z) (key : string) (pc : charge)
    (self : Repository charge) : result (Repository charge) :=
  c ← subtract_s shell key pc (charges_iacm self);
  Ok (set_charges_iacm c self).

Definition subtract_elem (shell : Z) (key : string) (pc : charge)
    (self : Repository charge) : result (Repository charge) :=
  c ← subtract_s shell key pc (charges_elem self);
  Ok (set_charges_elem c self).

(** [Repository.__iterate].
    [if molid in self.__iso_iacm: ids_iacm.union(set(self.__iso_iacm[molid]))]
    [if molid in self.__iso_elem: ids_iacm.union(set(self.__iso_elem[molid]))]
    Reading [self.__iso_iacm] or [self.__iso_elem] raises AttributeError on
    a repository to which [create_from] or [read] has not assigned it.  The
    two [union] calls build new sets that are not bound to anything;
    [ids_iacm] and [ids_elem] stay [{molid}]. *)
Definition iterate (self : Repository charge) (molid : Z)
    (callable_iacm callable_elem :
       Z → string → charge → Repository charge → result (Repository charge))
    : result (Repository charge) :=
  let ids_iacm : gset Z := {[ molid ]} in
  let ids_elem : gset Z := {[ molid ]} in
  i_iacm ← of_option (iso_iacm self) AttributeError;
  let _ : gset Z :=
    match i_iacm !! molid with
    | Some group => ids_iacm ∪ list_to_set group
    | None => ids_iacm
    end in
  i_elem ← of_option (iso_elem self) AttributeError;
  let _ : gset Z :=
    match i_elem !! molid with
    | Some group => ids_iacm ∪ list_to_set group
    | None => ids_iacm
    end in
  self ← for_each (elements ids_iacm) (λ molid self,
    graph ← of_option (convert_from_file molid) OSError;
    for_each (shells self) (λ shell self,
      for_generated (_iter_atomic_fragments graph shell)
        (λ '(key, pc) self, callable_iacm shell key pc self) self) self) self;
  for_each (elements ids_elem) (λ molid self,
    graph ← of_option (convert_from_file molid) OSError;
    graph ← to_elements graph;
    for_each (shells self) (λ shell self,
      for_generated (_iter_atomic_fragments graph shell)
        (λ '(key, pc) self, callable_elem shell key pc self) self) self) self.

(** [Repository.add] *)
Definition add (self : Repository charge) (molid : Z)
    : result (Repository charge) :=
  iterate self molid add_iacm add_elem.

(** [Repository.subtract] *)
Definition subtract (self : Repository charge) (molid : Z)
    : result (Repository charge) :=
  iterate self molid subtract_iacm subtract_elem.

(** ** Reading the stores *)

Definition bucket_lookup (repo : store) (shell : Z) (key : string)
    : option (list charge) :=
  repo !! shell ≫= (.!! key).

(** The charges stored for a shell and a hash; no bucket reads as the
    empty list. *)
Definition bucket_of (repo : store) (shell : Z) (key : string) : list charge :=
  default [] (bucket_lookup repo shell key).

(** The invariant of the data model: every stored bucket is non-empty and
    sorted. *)
Definition wf_buckets (repo : store) : Prop :=
  ∀ shell key b, bucket_lookup repo shell key = Some b → b ≠ [] ∧ sorted b.

(** No shell entry is an empty dict. *)
Definition no_empty_shell (repo : store) : Prop :=
  ∀ shell d, repo !! shell = Some d → d ≠ ∅.

(** What [s] leaves behind once the pop has succeeded. *)
Definition prune (shell : Z) (key : string) (d : gmap string (list charge))
    (bucket' : list charge) (repo : store) : store :=
  match bucket' with
  | [] => if decide (delete key d = ∅) then delete shell repo
          else <[shell := delete key d]> repo
  | _ :: _ => <[shell := <[key := bucket']> d]> repo
  end.

(** ** The observations of a molecule *)

Definition all_charged (graph : Graph charge) : Prop :=
  Forall (λ nd, is_Some (partial_charge nd.2)) (nodes graph).

(** The first node, in iteration order, without a [partial_charge]. *)
Fixpoint first_uncharged (atoms : list (Z * node_data charge)) : option Z :=
  match atoms with
  | [] => None
  | (atom, data) :: rest =>
      match partial_charge data with
      | None => Some atom
      | Some _ => first_uncharged rest
      end
  end.

(** The triples [(shell, key, partial_charge)] that [__iterate] hands to a
    callable for one graph, in order, when no atom lacks its charge. *)
Definition observations (graph : Graph charge) (mx : Z)
    : list (Z * string * charge) :=
  shell ← seqZ 1 mx;
  (λ kp, (shell, kp.1, kp.2)) <$> (_iter_atomic_fragments graph shell).1.

Definition charges_at (shell : Z) (key : string)
    (obs : list (Z * string * charge)) : list charge :=
  omap (λ o, if decide (o.1.1 = shell ∧ o.1.2 = key) then Some o.2 else None) obs.

Definition add_all (obs : list (Z * string * charge)) (repo : store) : store :=
  foldl (λ repo o, add_a o.1.1 o.1.2 o.2 repo) repo obs.

Definition sub_all (obs : list (Z * string * charge)) (repo : store)
    : result store :=
  for_each obs (λ o repo, subtract_s o.1.1 o.1.2 o.2 repo) repo.

(** What a molecule id contributes under each typing. *)
Definition observations_iacm (mx : Z) (molid : Z) : list (Z * string * charge) :=
  match convert_from_file molid with
  | Some graph => observations graph mx
  | None => []
  end.

Definition observations_elem (mx : Z) (molid : Z) : list (Z * string * charge) :=
  match convert_from_file molid with
  | Some graph =>
      match to_elements graph with
      | Ok graph' => observations graph' mx
      | Raise _ => []
      end
  | None => []
  end.

(** A molecule file that [add] and [subtract] can process: it opens, every
    atom type is in [IACM_MAP], every atom has its charge. *)
Definition processable (molid : Z) : Prop :=
  ∃ graph graph', convert_from_file molid = Some graph ∧
    to_elements graph = Ok graph' ∧ all_charged graph.

(** What the molecules [cur] contribute to a bucket under each typing. *)
Definition contributions_iacm (mx : Z) (cur : list Z) (shell : Z) (key : string)
    : list charge :=
  molid ← cur; charges_at shell key (observations_iacm mx molid).

Definition contributions_elem (mx : Z) (cur : list Z) (shell : Z) (key : string)
    : list charge :=
  molid ← cur; charges_at shell key (observations_elem mx molid).

(** Every stored bucket is non-empty, sorted and holds exactly the multiset
    [contrib]; where nothing is stored, nothing is contributed. *)
Definition holds_exactly (repo : store)
    (contrib : Z → string → list charge) : Prop :=
  ∀ shell key,
    match bucket_lookup repo shell key with
    | Some b => b ≠ [] ∧ sorted b ∧ b ≡ₚ contrib shell key
    | None => contrib shell key = []
    end.

Definition no_buckets (repo : store) : Prop :=
  ∀ shell key, bucket_lookup repo shell key = None.

Definition run (self : Repository charge) (ops : list op)
    : result (Repository charge) :=
  for_each ops (λ o self,
    match o with
    | Add molid => add self molid
    | Subtract molid => subtract self molid
    end) self.

(** ** [Repository.write] and [Repository.read] *)

(** [msgpack.packb] on the values that [write] hands to it.  An [int] is
    packed when it lies between [-2^63] and [2^64 - 1] and raises
    OverflowError otherwise; floats and strings are packed as they are; a
    list or tuple is packed item by item into an array, a dict key by key
    and value by value into a map. *)
Definition pack_int (z : Z) : result (msg charge) :=
  if decide (- 2 ^ 63 ≤ z < 2 ^ 64) then Ok (MInt z) else Raise OverflowError.

Definition pack_float (c : charge) : result (msg charge) := Ok (MFloat c).

Definition pack_str (s : string) : result (msg charge) := Ok (MStr s).

Definition pack_list {A : Type} (f : A → result (msg charge)) (l : list A)
    : result (msg charge) :=
  MArray <$> result_map f l.

Definition pack_dict `{Countable K} {V : Type} (fk : K → result (msg charge))
    (fv : V → result (msg charge)) (d : gmap K V) : result (msg charge) :=
  MMap <$> result_map (λ kv, k ← fk kv.1; v ← fv kv.2; Ok (k, v))
             (map_to_list d).

Definition unpack_int (m : msg charge) : result Z :=
  match m with MInt z => Ok z | _ => Raise ValueError end.

Definition unpack_float (m : msg charge) : result charge :=
  match m with MFloat c => Ok c | _ => Raise ValueError end.

Definition unpack_str (m : msg charge) : result string :=
  match m with MStr s => Ok s | _ => Raise ValueError end.

Definition unpack_list {A : Type} (f : msg charge → result A) (m : msg charge)
    : result (list A) :=
  match m with MArray items => result_map f items | _ => Raise ValueError end.

(** A map unpacks to a dict; of two equal keys the later one stays. *)
Definition unpack_dict `{Countable K} {V : Type} (fk : msg charge → result K)
    (fv : msg charge → result V) (m : msg charge) : result (gmap K V) :=
  match m with
  | MMap items =>
      kvs ← result_map (λ kv, k ← fk kv.1; v ← fv kv.2; Ok (k, v)) items;
      Ok (list_to_map (reverse kvs))
  | _ => Raise ValueError
  end.

Definition pack_charges (c : store) : result (msg charge) :=
  pack_dict pack_int (pack_dict pack_str (pack_list pack_float)) c.

Definition unpack_charges (m : msg charge) : result store :=
  unpack_dict unpack_int (unpack_dict unpack_str (unpack_list unpack_float)) m.

Definition pack_iso (iso : gmap Z (list Z)) : result (msg charge) :=
  pack_dict pack_int (pack_list pack_int) iso.

Definition unpack_iso (m : msg charge) : result (gmap Z (list Z)) :=
  unpack_dict unpack_int (unpack_list unpack_int) m.

(** [Repository.write]: the five entries of the zip file, written in this
    order.  When a call raises, [write] ends with that exception and without
    the entries that were still to be written.
    [zf.writestr('meta', msgpack.packb((self.__min_shell, self.__max_shell)))]
    [zf.writestr('charges_iacm', msgpack.packb(self.charges_iacm))]
    [zf.writestr('charges_elem', msgpack.packb(self.charges_elem))]
    [zf.writestr('iso_iacm', msgpack.packb(self.__iso_iacm))]
    [zf.writestr('iso_elem', msgpack.packb(self.__iso_elem))] *)
Definition write (self : Repository charge)
    : result (gmap string (msg charge)) :=
  meta ← pack_list pack_int [min_shell self; max_shell self];
  c_iacm ← pack_charges (charges_iacm self);
  c_elem ← pack_charges (charges_elem self);
  i_iacm ← of_option (iso_iacm self) AttributeError ≫= pack_iso;
  i_elem ← of_option (iso_elem self) AttributeError ≫= pack_iso;
  Ok (<["iso_elem" := i_elem]> (
      <["iso_iacm" := i_iacm]> (
      <["charges_elem" := c_elem]> (
      <["charges_iacm" := c_iacm]> (
      <["meta" := meta]> ∅))))).

(** Every integer of the repository is one that [msgpack.packb] packs. *)
Definition packable_int (z : Z) : Prop := - 2 ^ 63 ≤ z < 2 ^ 64.

Definition packable_iso (iso : gmap Z (list Z)) : Prop :=
  ∀ molid group, iso !! molid = Some group →
    packable_int molid ∧ Forall packable_int group.

Definition packable (self : Repository charge) : Prop :=
  packable_int (min_shell self) ∧ packable_int (max_shell self) ∧
  (∀ shell, is_Some (charges_iacm self !! shell) → packable_int shell) ∧
  (∀ shell, is_Some (charges_elem self !! shell) → packable_int shell) ∧
  (∀ iso, iso_iacm self = Some iso → packable_iso iso) ∧
  (∀ iso, iso_elem self = Some iso → packable_iso iso).

(** [Repository.read].  [zf.read(name)] raises KeyError for a missing
    entry. *)
Definition read (zf : gmap string (msg charge)) : result (Repository charge) :=
  meta ← of_option (zf !! "meta") LookupError;
  bounds ← unpack_list unpack_int meta;
  match bounds with
  | [mn; mx] =>
      c_iacm ← of_option (zf !! "charges_iacm") LookupError ≫= unpack_charges;
      c_elem ← of_option (zf !! "charges_elem") LookupError ≫= unpack_charges;
      i_iacm ← of_option (zf !! "iso_iacm") LookupError ≫= unpack_iso;
      i_elem ← of_option (zf !! "iso_elem") LookupError ≫= unpack_iso;
      Ok {| min_shell := mn; max_shell := mx;
            charges_iacm := c_iacm; charges_elem := c_elem;
            iso_iacm := Some i_iacm; iso_elem := Some i_elem |}
  | _ => Raise ValueError
  end.

(** ** [_FilteredCharges] and [_FilteredRepository] *)

(** [[charge for charge, molid, _ in traceable_charges
       if molid not in self.__blocked_molids]] *)
Definition filtered_copy (self : FilteredCharges charge Atom)
    (traceable_charges : list (charge * Z * Atom)) : list charge :=
  (λ t, t.1.1) <$>
    filter (λ t, t.1.2 ∉ fc_blocked_molids self) traceable_charges.

(** [_FilteredCharges.__getitem__]; the second component is the wrapped
    dict after the call. *)
Definition FilteredCharges_getitem (self : FilteredCharges charge Atom)
    (key : string)
    : result (list charge) * gmap string (list (charge * Z * Atom)) :=
  if dict_contains (fc_charges self) key then
    let '(traceable_charges, d) := defaultdict_getitem [] (fc_charges self) key in
    let charges := filtered_copy self traceable_charges in
    if decide (length charges = 0%nat) then (Raise LookupError, d)
    else (Ok charges, d)
  else (Raise LookupError, fc_charges self).

(** [for shell in charges.keys():
       view[shell] = _FilteredCharges(charges[shell], excluded)];
    the second component is [charges] after the loop. *)
Definition wrap_shells
    (charges : gmap Z (gmap string (list (charge * Z * Atom))))
    (excluded : list Z)
    : gmap Z (FilteredCharges charge Atom) *
      gmap Z (gmap string (list (charge * Z * Atom))) :=
  foldl (λ acc shell,
           let '(d, charges') := defaultdict_getitem ∅ acc.2 shell in
           (<[shell := {| fc_charges := d; fc_blocked_molids := excluded |}]> acc.1,
            charges'))
        (∅, charges) (map_to_list charges).*1.

(** [if molid in iso: excluded = iso[molid] else: excluded = [molid]];
    the second component is [iso] after the reads. *)
Definition excluded_molids (iso : gmap Z (list Z)) (molid : Z)
    : list Z * gmap Z (list Z) :=
  if dict_contains iso molid then defaultdict_getitem [] iso molid
  else ([molid], iso).

(** [_FilteredRepository.__init__(repo, molid)]; the second component is
    [repo] after the call. *)
Definition FilteredRepository_init (repo : TraceableRepository charge Atom)
    (molid : Z)
    : FilteredRepository charge Atom * TraceableRepository charge Atom :=
  let '(iacm_excluded, i_iacm) := excluded_molids (t_iso_iacm repo) molid in
  let '(v_iacm, c_iacm) := wrap_shells (t_charges_iacm repo) iacm_excluded in
  let '(elem_excluded, i_elem) := excluded_molids (t_iso_elem repo) molid in
  let '(v_elem, c_elem) := wrap_shells (t_charges_elem repo) elem_excluded in
  ({| f_charges_iacm := v_iacm; f_charges_elem := v_elem |},
   {| t_charges_iacm := c_iacm; t_charges_elem := c_elem;
      t_iso_iacm := i_iacm; t_iso_elem := i_elem |}).

(** [view[shell][key]] on one of the two dicts of a [_FilteredRepository];
    the dict of the view is a plain [dict]. *)
Definition view_getitem (view : gmap Z (FilteredCharges charge Atom))
    (shell : Z) (key : string) : result (list charge) :=
  fc ← of_option (view !! shell) LookupError;
  (FilteredCharges_getitem fc key).1.

(** The charges of a traceable bucket, in order, without the observations
    of the molecules in [excluded]. *)
Fixpoint without_molecules (excluded : list Z)
    (traceable_charges : list (charge * Z * Atom)) : list charge :=
  match traceable_charges with
  | [] => []
  | (c, molid, _) :: rest =>
      if decide (molid ∈ excluded) then without_molecules excluded rest
      else c :: without_molecules excluded rest
  end.

(** What a lookup in the filtered view is specified to give for the
    underlying bucket: its charges without the excluded molecules, and a
    KeyError when the bucket is missing or nothing is left of it. *)
Definition filtered_bucket (excluded : list Z)
    (bucket : option (list (charge * Z * Atom))) : result (list charge) :=
  match bucket with
  | Some traceable_charges =>
      match without_molecules excluded traceable_charges with
      | [] => Raise LookupError
      | c :: cs => Ok (c :: cs)
      end
  | None => Raise LookupError
  end.

(** ** The corpus build: [Repository.create_from] *)

(** [_ReadWorker.process(molid)] *)
Definition ReadWorker_process (molid : Z) : result (Z * Graph charge) :=
  graph ← of_option (convert_from_file molid) OSError;
  Ok (molid, graph).

(** [__read_graphs]:
    [for molid, graph in mp.processed(molids, 'reading files'):
       graphs.append((molid, graph))] *)
Definition read_graphs (completion : list Z → list Z) (molids : list Z)
    : result (list (Z * Graph charge)) :=
  for_generated (processed completion ReadWorker_process molids)
    (λ mg graphs, Ok (graphs ++ [mg])) [].

(** [for key, values in c.items(): charges[shell][key] += values] on the
    [defaultdict] of [defaultdict(list)].  The keys of [c] are distinct, so
    the order in which [c.items()] lists them does not matter. *)
Definition merge_charges (shell : Z) (c : gmap string (list charge))
    (charges : store) : store :=
  foldl (λ charges kv,
           let d := default ∅ (charges !! shell) in
           <[shell := <[kv.1 := default [] (d !! kv.1) ++ kv.2]> d]> charges)
        charges (map_to_list c).

(** [range(self.__min_shell, self.__max_shell + 1)] *)
Definition build_shells (self : Repository charge) : list Z :=
  seqZ (min_shell self) (max_shell self + 1 - min_shell self).

(** [__generate_charges(graphs)]; [completion shell] is the order in which
    the pool of that shell hands back its results.
    [for shell in range(self.__min_shell, self.__max_shell + 1):
       with MultiProcessor(_ChargeWorker, shell) as mp:
         for c in mp.processed(graphs, 'shell %d' % shell):
           for key, values in c.items(): charges[shell][key] += values]
    [for shell in range(self.__min_shell, self.__max_shell + 1):
       for key, values in charges[shell].items():
         charges[shell][key] = sorted(values)]
    The read [charges[shell]] of the second loop stores an empty dict for a
    shell that has none. *)
Definition generate_charges
    (completion : Z → list (Z * Graph charge) → list (Z * Graph charge))
    (self : Repository charge) (graphs : list (Z * Graph charge))
    : result store :=
  charges ← for_each (build_shells self) (λ shell charges,
    for_generated
      (processed (completion shell)
         (λ mg, ChargeWorker_process shell mg.2) graphs)
      (λ c charges, Ok (merge_charges shell c charges)) charges) ∅;
  Ok (foldl (λ charges shell,
               <[shell := py_sorted ltb id <$> default ∅ (charges !! shell)]>
                 charges)
            charges (build_shells self)).

(** [__make_canons(graphs)], with [_CanonicalizationWorker.process];
    [canonize] is [Nauty.canonize] on a whole molecule.
    [for molid, canon in mp.processed(graphs): canons[molid] = canon] *)
Definition make_canons (canonize : Graph charge → string)
    (completion : list (Z * Graph charge) → list (Z * Graph charge))
    (graphs : list (Z * Graph charge)) : result (gmap Z string) :=
  for_generated
    (processed completion (λ mg, Ok (mg.1, canonize mg.2)) graphs)
    (λ mc canons, Ok (<[mc.1 := mc.2]> canons)) ∅.

(** [Repository.create_from(data_location, data_type, min_shell, max_shell)];
    [molids] is the list of molecule ids that the file names of
    [os.listdir(data_location)] give, in that order.
    [repo = Repository(min_shell, max_shell)] sets the lower bound to
    [max(min_shell, 0)]; the two stores and the two indices are assigned
    to [repo] as they are computed. *)
Definition create_from (canonize : Graph charge → string) (sched : schedule charge)
    (molids : list Z) (min_shell max_shell : Z) : result (Repository charge) :=
  let repo : Repository charge := Repository_init min_shell max_shell in
  graphs ← read_graphs (read_order sched) molids;
  c_iacm ← generate_charges (charge_order sched true) repo graphs;
  canons ← make_canons canonize (canon_order sched true) graphs;
  i_iacm ← make_isomorphics molids canons;
  graphs ← result_map (λ mg, graph ← to_elements mg.2; Ok (mg.1, graph)) graphs;
  c_elem ← generate_charges (charge_order sched false) repo graphs;
  canons ← make_canons canonize (canon_order sched false) graphs;
  i_elem ← make_isomorphics molids canons;
  Ok {| min_shell := Z.max min_shell 0; max_shell := max_shell;
        charges_iacm := c_iacm; charges_elem := c_elem;
        iso_iacm := Some i_iacm; iso_elem := Some i_elem |}.

(** The charges that a graph contributes to the bucket of a hash for one
    shell, in the order of its atoms. *)
Definition fragments_at (graph : Graph charge) (shell : Z) (key : string)
    : list charge :=
  omap (λ kp, if decide (kp.1 = key) then Some kp.2 else None)
    (_iter_atomic_fragments graph shell).1.

(** What the graphs contribute together. *)
Definition build_contributions (graphs : list (Z * Graph charge)) (shell : Z)
    (key : string) : list charge :=
  mg ← graphs; fragments_at mg.2 shell key.

(** The graphs of the files of [molids] that can be opened, with their
    ids, and the same graphs with plain elements as atom types. *)
Definition file_graphs (molids : list Z) : list (Z * Graph charge) :=
  omap (λ molid, (molid,.) <$> convert_from_file molid) molids.

Definition elem_graphs (molids : list Z) : list (Z * Graph charge) :=
  omap (λ molid,
          graph ← convert_from_file molid;
          match to_elements graph with
          | Ok graph' => Some (molid, graph')
          | Raise _ => None
          end) molids.

(** * Properties *)

Hypothesis Hord : strict_total_order ltb.

(** ** The order on charges and binary search *)

Lemma leb_of_refl x : leb_of x x.
Proof. apply Hord. Qed.

Lemma leb_of_cases x y : ltb x y = true ∨ x = y ∨ ltb y x = true.
Proof.
  destruct (ltb x y) eqn:E1; [by left|].
  destruct (ltb y x) eqn:E2; [by right; right|].
  right; left. by apply Hord.
Qed.

Lemma ltb_asym x y : ltb x y = true → ltb y x = false.
Proof.
  intros H. destruct (ltb y x) eqn:E; [|done].
  pose proof (ltb_trans _ Hord _ _ _ H E) as Hxx.
  by rewrite (ltb_irrefl _ Hord) in Hxx.
Qed.

Lemma leb_of_trans x y z : leb_of x y → leb_of y z → leb_of x z.
Proof.
  unfold leb_of. intros Hyx Hzy.
  destruct (ltb z x) eqn:E; [|done].
  destruct (leb_of_cases x y) as [H|[->|H]]; [| congruence | congruence].
  pose proof (ltb_trans _ Hord _ _ _ E H). congruence.
Qed.

Lemma leb_lt_trans x y z : leb_of x y → ltb y z = true → ltb x z = true.
Proof.
  unfold leb_of. intros Hyx Hyz.
  destruct (leb_of_cases x y) as [H|[->|H]]; [|done|congruence].
  by eapply ltb_trans.
Qed.

Lemma lt_leb_false x y z : leb_of x y → ltb x z = false → ltb y z = false.
Proof.
  intros Hxy Hxz. destruct (ltb y z) eqn:E; [|done].
  by rewrite (leb_lt_trans _ _ _ Hxy E) in Hxz.
Qed.

Lemma sorted_lookup a i j y z :
  sorted a → (i ≤ j)%nat → a !! i = Some y → a !! j = Some z → leb_of y z.
Proof.
  intros Hs. revert i j. induction Hs as [|w a Hs IH Hall]; intros i j Hij Hi Hj.
  - done.
  - destruct i as [|i], j as [|j]; simpl in *; simplify_eq.
    + apply leb_of_refl.
    + rewrite Forall_forall in Hall. apply Hall.
      by eapply list_elem_of_lookup_2.
    + lia.
    + eapply IH; [|done..]. lia.
Qed.

Lemma bisect_loop_unfold fuel a x lo hi :
  bisect_loop (S fuel) a x lo hi =
    if decide (lo < hi)%nat then
      match a !! ((lo + hi) `div` 2)%nat with
      | Some y =>
          if ltb y x
          then bisect_loop fuel a x ((lo + hi) `div` 2 + 1)%nat hi
          else bisect_loop fuel a x lo ((lo + hi) `div` 2)%nat
      | None => lo
      end
    else lo.
Proof. reflexivity. Qed.

(** [hi - lo] iterations are enough, whatever the list holds: with more
    fuel the loop returns the same index. *)
Lemma bisect_loop_fuel fuel1 fuel2 a x lo hi :
  (hi - lo ≤ fuel1)%nat → (hi - lo ≤ fuel2)%nat → (hi ≤ length a)%nat →
  bisect_loop fuel1 a x lo hi = bisect_loop fuel2 a x lo hi.
Proof.
  revert fuel2 lo hi.
  induction fuel1 as [|fuel1 IH]; intros fuel2 lo hi H1 H2 Hlen.
  - destruct fuel2 as [|fuel2]; [done|].
    rewrite bisect_loop_unfold. simpl. rewrite decide_False by lia. done.
  - destruct fuel2 as [|fuel2].
    + rewrite bisect_loop_unfold. simpl. rewrite decide_False by lia. done.
    + rewrite !bisect_loop_unfold. case_decide as Hlt; [|done].
      pose proof (Nat.div_mod_eq (lo + hi) 2) as Hdm.
      pose proof (Nat.mod_upper_bound (lo + hi) 2 ltac:(lia)) as Hmod.
      set (mid := ((lo + hi) `div` 2)%nat) in *.
      destruct (a !! mid) as [y|]; [|done].
      destruct (ltb y x); apply IH; lia.
Qed.

Lemma bisect_loop_spec fuel a x lo hi :
  sorted a →
  (hi - lo ≤ fuel)%nat → (lo ≤ hi)%nat → (hi ≤ length a)%nat →
  (∀ i y, (i < lo)%nat → a !! i = Some y → ltb y x = true) →
  (∀ i y, (hi ≤ i)%nat → a !! i = Some y → ltb y x = false) →
  is_bisect_point a x (bisect_loop fuel a x lo hi).
Proof.
  intros Hs. revert lo hi.
  induction fuel as [|fuel IH]; intros lo hi Hfuel Hle Hlen Hlo Hhi.
  - assert (lo = hi) as -> by lia. repeat split; [simpl; lia|done..].
  - rewrite bisect_loop_unfold. case_decide as Hlt; last first.
    { assert (lo = hi) as -> by lia. repeat split; [lia|done..]. }
    pose proof (Nat.div_mod_eq (lo + hi) 2) as Hdm.
    pose proof (Nat.mod_upper_bound (lo + hi) 2 ltac:(lia)) as Hmod.
    set (mid := ((lo + hi) `div` 2)%nat) in *.
    assert (lo ≤ mid < hi)%nat as [Hm1 Hm2] by lia.
    destruct (a !! mid) as [y|] eqn:Hy; last first.
    { apply lookup_ge_None in Hy. lia. }
    destruct (ltb y x) eqn:Hyx.
    + apply (IH (mid + 1)%nat hi); [lia..| |done].
      intros i z Hi Hz.
      eapply leb_lt_trans; [|exact Hyx].
      eapply (sorted_lookup a i mid); [done|lia|done..].
    + apply (IH lo mid); [lia..|done|].
      intros i z Hi Hz.
      eapply lt_leb_false; [|exact Hyx].
      eapply (sorted_lookup a mid i); [done|lia|done..].
Qed.

Lemma bisect_left_spec a x : sorted a → is_bisect_point a x (bisect_left a x).
Proof.
  intros Hs. apply bisect_loop_spec; [done|lia..| |].
  - intros; lia.
  - intros i y Hi Hy. apply lookup_lt_Some in Hy. lia.
Qed.

Lemma is_bisect_point_unique a x p q :
  is_bisect_point a x p → is_bisect_point a x q → p = q.
Proof.
  intros (Hp & Hp1 & Hp2) (Hq & Hq1 & Hq2).
  destruct (decide (p = q)) as [|Hne]; [done|exfalso].
  destruct (decide (p < q)%nat).
  - destruct (lookup_lt_is_Some_2 a p) as [y Hy]; [lia|].
    pose proof (Hq1 p y ltac:(lia) Hy). pose proof (Hp2 p y ltac:(lia) Hy).
    congruence.
  - destruct (lookup_lt_is_Some_2 a q) as [y Hy]; [lia|].
    pose proof (Hp1 q y ltac:(lia) Hy). pose proof (Hq2 q y ltac:(lia) Hy).
    congruence.
Qed.

Lemma insort_left_Permutation a x : insort_left a x ≡ₚ x :: a.
Proof.
  unfold insort_left, list_insert_at.
  rewrite <-Permutation_middle. by rewrite take_drop.
Qed.

Lemma elem_of_take_lookup (a : list charge) p y :
  y ∈ take p a → ∃ i, (i < p)%nat ∧ a !! i = Some y.
Proof.
  intros [i Hi]%list_elem_of_lookup_1.
  pose proof (lookup_lt_Some _ _ _ Hi) as Hlt. rewrite length_take in Hlt.
  exists i. split; [lia|]. by rewrite lookup_take_lt in Hi by lia.
Qed.

Lemma elem_of_drop_lookup (a : list charge) p y :
  y ∈ drop p a → ∃ i, (p ≤ i)%nat ∧ a !! i = Some y.
Proof.
  intros [i Hi]%list_elem_of_lookup_1. rewrite lookup_drop in Hi.
  exists (p + i)%nat. split; [lia|done].
Qed.

Lemma sorted_take_drop a p q :
  sorted a → (p ≤ q)%nat → sorted (take p a ++ drop q a).
Proof.
  intros Hs Hpq. pose proof Hs as Hs'.
  rewrite <-(take_drop p a) in Hs'. apply StronglySorted_app in Hs' as (_ & Ht & _).
  pose proof Hs as Hs'.
  rewrite <-(take_drop q a) in Hs'. apply StronglySorted_app in Hs' as (_ & _ & Hd).
  apply StronglySorted_app_2; [|done..].
  intros y z (i & Hi & Hy)%elem_of_take_lookup (j & Hj & Hz)%elem_of_drop_lookup.
  eapply (sorted_lookup a i j); [done|lia|done..].
Qed.

Lemma insort_left_sorted a x : sorted a → sorted (insort_left a x).
Proof.
  intros Hs. destruct (bisect_left_spec a x Hs) as (Hp & Hp1 & Hp2).
  unfold insort_left, list_insert_at. set (p := bisect_left a x) in *.
  pose proof (sorted_take_drop a p p Hs ltac:(lia)) as Htd.
  apply StronglySorted_app in Htd as (Hcross & Ht & Hd).
  apply StronglySorted_app_2; [|done|].
  - intros y z Hy Hz. apply elem_of_cons in Hz as [->|Hz]; [|by apply Hcross].
    apply elem_of_take_lookup in Hy as (i & Hi & Hy).
    apply ltb_asym. by eapply Hp1.
  - constructor; [done|]. apply Forall_forall. intros z Hz.
    apply elem_of_drop_lookup in Hz as (i & Hi & Hz).
    unfold leb_of. by eapply Hp2.
Qed.

(** On a sorted list that holds [x], [bisect_left] finds an occurrence of
    [x], so [a.pop(bisect_left(a, x))] removes exactly one [x]. *)
Lemma bisect_left_lookup a x :
  sorted a → x ∈ a → a !! bisect_left a x = Some x.
Proof.
  intros Hs [j Hj]%list_elem_of_lookup_1.
  destruct (bisect_left_spec a x Hs) as (Hp & Hp1 & Hp2).
  set (p := bisect_left a x) in *.
  assert (p ≤ j)%nat as Hpj.
  { destruct (decide (p ≤ j)%nat); [done|].
    pose proof (Hp1 j x ltac:(lia) Hj) as Hxx.
    by rewrite (ltb_irrefl _ Hord) in Hxx. }
  pose proof (lookup_lt_Some _ _ _ Hj) as Hjlen.
  destruct (lookup_lt_is_Some_2 a p) as [y Hy]; [lia|].
  rewrite Hy. f_equal. apply (ltb_total _ Hord).
  - apply (Hp2 p y); [lia|done].
  - apply (sorted_lookup a p j y x); done.
Qed.

Lemma pop_bisect_left a x :
  sorted a → x ∈ a →
  ∃ a', list_pop (bisect_left a x) a = Ok a' ∧ a ≡ₚ x :: a' ∧ sorted a'.
Proof.
  intros Hs Hx. pose proof (bisect_left_lookup a x Hs Hx) as Hp.
  exists (delete (bisect_left a x) a). split_and!.
  - unfold list_pop. rewrite decide_True; [done|]. by eapply lookup_lt_Some.
  - by apply delete_Permutation.
  - rewrite delete_take_drop. apply sorted_take_drop; [done|lia].
Qed.

Lemma sorted_Permutation_eq a b : sorted a → sorted b → a ≡ₚ b → a = b.
Proof.
  apply StronglySorted_unique_strong. intros x y _ _ H1 H2. by apply Hord.
Qed.

(** ** The stores under [a] and [s] *)

Lemma bucket_of_Some repo shell key b :
  bucket_lookup repo shell key = Some b → bucket_of repo shell key = b.
Proof. unfold bucket_of. by intros ->. Qed.

Lemma bucket_of_None repo shell key :
  bucket_lookup repo shell key = None → bucket_of repo shell key = [].
Proof. unfold bucket_of. by intros ->. Qed.

Lemma bucket_lookup_shell repo shell key d :
  repo !! shell = Some d → bucket_lookup repo shell key = d !! key.
Proof. unfold bucket_lookup. by intros ->. Qed.

Lemma bucket_lookup_Some repo shell key b :
  bucket_lookup repo shell key = Some b ↔
  ∃ d, repo !! shell = Some d ∧ d !! key = Some b.
Proof.
  unfold bucket_lookup. destruct (repo !! shell) as [d|]; simpl.
  - split; [by exists d|]. by intros (d' & [= <-] & Hb).
  - split; [done|]. by intros (d' & Hd & _).
Qed.

Lemma add_a_eq shell key pc repo :
  add_a shell key pc repo =
    <[shell := <[key := insort_left (bucket_of repo shell key) pc]>
                 (default ∅ (repo !! shell))]> repo.
Proof.
  unfold add_a, bucket_of, bucket_lookup.
  destruct (repo !! shell) as [d|] eqn:Hd; simpl.
  - rewrite !(lookup_total_correct _ _ _ Hd).
    destruct (d !! key) as [b|] eqn:Hb; simpl.
    + by rewrite (lookup_total_correct _ _ _ Hb).
    + by rewrite lookup_total_insert_eq, insert_insert_eq.
  - rewrite lookup_total_insert_eq, lookup_empty.
    by rewrite lookup_total_insert_eq, !insert_insert_eq.
Qed.

Lemma bucket_lookup_add_a_eq shell key pc repo :
  bucket_lookup (add_a shell key pc repo) shell key =
    Some (insort_left (bucket_of repo shell key) pc).
Proof.
  rewrite add_a_eq. unfold bucket_lookup at 1.
  by rewrite lookup_insert_eq; simpl; rewrite lookup_insert_eq.
Qed.

Lemma bucket_lookup_add_a_ne shell key pc repo shell' key' :
  (shell, key) ≠ (shell', key') →
  bucket_lookup (add_a shell key pc repo) shell' key' =
    bucket_lookup repo shell' key'.
Proof.
  intros Hne. rewrite add_a_eq. unfold bucket_lookup.
  destruct (decide (shell = shell')) as [<-|Hs].
  - rewrite lookup_insert_eq; simpl.
    rewrite lookup_insert_ne by congruence.
    by destruct (repo !! shell).
  - by rewrite lookup_insert_ne.
Qed.

Lemma bucket_of_add_a_eq shell key pc repo :
  bucket_of (add_a shell key pc repo) shell key =
    insort_left (bucket_of repo shell key) pc.
Proof. apply bucket_of_Some, bucket_lookup_add_a_eq. Qed.

Lemma bucket_of_add_a_ne shell key pc repo shell' key' :
  (shell, key) ≠ (shell', key') →
  bucket_of (add_a shell key pc repo) shell' key' = bucket_of repo shell' key'.
Proof.
  intros Hne. unfold bucket_of. by rewrite bucket_lookup_add_a_ne.
Qed.

Lemma wf_buckets_bucket_of repo shell key :
  wf_buckets repo → sorted (bucket_of repo shell key).
Proof.
  intros Hwf. unfold bucket_of.
  destruct (bucket_lookup repo shell key) as [b|] eqn:Hb; simpl; [|constructor].
  by eapply Hwf.
Qed.

Lemma insort_left_ne_nil (l : list charge) x : insort_left l x ≠ [].
Proof. unfold insort_left, list_insert_at. by destruct (take _ _). Qed.

Lemma wf_buckets_add_a shell key pc repo :
  wf_buckets repo → wf_buckets (add_a shell key pc repo).
Proof.
  intros Hwf shell' key' b.
  destruct (decide ((shell, key) = (shell', key'))) as [[= <- <-]|Hne].
  - rewrite bucket_lookup_add_a_eq. intros [= <-]. split.
    + apply insort_left_ne_nil.
    + by apply insort_left_sorted, wf_buckets_bucket_of.
  - rewrite bucket_lookup_add_a_ne by done. apply Hwf.
Qed.

Lemma no_empty_shell_add_a shell key pc repo :
  no_empty_shell repo → no_empty_shell (add_a shell key pc repo).
Proof.
  intros Hne shell' d'. rewrite add_a_eq.
  destruct (decide (shell = shell')) as [<-|Hs].
  - rewrite lookup_insert_eq. intros [= <-]. apply insert_non_empty.
  - rewrite lookup_insert_ne by done. apply Hne.
Qed.

(** Stores whose buckets are sorted and non-empty hold the same buckets as
    soon as their buckets hold the same multisets. *)
Lemma bucket_lookup_ext repo1 repo2 :
  wf_buckets repo1 → wf_buckets repo2 →
  (∀ shell key, bucket_of repo1 shell key ≡ₚ bucket_of repo2 shell key) →
  ∀ shell key, bucket_lookup repo1 shell key = bucket_lookup repo2 shell key.
Proof.
  intros Hwf1 Hwf2 Heq shell key. specialize (Heq shell key).
  unfold bucket_of in Heq.
  destruct (bucket_lookup repo1 shell key) as [b1|] eqn:H1,
           (bucket_lookup repo2 shell key) as [b2|] eqn:H2; simpl in Heq.
  - f_equal. destruct (Hwf1 _ _ _ H1), (Hwf2 _ _ _ H2).
    by apply sorted_Permutation_eq.
  - destruct (Hwf1 _ _ _ H1) as [Hne _]. by apply Permutation_nil_r in Heq.
  - destruct (Hwf2 _ _ _ H2) as [Hne _]. symmetry in Heq.
    by apply Permutation_nil_r in Heq.
  - done.
Qed.

(** Without empty shell entries, the buckets determine the store. *)
Lemma store_ext (repo1 repo2 : store) :
  no_empty_shell repo1 → no_empty_shell repo2 →
  (∀ shell key, bucket_lookup repo1 shell key = bucket_lookup repo2 shell key) →
  repo1 = repo2.
Proof.
  intros Hn1 Hn2 Heq. apply map_eq. intros shell.
  destruct (repo1 !! shell) as [d1|] eqn:H1, (repo2 !! shell) as [d2|] eqn:H2.
  - f_equal. apply map_eq. intros key. specialize (Heq shell key).
    by rewrite (bucket_lookup_shell _ _ _ _ H1), (bucket_lookup_shell _ _ _ _ H2) in Heq.
  - destruct (map_choose _ (Hn1 _ _ H1)) as (key & b & Hb).
    specialize (Heq shell key). unfold bucket_lookup in Heq.
    rewrite H1, H2 in Heq; simpl in Heq. congruence.
  - destruct (map_choose _ (Hn2 _ _ H2)) as (key & b & Hb).
    specialize (Heq shell key). unfold bucket_lookup in Heq.
    rewrite H1, H2 in Heq; simpl in Heq. congruence.
  - done.
Qed.

Lemma subtract_s_eq shell key pc repo d b b' :
  repo !! shell = Some d → d !! key = Some b →
  list_pop (bisect_left b pc) b = Ok b' →
  subtract_s shell key pc repo = Ok (prune shell key d b' repo).
Proof.
  intros Hd Hb Hpop. unfold subtract_s. rewrite Hd; simpl. rewrite Hb; simpl.
  rewrite Hpop; simpl. unfold prune. destruct b' as [|y b']; simpl.
  - destruct (decide (delete key d = ∅)) as [He|He].
    + by rewrite He, map_size_empty.
    + rewrite decide_False; [done|]. by rewrite map_size_empty_iff.
  - rewrite decide_False; [done|].
    rewrite map_size_empty_iff. apply insert_non_empty.
Qed.

Lemma bucket_lookup_prune_eq shell key d b' repo :
  bucket_lookup (prune shell key d b' repo) shell key =
    match b' with [] => None | _ :: _ => Some b' end.
Proof.
  unfold prune, bucket_lookup. destruct b' as [|y b'].
  - case_decide.
    + by rewrite lookup_delete_eq.
    + by rewrite lookup_insert_eq; simpl; rewrite lookup_delete_eq.
  - by rewrite lookup_insert_eq; simpl; rewrite lookup_insert_eq.
Qed.

Lemma bucket_of_prune_eq shell key d b' repo :
  bucket_of (prune shell key d b' repo) shell key = b'.
Proof.
  unfold bucket_of. rewrite bucket_lookup_prune_eq. by destruct b'.
Qed.

Lemma bucket_lookup_prune_ne shell key d b' repo shell' key' :
  repo !! shell = Some d → (shell, key) ≠ (shell', key') →
  bucket_lookup (prune shell key d b' repo) shell' key' =
    bucket_lookup repo shell' key'.
Proof.
  intros Hd Hne. unfold prune, bucket_lookup.
  destruct (decide (shell = shell')) as [<-|Hs].
  - assert (key ≠ key') as Hk by congruence. rewrite Hd; simpl.
    destruct b' as [|y b'].
    + case_decide as He.
      * rewrite lookup_delete_eq; simpl.
        assert (delete key d !! key' = None) as Hn by (by rewrite He).
        by rewrite lookup_delete_ne in Hn by done.
      * by rewrite lookup_insert_eq; simpl; rewrite lookup_delete_ne.
    + by rewrite lookup_insert_eq; simpl; rewrite lookup_insert_ne.
  - destruct b' as [|y b']; [case_decide|].
    + by rewrite lookup_delete_ne.
    + by rewrite lookup_insert_ne.
    + by rewrite lookup_insert_ne.
Qed.

Lemma wf_buckets_prune shell key d b' repo :
  wf_buckets repo → repo !! shell = Some d → sorted b' →
  wf_buckets (prune shell key d b' repo).
Proof.
  intros Hwf Hd Hs shell' key' b.
  destruct (decide ((shell, key) = (shell', key'))) as [[= <- <-]|Hne].
  - rewrite bucket_lookup_prune_eq. destruct b' as [|y b']; [done|].
    by intros [= <-].
  - rewrite bucket_lookup_prune_ne by done. apply Hwf.
Qed.

Lemma no_empty_shell_prune shell key d b' repo :
  no_empty_shell repo → no_empty_shell (prune shell key d b' repo).
Proof.
  intros Hn shell' d'. unfold prune. destruct b' as [|y b'].
  - case_decide as He.
    + destruct (decide (shell = shell')) as [<-|Hne].
      * by rewrite lookup_delete_eq.
      * rewrite lookup_delete_ne by done. apply Hn.
    + destruct (decide (shell = shell')) as [<-|Hne].
      * rewrite lookup_insert_eq. by intros [= <-].
      * rewrite lookup_insert_ne by done. apply Hn.
  - destruct (decide (shell = shell')) as [<-|Hne].
    + rewrite lookup_insert_eq. intros [= <-]. apply insert_non_empty.
    + rewrite lookup_insert_ne by done. apply Hn.
Qed.

Lemma bucket_of_elem repo shell key x :
  x ∈ bucket_of repo shell key →
  ∃ d b, repo !! shell = Some d ∧ d !! key = Some b ∧ x ∈ b.
Proof.
  unfold bucket_of. intros Hx.
  destruct (bucket_lookup repo shell key) as [b|] eqn:Hb; simpl in Hx;
    [|by apply elem_of_nil in Hx].
  apply bucket_lookup_Some in Hb as (d & Hd & Hb). by exists d, b.
Qed.

(** Removing a charge that the bucket holds succeeds, removes one
    occurrence of it, keeps the invariants and touches no other bucket. *)
Lemma subtract_s_elem shell key pc repo :
  wf_buckets repo → pc ∈ bucket_of repo shell key →
  ∃ repo', subtract_s shell key pc repo = Ok repo' ∧
    wf_buckets repo' ∧
    (no_empty_shell repo → no_empty_shell repo') ∧
    bucket_of repo shell key ≡ₚ pc :: bucket_of repo' shell key ∧
    ∀ shell' key', (shell, key) ≠ (shell', key') →
      bucket_lookup repo' shell' key' = bucket_lookup repo shell' key'.
Proof.
  intros Hwf Hx. pose proof (wf_buckets_bucket_of repo shell key Hwf) as Hsorted.
  destruct (bucket_of_elem _ _ _ _ Hx) as (d & b & Hd & Hb & Hxb).
  assert (bucket_of repo shell key = b) as Hbo.
  { apply bucket_of_Some, bucket_lookup_Some. eauto. }
  rewrite Hbo in *.
  destruct (pop_bisect_left b pc Hsorted Hxb) as (b' & Hpop & Hperm & Hs').
  exists (prune shell key d b' repo). split_and!.
  - by eapply subtract_s_eq.
  - by apply wf_buckets_prune.
  - apply no_empty_shell_prune.
  - by rewrite bucket_of_prune_eq.
  - intros shell' key' Hne. by apply bucket_lookup_prune_ne.
Qed.

(** ** Folding the observations of a molecule into a store *)

Lemma charges_at_cons shell key o obs :
  charges_at shell key (o :: obs) =
    (if decide (o.1.1 = shell ∧ o.1.2 = key) then [o.2] else []) ++
    charges_at shell key obs.
Proof. unfold charges_at; simpl. by case_decide. Qed.

Lemma charges_at_app shell key obs1 obs2 :
  charges_at shell key (obs1 ++ obs2) =
    charges_at shell key obs1 ++ charges_at shell key obs2.
Proof. apply omap_app. Qed.

Lemma for_each_app {A S : Type} (l1 l2 : list A) (body : A → S → result S) st :
  for_each (l1 ++ l2) body st = st' ← for_each l1 body st; for_each l2 body st'.
Proof.
  revert st. induction l1 as [|x l1 IH]; intros st; simpl; [done|].
  destruct (body x st) as [st'|e]; simpl; [apply IH|done].
Qed.

Lemma add_all_spec obs repo :
  wf_buckets repo →
  wf_buckets (add_all obs repo) ∧
  (no_empty_shell repo → no_empty_shell (add_all obs repo)) ∧
  ∀ shell key,
    bucket_of (add_all obs repo) shell key ≡ₚ
      charges_at shell key obs ++ bucket_of repo shell key.
Proof.
  revert repo. induction obs as [|[[sh k] pc] obs IH]; intros repo Hwf.
  { by split_and!. }
  destruct (IH (add_a sh k pc repo)) as (Hwf' & Hne' & Hb');
    [by apply wf_buckets_add_a|].
  change (add_all ((sh, k, pc) :: obs) repo)
    with (add_all obs (add_a sh k pc repo)).
  split_and!; [done| |].
  - intros Hn. by apply Hne', no_empty_shell_add_a.
  - intros shell key. rewrite Hb', charges_at_cons; simpl.
    case_decide as Heq.
    + destruct Heq as [<- <-]. rewrite bucket_of_add_a_eq.
      rewrite insort_left_Permutation. simpl. by rewrite Permutation_middle.
    + rewrite bucket_of_add_a_ne; [done|]. intros [= <- <-]. by apply Heq.
Qed.

Lemma sub_all_spec obs repo (rest : Z → string → list charge) :
  wf_buckets repo →
  (∀ shell key,
     bucket_of repo shell key ≡ₚ charges_at shell key obs ++ rest shell key) →
  ∃ repo', sub_all obs repo = Ok repo' ∧
    wf_buckets repo' ∧
    (no_empty_shell repo → no_empty_shell repo') ∧
    ∀ shell key, bucket_of repo' shell key ≡ₚ rest shell key.
Proof.
  revert repo. induction obs as [|[[sh k] pc] obs IH]; intros repo Hwf Hb.
  { exists repo. by split_and!. }
  assert (pc ∈ bucket_of repo sh k) as Hin.
  { rewrite Hb, charges_at_cons; simpl. rewrite decide_True by done.
    simpl. by left. }
  destruct (subtract_s_elem sh k pc repo Hwf Hin)
    as (repo1 & Hs & Hwf1 & Hne1 & Hperm & Hother).
  destruct (IH repo1 Hwf1) as (repo' & Hs' & Hwf' & Hne' & Hb').
  { intros shell key. specialize (Hb shell key).
    rewrite charges_at_cons in Hb; simpl in Hb. case_decide as Heq.
    - destruct Heq as [<- <-]. rewrite Hperm in Hb. simpl in Hb.
      by apply Permutation_cons_inv in Hb.
    - unfold bucket_of in *. rewrite Hother; [done|].
      intros [= <- <-]. by apply Heq. }
  exists repo'. split_and!; [|done| |done].
  - unfold sub_all in *; simpl. by rewrite Hs.
  - eauto.
Qed.

(** ** [_iter_atomic_fragments] and the loops of [__iterate] *)

Lemma iter_atomic_fragments_from_exn graph shell atoms :
  (iter_atomic_fragments_from graph shell atoms).2 =
    KeyError_partial_charge <$> first_uncharged atoms.
Proof.
  induction atoms as [|[atom data] atoms IH]; simpl; [done|].
  by destruct (partial_charge data).
Qed.

Lemma first_uncharged_None atoms :
  first_uncharged atoms = None ↔
  Forall (λ nd : Z * node_data charge, is_Some (partial_charge nd.2)) atoms.
Proof.
  induction atoms as [|[atom data] atoms IH]; simpl.
  - split; [constructor|done].
  - rewrite Forall_cons; simpl. destruct (partial_charge data) as [pc|].
    + rewrite IH. split; [by split; [eexists|]|by intros [_ ?]].
    + split; [done|]. by intros [[? [=]] _].
Qed.

Lemma iter_atomic_fragments_all_charged graph shell :
  all_charged graph → (_iter_atomic_fragments graph shell).2 = None.
Proof.
  intros Hc. unfold _iter_atomic_fragments.
  rewrite iter_atomic_fragments_from_exn.
  by apply first_uncharged_None in Hc as ->.
Qed.

Lemma iter_atomic_fragments_from_length graph shell atoms :
  first_uncharged atoms = None →
  length (iter_atomic_fragments_from graph shell atoms).1 = length atoms.
Proof.
  induction atoms as [|[atom data] atoms IH]; simpl; [done|].
  destruct (partial_charge data); simpl; [|done]. intros H. by rewrite IH.
Qed.

Lemma for_each_fmap {A B S : Type} (f : A → B) (l : list A)
    (body : B → S → result S) st :
  for_each (f <$> l) body st = for_each l (λ x, body (f x)) st.
Proof.
  revert st. induction l as [|x l IH]; intros st; simpl; [done|].
  destruct (body (f x) st); simpl; [apply IH|done].
Qed.

Lemma for_each_ext {A S : Type} (l : list A) (body1 body2 : A → S → result S) st :
  (∀ x st, body1 x st = body2 x st) →
  for_each l body1 st = for_each l body2 st.
Proof.
  intros Hb. revert st. induction l as [|x l IH]; intros st; simpl; [done|].
  rewrite Hb. destruct (body2 x st); simpl; [apply IH|done].
Qed.

Lemma for_generated_no_exn {A S : Type} (gen : generator A)
    (body : A → S → result S) st :
  gen.2 = None → for_generated gen body st = for_each gen.1 body st.
Proof.
  intros He. unfold for_generated. rewrite He.
  by destruct (for_each gen.1 body st).
Qed.

Lemma shell_loop_all_charged {S : Type} graph (shs : list Z)
    (callable : Z → string → charge → S → result S) st :
  all_charged graph →
  shell_loop graph shs callable st =
    for_each (shell ← shs;
              (λ kp, (shell, kp.1, kp.2)) <$> (_iter_atomic_fragments graph shell).1)
             (λ o st, callable o.1.1 o.1.2 o.2 st) st.
Proof.
  intros Hc. unfold shell_loop. revert st.
  induction shs as [|shell shs IH]; intros st; [done|].
  cbn [for_each mbind list_bind]. rewrite for_each_app, for_each_fmap.
  rewrite for_generated_no_exn
    by (by apply iter_atomic_fragments_all_charged).
  rewrite (for_each_ext (_iter_atomic_fragments graph shell).1 _
             (λ x st0, callable shell x.1 x.2 st0))
    by (by intros [key pc] st').
  simpl.
  destruct (for_each _ _ st) as [st'|e]; simpl; [apply IH|done].
Qed.

(** A graph with an atom without charge makes the loop over the shells
    raise, as soon as there is a shell to process. *)
Lemma shell_loop_uncharged {S : Type} graph shell (shs : list Z)
    (callable : Z → string → charge → S → result S) st atom :
  first_uncharged (nodes graph) = Some atom →
  ∃ e, shell_loop graph (shell :: shs) callable st = Raise e ∧
       ((∀ sh k pc st, ∃ st', callable sh k pc st = Ok st') →
        e = KeyError_partial_charge atom).
Proof.
  intros Hu. unfold shell_loop, for_generated, _iter_atomic_fragments.
  cbn [for_each]. rewrite iter_atomic_fragments_from_exn, Hu; simpl.
  destruct (for_each _ _ st) as [st'|e] eqn:Hfe; simpl.
  - by exists (KeyError_partial_charge atom).
  - exists e. split; [done|]. intros Htot. exfalso.
    revert Hfe. generalize (iter_atomic_fragments_from graph shell (nodes graph)).1.
    intros l. revert st. induction l as [|[key pc] l IH]; intros st; simpl; [done|].
    destruct (Htot shell key pc st) as [st1 ->]. simpl. apply IH.
Qed.

Lemma for_each_raise {A S : Type} (P : exn → Prop) (l : list A)
    (body : A → S → result S) st e :
  (∀ x st e, body x st = Raise e → P e) →
  for_each l body st = Raise e → P e.
Proof.
  intros Hb. revert st. induction l as [|x l IH]; intros st; simpl; [done|].
  destruct (body x st) as [st'|e'] eqn:Hx; simpl.
  - apply IH.
  - intros [= <-]. by eapply Hb.
Qed.

(** The exception is the KeyError of the atom, unless the callable has
    raised for an atom before it. *)
Lemma shell_loop_uncharged_exn {S : Type} (P : exn → Prop) graph shell
    (shs : list Z) (callable : Z → string → charge → S → result S) st atom :
  first_uncharged (nodes graph) = Some atom →
  (∀ sh k pc st e, callable sh k pc st = Raise e → P e) →
  ∃ e, shell_loop graph (shell :: shs) callable st = Raise e ∧
       (e = KeyError_partial_charge atom ∨ P e).
Proof.
  intros Hu Hraise. unfold shell_loop, for_generated, _iter_atomic_fragments.
  cbn [for_each]. rewrite iter_atomic_fragments_from_exn, Hu; simpl.
  destruct (for_each _ _ st) as [st'|e] eqn:Hfe; simpl.
  - exists (KeyError_partial_charge atom). by split; [|left].
  - exists e. split; [done|]. right.
    eapply for_each_raise; [|exact Hfe].
    intros [key pc] st0 e0. apply Hraise.
Qed.

Lemma to_elements_nodes_first_uncharged ns ns' :
  to_elements_nodes ns = Ok ns' → first_uncharged ns' = first_uncharged ns.
Proof.
  revert ns'. induction ns as [|[v data] ns IH]; intros ns'; simpl.
  - by intros [= <-].
  - destruct (IACM_MAP !! atom_type data) as [t|]; simpl; [|done].
    destruct (to_elements_nodes ns) as [rest|]; simpl; [|done].
    intros [= <-]; simpl. destruct (partial_charge data); [by apply IH|done].
Qed.

Lemma to_elements_first_uncharged graph graph' :
  to_elements graph = Ok graph' →
  first_uncharged (nodes graph') = first_uncharged (nodes graph).
Proof.
  unfold to_elements.
  destruct (to_elements_nodes (nodes graph)) as [ns|] eqn:Hns; simpl; [|done].
  intros [= <-]; simpl. by apply to_elements_nodes_first_uncharged.
Qed.

Lemma to_elements_all_charged graph graph' :
  to_elements graph = Ok graph' → all_charged graph → all_charged graph'.
Proof.
  intros Ht Hc. apply first_uncharged_None.
  rewrite (to_elements_first_uncharged _ _ Ht). by apply first_uncharged_None.
Qed.

Lemma has_indices_set_charges_iacm (self : Repository charge) c :
  has_indices (set_charges_iacm c self) ↔ has_indices self.
Proof. done. Qed.

Lemma has_indices_set_charges_elem (self : Repository charge) c :
  has_indices (set_charges_elem c self) ↔ has_indices self.
Proof. done. Qed.

Lemma not_has_indices (self : Repository charge) :
  ¬ has_indices self ↔ iso_iacm self = None ∨ iso_elem self = None.
Proof.
  unfold has_indices. destruct (iso_iacm self), (iso_elem self); split.
  - intros Hn. exfalso. apply Hn. by split.
  - by intros [?|?].
  - by right.
  - by intros _ [_ [? ?]].
  - by left.
  - by intros _ [[? ?] _].
  - by left.
  - by intros _ [[? ?] _].
Qed.

(** On a repository to which an index was never assigned, [__iterate]
    raises when it looks the molecule up in that index, before it opens a
    file or calls a callable. *)
Lemma iterate_unassigned self molid
    (callable_iacm callable_elem :
       Z → string → charge → Repository charge → result (Repository charge)) :
  ¬ has_indices self →
  iterate self molid callable_iacm callable_elem = Raise AttributeError.
Proof.
  intros Hn. apply not_has_indices in Hn. unfold iterate.
  destruct (iso_iacm self) as [i_iacm|]; [|done].
  destruct Hn as [Hn|Hn]; [done|]. by rewrite Hn.
Qed.

Lemma iterate_eq self molid
    (callable_iacm callable_elem :
       Z → string → charge → Repository charge → result (Repository charge)) :
  has_indices self →
  iterate self molid callable_iacm callable_elem =
    self1 ← (graph ← of_option (convert_from_file molid) OSError;
             shell_loop graph (shells self) callable_iacm self);
    graph ← of_option (convert_from_file molid) OSError;
    graph ← to_elements graph;
    shell_loop graph (shells self1) callable_elem self1.
Proof.
  intros [[i_iacm Hi] [i_elem He]].
  unfold iterate. rewrite Hi, He. cbn [of_option mbind result_bind].
  rewrite elements_singleton. cbn [for_each].
  destruct (convert_from_file molid) as [graph|]; simpl; [|done].
  fold (shell_loop graph (shells self) callable_iacm self).
  destruct (shell_loop graph (shells self) callable_iacm self) as [self1|e];
    simpl; [|done].
  destruct (to_elements graph) as [graph'|e]; simpl; [|done].
  fold (shell_loop graph' (shells self1) callable_elem self1).
  by destruct (shell_loop graph' (shells self1) callable_elem self1).
Qed.

(** ** [add] and [subtract] on a molecule whose file can be processed *)

Lemma for_each_add_iacm obs self :
  for_each obs (λ o self, add_iacm o.1.1 o.1.2 o.2 self) self =
    Ok (set_charges_iacm (add_all obs (charges_iacm self)) self).
Proof.
  revert self. induction obs as [|o obs IH]; intros self.
  - by destruct self.
  - cbn [for_each].
    change (add_iacm o.1.1 o.1.2 o.2 self)
      with (Ok (set_charges_iacm (add_a o.1.1 o.1.2 o.2 (charges_iacm self)) self)).
    simpl. by rewrite IH.
Qed.

Lemma for_each_add_elem obs self :
  for_each obs (λ o self, add_elem o.1.1 o.1.2 o.2 self) self =
    Ok (set_charges_elem (add_all obs (charges_elem self)) self).
Proof.
  revert self. induction obs as [|o obs IH]; intros self.
  - by destruct self.
  - cbn [for_each].
    change (add_elem o.1.1 o.1.2 o.2 self)
      with (Ok (set_charges_elem (add_a o.1.1 o.1.2 o.2 (charges_elem self)) self)).
    simpl. by rewrite IH.
Qed.

Lemma for_each_subtract_iacm obs self :
  for_each obs (λ o self, subtract_iacm o.1.1 o.1.2 o.2 self) self =
    c ← sub_all obs (charges_iacm self); Ok (set_charges_iacm c self).
Proof.
  revert self. induction obs as [|o obs IH]; intros self.
  - by destruct self.
  - unfold sub_all. cbn [for_each].
    change (subtract_iacm o.1.1 o.1.2 o.2 self)
      with (c ← subtract_s o.1.1 o.1.2 o.2 (charges_iacm self);
            Ok (set_charges_iacm c self)).
    destruct (subtract_s o.1.1 o.1.2 o.2 (charges_iacm self)) as [c|e]; simpl;
      [|done].
    by rewrite IH.
Qed.

Lemma for_each_subtract_elem obs self :
  for_each obs (λ o self, subtract_elem o.1.1 o.1.2 o.2 self) self =
    c ← sub_all obs (charges_elem self); Ok (set_charges_elem c self).
Proof.
  revert self. induction obs as [|o obs IH]; intros self.
  - by destruct self.
  - unfold sub_all. cbn [for_each].
    change (subtract_elem o.1.1 o.1.2 o.2 self)
      with (c ← subtract_s o.1.1 o.1.2 o.2 (charges_elem self);
            Ok (set_charges_elem c self)).
    destruct (subtract_s o.1.1 o.1.2 o.2 (charges_elem self)) as [c|e]; simpl;
      [|done].
    by rewrite IH.
Qed.

Lemma add_processable self molid graph graph' :
  has_indices self →
  convert_from_file molid = Some graph → to_elements graph = Ok graph' →
  all_charged graph →
  add self molid =
    Ok (set_charges_elem
          (add_all (observations graph' (max_shell self)) (charges_elem self))
          (set_charges_iacm
             (add_all (observations graph (max_shell self)) (charges_iacm self))
             self)).
Proof.
  intros Hidx Hf Ht Hc. unfold add. rewrite iterate_eq, Hf by done. simpl.
  rewrite shell_loop_all_charged by done.
  fold (observations graph (max_shell self)). rewrite for_each_add_iacm. simpl.
  rewrite Ht. simpl.
  rewrite shell_loop_all_charged by (by eapply to_elements_all_charged).
  unfold shells. simpl. fold (observations graph' (max_shell self)).
  by rewrite for_each_add_elem.
Qed.

Lemma subtract_processable self molid graph graph' :
  has_indices self →
  convert_from_file molid = Some graph → to_elements graph = Ok graph' →
  all_charged graph →
  subtract self molid =
    c_iacm ← sub_all (observations graph (max_shell self)) (charges_iacm self);
    c_elem ← sub_all (observations graph' (max_shell self)) (charges_elem self);
    Ok (set_charges_elem c_elem (set_charges_iacm c_iacm self)).
Proof.
  intros Hidx Hf Ht Hc. unfold subtract. rewrite iterate_eq, Hf by done. simpl.
  rewrite shell_loop_all_charged by done.
  fold (observations graph (max_shell self)). rewrite for_each_subtract_iacm.
  destruct (sub_all _ (charges_iacm self)) as [c_iacm|e]; simpl; [|done].
  rewrite Ht. simpl.
  rewrite shell_loop_all_charged by (by eapply to_elements_all_charged).
  unfold shells. simpl. fold (observations graph' (max_shell self)).
  by rewrite for_each_subtract_elem.
Qed.

Lemma shells_cons self :
  1 ≤ max_shell self → shells self = 1 :: seqZ 2 (max_shell self - 1).
Proof. intros H. unfold shells. by rewrite seqZ_cons by lia. Qed.

Lemma shells_nil self : max_shell self ≤ 0 → shells self = [].
Proof. intros H. unfold shells. by apply seqZ_nil. Qed.

Lemma iterate_no_shells self molid graph
    (callable_iacm callable_elem :
       Z → string → charge → Repository charge → result (Repository charge)) :
  has_indices self →
  max_shell self ≤ 0 → convert_from_file molid = Some graph →
  iterate self molid callable_iacm callable_elem =
    (to_elements graph ≫= λ _, Ok self).
Proof.
  intros Hidx Hmx Hf. rewrite iterate_eq, Hf by done. unfold shells.
  rewrite seqZ_nil by done.
  cbn [mbind result_bind of_option shell_loop for_each].
  rewrite seqZ_nil by done. by destruct (to_elements graph).
Qed.

(** When [add] returns, both indices were assigned, the file was read and
    its atom types were mapped, and either every atom has its charge or no
    shell was processed. *)
Lemma add_Ok_inv self molid self1 :
  add self molid = Ok self1 →
  has_indices self ∧
  ∃ graph graph', convert_from_file molid = Some graph ∧
    to_elements graph = Ok graph' ∧
    (all_charged graph ∨ max_shell self ≤ 0).
Proof.
  intros Hadd.
  assert (has_indices self) as Hidx.
  { destruct (decide (has_indices self)) as [|Hn]; [done|].
    unfold add in Hadd. by rewrite iterate_unassigned in Hadd. }
  split; [done|].
  destruct (convert_from_file molid) as [graph|] eqn:Hf.
  2: { unfold add in Hadd. by rewrite iterate_eq, Hf in Hadd. }
  exists graph.
  destruct (decide (max_shell self ≤ 0)) as [Hmx|Hmx].
  - unfold add in Hadd. rewrite (iterate_no_shells _ _ graph) in Hadd by done.
    destruct (to_elements graph) as [graph'|e]; [|done].
    exists graph'. by split_and!; [| |right].
  - destruct (first_uncharged (nodes graph)) as [atom|] eqn:Hu.
    { exfalso. unfold add in Hadd.
      rewrite iterate_eq, Hf, shells_cons in Hadd by (done || lia).
      destruct (shell_loop_uncharged graph 1 (seqZ 2 (max_shell self - 1))
                  add_iacm self atom Hu) as (e & He & _).
      simpl in Hadd. by rewrite He in Hadd. }
    apply first_uncharged_None in Hu.
    destruct (to_elements graph) as [graph'|e] eqn:Ht.
    { exists graph'. by split_and!; [| |left]. }
    exfalso. unfold add in Hadd. rewrite iterate_eq, Hf in Hadd by done.
    cbn [mbind result_bind of_option] in Hadd.
    rewrite shell_loop_all_charged, for_each_add_iacm in Hadd by done.
    cbn [mbind result_bind of_option] in Hadd. by rewrite Ht in Hadd.
Qed.

(** On a repository whose stored buckets are sorted and non-empty: [add] of
    a molecule whose file can be processed (every atom has its partial
    charge) succeeds when both isomorphism indices have been assigned, and
    raises AttributeError when one has not; whenever [add] has succeeded,
    [subtract] of the same molecule succeeds and gives back every bucket of
    both typed stores, the shell bounds and the isomorphism indices; when no
    shell entry of the repository is an empty dict, the result is the
    repository itself. *)
Theorem subtract_after_add_restores (self : Repository charge) (molid : Z) :
  wf_buckets (charges_iacm self) → wf_buckets (charges_elem self) →
  (has_indices self → processable molid → ∃ self1, add self molid = Ok self1) ∧
  (¬ has_indices self → add self molid = Raise AttributeError) ∧
  ∀ self1, add self molid = Ok self1 →
    ∃ self2, subtract self1 molid = Ok self2 ∧
      (∀ shell key, bucket_lookup (charges_iacm self2) shell key =
                    bucket_lookup (charges_iacm self) shell key) ∧
      (∀ shell key, bucket_lookup (charges_elem self2) shell key =
                    bucket_lookup (charges_elem self) shell key) ∧
      min_shell self2 = min_shell self ∧ max_shell self2 = max_shell self ∧
      iso_iacm self2 = iso_iacm self ∧ iso_elem self2 = iso_elem self ∧
      (no_empty_shell (charges_iacm self) →
       no_empty_shell (charges_elem self) → self2 = self).
Proof.
  intros Hwi Hwe. split.
  { intros Hidx (graph & graph' & Hf & Ht & Hc). eexists.
    by apply (add_processable _ _ graph graph'). }
  split.
  { intros Hn. by apply iterate_unassigned. }
  intros self1 Hadd.
  destruct (add_Ok_inv _ _ _ Hadd)
    as (Hidx & graph & graph' & Hf & Ht & [Hc|Hmx]).
  - rewrite (add_processable _ _ graph graph') in Hadd by done.
    injection Hadd as <-.
    set (oi := observations graph (max_shell self)).
    set (oe := observations graph' (max_shell self)).
    destruct (add_all_spec oi _ Hwi) as (Hwi1 & Hni1 & Hbi1).
    destruct (add_all_spec oe _ Hwe) as (Hwe1 & Hne1 & Hbe1).
    destruct (sub_all_spec oi _ (bucket_of (charges_iacm self)) Hwi1 Hbi1)
      as (ci & Hsi & Hwi2 & Hni2 & Hbi2).
    destruct (sub_all_spec oe _ (bucket_of (charges_elem self)) Hwe1 Hbe1)
      as (ce & Hse & Hwe2 & Hne2 & Hbe2).
    pose proof (bucket_lookup_ext _ _ Hwi2 Hwi Hbi2) as Hli.
    pose proof (bucket_lookup_ext _ _ Hwe2 Hwe Hbe2) as Hle.
    exists (set_charges_elem ce (set_charges_iacm ci self)).
    split.
    { rewrite (subtract_processable _ _ graph graph') by done.
      cbn [max_shell charges_iacm charges_elem set_charges_elem set_charges_iacm].
      fold oi oe. rewrite Hsi. simpl. rewrite Hse. done. }
    split_and!; [done..|].
    intros Hn1 Hn2.
    assert (ci = charges_iacm self) as -> by (apply store_ext; auto).
    assert (ce = charges_elem self) as -> by (apply store_ext; auto).
    by destruct self.
  - unfold add in Hadd. rewrite (iterate_no_shells _ _ graph) in Hadd by done.
    rewrite Ht in Hadd. injection Hadd as <-.
    exists self. split_and!; try done.
    unfold subtract. rewrite (iterate_no_shells _ _ graph) by done.
    by rewrite Ht.
Qed.

(** ** Sequences of calls *)

Lemma remove_first_Permutation x l l' :
  remove_first x l = Some l' → l ≡ₚ x :: l'.
Proof.
  revert l'. induction l as [|y l IH]; intros l'; simpl; [done|].
  case_decide as Heq.
  - intros [= <-]. by subst.
  - destruct (remove_first x l) as [l''|]; simpl; [|done].
    intros [= <-]. rewrite (IH l'') by done. apply Permutation_swap.
Qed.

Lemma observations_iacm_eq mx molid graph :
  convert_from_file molid = Some graph →
  observations_iacm mx molid = observations graph mx.
Proof. unfold observations_iacm. by intros ->. Qed.

Lemma observations_elem_eq mx molid graph graph' :
  convert_from_file molid = Some graph → to_elements graph = Ok graph' →
  observations_elem mx molid = observations graph' mx.
Proof. unfold observations_elem. by intros -> ->. Qed.

Lemma run_invariant ops self cur0 cur :
  has_indices self →
  wf_buckets (charges_iacm self) → wf_buckets (charges_elem self) →
  (∀ shell key, bucket_of (charges_iacm self) shell key ≡ₚ
                contributions_iacm (max_shell self) cur0 shell key) →
  (∀ shell key, bucket_of (charges_elem self) shell key ≡ₚ
                contributions_elem (max_shell self) cur0 shell key) →
  contributing ops cur0 = Some cur →
  (∀ o, o ∈ ops → processable (op_molid o)) →
  ∃ self', run self ops = Ok self' ∧
    max_shell self' = max_shell self ∧
    wf_buckets (charges_iacm self') ∧ wf_buckets (charges_elem self') ∧
    (∀ shell key, bucket_of (charges_iacm self') shell key ≡ₚ
                  contributions_iacm (max_shell self) cur shell key) ∧
    (∀ shell key, bucket_of (charges_elem self') shell key ≡ₚ
                  contributions_elem (max_shell self) cur shell key).
Proof.
  revert self cur0. unfold run.
  induction ops as [|o ops IH]; intros self cur0 Hidx Hwi Hwe Hbi Hbe Hcur Hproc.
  { simpl in Hcur. injection Hcur as <-. exists self. by split_and!. }
  destruct (Hproc o ltac:(by left)) as (graph & graph' & Hf & Ht & Hc).
  assert (∀ o', o' ∈ ops → processable (op_molid o')) as Hproc'
    by (intros o' Ho'; apply Hproc; by right).
  set (mx := max_shell self) in *.
  destruct o as [molid|molid]; simpl in Hf, Hcur; cbn [for_each].
  - rewrite (add_processable _ _ graph graph') by done. fold mx. simpl.
    destruct (add_all_spec (observations graph mx) _ Hwi) as (Hwi1 & _ & Hbi1).
    destruct (add_all_spec (observations graph' mx) _ Hwe) as (Hwe1 & _ & Hbe1).
    edestruct (IH (set_charges_elem
                     (add_all (observations graph' mx) (charges_elem self))
                     (set_charges_iacm
                        (add_all (observations graph mx) (charges_iacm self))
                        self))
                  (molid :: cur0)) as (self' & Hrun & Hmx & Hrest);
      [exact Hidx|exact Hwi1|exact Hwe1| | |exact Hcur|exact Hproc'|].
    + intros shell key. cbn [max_shell set_charges_elem set_charges_iacm
                              charges_iacm charges_elem].
      fold mx. rewrite Hbi1, Hbi. unfold contributions_iacm.
      rewrite bind_cons. by rewrite (observations_iacm_eq _ _ graph).
    + intros shell key. cbn [max_shell set_charges_elem set_charges_iacm
                              charges_iacm charges_elem].
      fold mx. rewrite Hbe1, Hbe. unfold contributions_elem.
      rewrite bind_cons. by rewrite (observations_elem_eq _ _ graph graph').
    + exists self'. split; [exact Hrun|]. split; [exact Hmx|]. exact Hrest.
  - destruct (remove_first molid cur0) as [cur'|] eqn:Hrm; simpl in Hcur; [|done].
    apply remove_first_Permutation in Hrm.
    rewrite (subtract_processable _ _ graph graph') by done. fold mx.
    destruct (sub_all_spec (observations graph mx) (charges_iacm self)
                (contributions_iacm mx cur')) as (ci & Hsi & Hwi1 & _ & Hbi1);
      [done| |].
    { intros shell key. rewrite Hbi. unfold contributions_iacm.
      rewrite (bind_Permutation _ _ _ Hrm), bind_cons.
      by rewrite (observations_iacm_eq _ _ graph). }
    destruct (sub_all_spec (observations graph' mx) (charges_elem self)
                (contributions_elem mx cur')) as (ce & Hse & Hwe1 & _ & Hbe1);
      [done| |].
    { intros shell key. rewrite Hbe. unfold contributions_elem.
      rewrite (bind_Permutation _ _ _ Hrm), bind_cons.
      by rewrite (observations_elem_eq _ _ graph graph'). }
    rewrite Hsi. simpl. rewrite Hse. simpl.
    edestruct (IH (set_charges_elem ce (set_charges_iacm ci self)) cur')
      as (self' & Hrun & Hmx & Hrest);
      [exact Hidx|exact Hwi1|exact Hwe1|exact Hbi1|exact Hbe1|exact Hcur
      |exact Hproc'|].
    exists self'. split; [exact Hrun|]. split; [exact Hmx|]. exact Hrest.
Qed.

Lemma holds_exactly_intro (repo : store) contrib :
  wf_buckets repo →
  (∀ shell key, bucket_of repo shell key ≡ₚ contrib shell key) →
  holds_exactly repo contrib.
Proof.
  intros Hwf Hb shell key. specialize (Hb shell key). unfold bucket_of in Hb.
  destruct (bucket_lookup repo shell key) as [b|] eqn:Hl; simpl in Hb.
  - destruct (Hwf _ _ _ Hl). by split_and!.
  - by apply Permutation_nil.
Qed.

(** Starting from a repository without buckets to which both isomorphism
    indices have been assigned, after any sequence of [add] and [subtract]
    calls in which every [subtract] names a molecule that contributes at
    that point (and every molecule file can be processed), the calls all
    succeed and every stored bucket of both typed stores is non-empty,
    sorted, and holds exactly the charges that the contributing molecules
    give for its shell and hash. *)
Theorem buckets_after_run (self : Repository charge) (ops : list op)
    (cur : list Z) :
  has_indices self →
  no_buckets (charges_iacm self) → no_buckets (charges_elem self) →
  contributing ops [] = Some cur →
  (∀ o, o ∈ ops → processable (op_molid o)) →
  ∃ self', run self ops = Ok self' ∧
    holds_exactly (charges_iacm self')
      (contributions_iacm (max_shell self) cur) ∧
    holds_exactly (charges_elem self')
      (contributions_elem (max_shell self) cur).
Proof.
  intros Hidx Hni Hne Hcur Hproc.
  destruct (run_invariant ops self [] cur)
    as (self' & Hrun & _ & Hwi & Hwe & Hbi & Hbe); [done| | | | |done|done|].
  - intros shell key b. by rewrite Hni.
  - intros shell key b. by rewrite Hne.
  - intros shell key. by rewrite bucket_of_None.
  - intros shell key. by rewrite bucket_of_None.
  - exists self'. split; [done|]. split; by apply holds_exactly_intro.
Qed.

(** ** Removing the last observation of a bucket *)

(** C8. When [s] pops the only observation of a bucket, the bucket is
    deleted; the shell entry is deleted too when that bucket was its last
    one, and is otherwise left with its other buckets; every other shell
    entry and every other bucket of the shell stay as they were. *)
Theorem subtract_s_last_observation (repo : store) (shell : Z) (key : string)
    (d : gmap string (list charge)) (x pc : charge) :
  repo !! shell = Some d → d !! key = Some [x] → ltb x pc = false →
  ∃ repo', subtract_s shell key pc repo = Ok repo' ∧
    bucket_lookup repo' shell key = None ∧
    repo' !! shell =
      (if decide (delete key d = ∅) then None else Some (delete key d)) ∧
    (∀ shell', shell' ≠ shell → repo' !! shell' = repo !! shell') ∧
    (∀ key', key' ≠ key → bucket_lookup repo' shell key' = d !! key').
Proof.
  intros Hd Hb Hlt.
  assert (list_pop (bisect_left [x] pc) [x] = Ok []) as Hpop.
  { unfold bisect_left. simpl. by rewrite Hlt. }
  exists (prune shell key d [] repo). split_and!.
  - by eapply subtract_s_eq.
  - by rewrite bucket_lookup_prune_eq.
  - unfold prune. case_decide.
    + by rewrite lookup_delete_eq.
    + by rewrite lookup_insert_eq.
  - intros shell' Hne. unfold prune. case_decide.
    + by rewrite lookup_delete_ne.
    + by rewrite lookup_insert_ne.
  - intros key' Hne. rewrite bucket_lookup_prune_ne; [|done|congruence].
    by apply bucket_lookup_shell.
Qed.

(** ** Atoms without a partial charge *)

Lemma to_elements_nodes_raise ns e :
  to_elements_nodes ns = Raise e → e = LookupError.
Proof.
  induction ns as [|[v data] ns IH]; simpl; [done|].
  destruct (IACM_MAP !! atom_type data); simpl; [|by intros [= <-]].
  destruct (to_elements_nodes ns); simpl; [done|]. intros [= <-]. by apply IH.
Qed.

Lemma to_elements_raise graph e :
  to_elements graph = Raise e → e = LookupError.
Proof.
  unfold to_elements.
  destruct (to_elements_nodes (nodes graph)) eqn:Hn; simpl; [done|].
  intros [= <-]. by eapply to_elements_nodes_raise.
Qed.

Lemma subtract_s_raise shell key pc (repo : store) e :
  subtract_s shell key pc repo = Raise e → e = LookupError.
Proof.
  unfold subtract_s. destruct (repo !! shell) as [d|]; simpl; [|by intros [= <-]].
  destruct (d !! key) as [b|]; simpl; [|by intros [= <-]].
  unfold list_pop. case_decide; simpl; [done|by intros [= <-]].
Qed.

Lemma sub_all_raise obs (repo : store) e :
  sub_all obs repo = Raise e → e = LookupError.
Proof.
  unfold sub_all. revert repo. induction obs as [|o obs IH]; intros repo; simpl;
    [done|].
  destruct (subtract_s o.1.1 o.1.2 o.2 repo) as [repo'|e'] eqn:Hs; simpl.
  - apply IH.
  - intros [= <-]. by eapply subtract_s_raise.
Qed.

Lemma for_each_total {A S : Type} (l : list A) (body : A → S → result S) st :
  (∀ x st, ∃ st', body x st = Ok st') → ∃ st', for_each l body st = Ok st'.
Proof.
  intros Hb. revert st. induction l as [|x l IH]; intros st; simpl; [by eexists|].
  destruct (Hb x st) as [st' ->]. simpl. apply IH.
Qed.

Lemma ChargeWorker_process_eq shell graph :
  ∃ charges,
    ChargeWorker_process shell graph =
      match first_uncharged (nodes graph) with
      | Some atom => Raise (KeyError_partial_charge atom)
      | None => Ok charges
      end.
Proof.
  unfold ChargeWorker_process, for_generated, _iter_atomic_fragments.
  rewrite iter_atomic_fragments_from_exn.
  destruct (for_each_total
              (iter_atomic_fragments_from graph shell (nodes graph)).1
              (λ '(key, pc) (charges : gmap string (list charge)),
                 Ok (<[key := default [] (charges !! key) ++ [pc]]> charges))
              ∅) as [charges ->].
  { intros [key pc] charges. by eexists. }
  exists charges. simpl. by destruct (first_uncharged (nodes graph)).
Qed.

Lemma subtract_iacm_raise shell key pc (self : Repository charge) e :
  subtract_iacm shell key pc self = Raise e → e = LookupError.
Proof.
  unfold subtract_iacm.
  destruct (subtract_s shell key pc (charges_iacm self)) as [c|e'] eqn:Hs;
    simpl; [done|].
  intros [= <-]. by eapply subtract_s_raise.
Qed.

(** A graph with an atom without [partial_charge] makes
    [_iter_atomic_fragments] raise the KeyError that names the first such
    atom, for every shell, and with it the worker of the corpus build.  On a
    repository to which both indices have been assigned: with
    [max_shell >= 1], [add] of that molecule raises this error, and
    [subtract] of it raises this error or, when the removal of the charge of
    an atom before that one fails, the lookup error of that removal; with
    [max_shell <= 0] no shell is processed and [add] and [subtract] only
    read the file and map its atom types.  A graph whose atoms all have
    their charge never makes [_iter_atomic_fragments], the worker, [add] or
    [subtract] raise that error. *)
Theorem partial_charge_errors (self : Repository charge) (molid : Z)
    (graph : Graph charge) :
  has_indices self →
  convert_from_file molid = Some graph →
  (∀ atom, first_uncharged (nodes graph) = Some atom →
     (∀ shell, (_iter_atomic_fragments graph shell).2 =
               Some (KeyError_partial_charge atom)) ∧
     (∀ shell, ChargeWorker_process shell graph =
               Raise (KeyError_partial_charge atom)) ∧
     (1 ≤ max_shell self →
        add self molid = Raise (KeyError_partial_charge atom) ∧
        (subtract self molid = Raise (KeyError_partial_charge atom) ∨
         subtract self molid = Raise LookupError))) ∧
  (max_shell self ≤ 0 →
     add self molid = (to_elements graph ≫= λ _, Ok self) ∧
     subtract self molid = (to_elements graph ≫= λ _, Ok self)) ∧
  (all_charged graph →
     (∀ shell, (_iter_atomic_fragments graph shell).2 = None) ∧
     (∀ shell, ∃ charges, ChargeWorker_process shell graph = Ok charges) ∧
     ∀ atom, add self molid ≠ Raise (KeyError_partial_charge atom) ∧
             subtract self molid ≠ Raise (KeyError_partial_charge atom)).
Proof.
  intros Hidx Hf. split_and!.
  - intros atom Hu. split_and!.
    { intros shell. unfold _iter_atomic_fragments.
      by rewrite iter_atomic_fragments_from_exn, Hu. }
    { intros shell. destruct (ChargeWorker_process_eq shell graph) as [c ->].
      by rewrite Hu. }
    intros Hmx. split.
    + unfold add. rewrite iterate_eq, Hf, (shells_cons _ Hmx) by done. simpl.
      destruct (shell_loop_uncharged graph 1 (seqZ 2 (max_shell self - 1))
                  add_iacm self atom Hu) as (e & -> & He).
      rewrite He; [done|]. intros sh k pc st. by eexists.
    + unfold subtract. rewrite iterate_eq, Hf, (shells_cons _ Hmx) by done.
      simpl.
      destruct (shell_loop_uncharged_exn (λ e, e = LookupError) graph 1
                  (seqZ 2 (max_shell self - 1)) subtract_iacm self atom Hu)
        as (e & -> & [->| ->]); [|by left|by right].
      intros sh k pc st e. apply subtract_iacm_raise.
  - intros Hmx. unfold add, subtract.
    rewrite !iterate_eq, Hf, (shells_nil _ Hmx) by done.
    cbn [mbind result_bind of_option shell_loop for_each].
    rewrite (shells_nil _ Hmx). by destruct (to_elements graph).
  - intros Hc. split_and!;
      [intros shell; by apply iter_atomic_fragments_all_charged| |].
    { intros shell. destruct (ChargeWorker_process_eq shell graph) as [c ->].
      apply first_uncharged_None in Hc as ->. by exists c. }
    intros atom. destruct (to_elements graph) as [graph'|e] eqn:Ht.
    + rewrite (add_processable _ _ graph graph') by done.
      rewrite (subtract_processable _ _ graph graph') by done.
      split; [done|].
      destruct (sub_all _ (charges_iacm self)) as [ci|e] eqn:Hi; simpl.
      * destruct (sub_all _ (charges_elem self)) as [ce|e] eqn:He; simpl;
          [done|].
        apply sub_all_raise in He as ->. done.
      * apply sub_all_raise in Hi as ->. done.
    + apply to_elements_raise in Ht as Hl. subst e.
      unfold add, subtract. rewrite !iterate_eq, Hf by done.
      cbn [mbind result_bind of_option].
      rewrite !shell_loop_all_charged by done.
      rewrite for_each_add_iacm, for_each_subtract_iacm.
      cbn [mbind result_bind of_option]. rewrite Ht.
      cbn [mbind result_bind of_option]. split; [done|].
      destruct (sub_all _ (charges_iacm self)) as [ci|e] eqn:Hi;
        cbn [mbind result_bind of_option].
      * done.
      * apply sub_all_raise in Hi as ->. done.
Qed.

(** ** The isomorphism indices inside [__iterate] *)

Lemma for_each_commute {A S : Type} (g : S → S) (l : list A)
    (body : A → S → result S) st :
  (∀ x st, body x (g st) = g <$> body x st) →
  for_each l body (g st) = g <$> for_each l body st.
Proof.
  intros Hb. revert st. induction l as [|x l IH]; intros st; simpl; [done|].
  rewrite Hb. destruct (body x st) as [st'|e]; simpl; [apply IH|done].
Qed.

Lemma shell_loop_commute {S : Type} (g : S → S) graph (shs : list Z)
    (callable : Z → string → charge → S → result S) st :
  (∀ sh k pc st, callable sh k pc (g st) = g <$> callable sh k pc st) →
  shell_loop graph shs callable (g st) = g <$> shell_loop graph shs callable st.
Proof.
  intros Hc. unfold shell_loop. apply for_each_commute.
  intros shell st'. unfold for_generated.
  rewrite for_each_commute by (by intros [key pc] st'').
  destruct (for_each _ _ st') as [st''|e]; simpl; [|done].
  by destruct (_iter_atomic_fragments graph shell).2.
Qed.

Lemma iterate_set_iso self molid i_iacm i_elem
    (callable_iacm callable_elem :
       Z → string → charge → Repository charge → result (Repository charge)) :
  (∀ sh k pc st, callable_iacm sh k pc (set_iso i_iacm i_elem st) =
                 set_iso i_iacm i_elem <$> callable_iacm sh k pc st) →
  (∀ sh k pc st, callable_elem sh k pc (set_iso i_iacm i_elem st) =
                 set_iso i_iacm i_elem <$> callable_elem sh k pc st) →
  has_indices self →
  iterate (set_iso i_iacm i_elem self) molid callable_iacm callable_elem =
    set_iso i_iacm i_elem <$> iterate self molid callable_iacm callable_elem.
Proof.
  intros Hi He Hidx. rewrite !iterate_eq by (done || by split; eexists).
  destruct (convert_from_file molid) as [graph|]; simpl; [|done].
  change (shells (set_iso i_iacm i_elem self)) with (shells self).
  rewrite (shell_loop_commute (set_iso i_iacm i_elem)) by done.
  destruct (shell_loop graph (shells self) callable_iacm self) as [self1|e];
    simpl; [|done].
  destruct (to_elements graph) as [graph'|e]; simpl; [|done].
  change (shells (set_iso i_iacm i_elem self1)) with (shells self1).
  by rewrite (shell_loop_commute (set_iso i_iacm i_elem)).
Qed.

Lemma add_set_iso self molid i_iacm i_elem :
  has_indices self →
  add (set_iso i_iacm i_elem self) molid =
    set_iso i_iacm i_elem <$> add self molid.
Proof.
  intros Hidx. apply iterate_set_iso; [| |done].
  - intros sh k pc st. reflexivity.
  - intros sh k pc st. reflexivity.
Qed.

Lemma subtract_set_iso self molid i_iacm i_elem :
  has_indices self →
  subtract (set_iso i_iacm i_elem self) molid =
    set_iso i_iacm i_elem <$> subtract self molid.
Proof.
  intros Hidx. apply iterate_set_iso; [| |done].
  - intros sh k pc st. unfold subtract_iacm. simpl.
    by destruct (subtract_s sh k pc (charges_iacm st)).
  - intros sh k pc st. unfold subtract_elem. simpl.
    by destruct (subtract_s sh k pc (charges_elem st)).
Qed.

(** ** The archive *)

Lemma result_map_roundtrip {A B : Type} (f : A → result B) (g : B → result A)
    (l : list A) (ys : list B) :
  (∀ x y, f x = Ok y → g y = Ok x) →
  result_map f l = Ok ys → result_map g ys = Ok l.
Proof.
  intros Hfg. revert ys. induction l as [|x l IH]; intros ys; cbn [result_map].
  { by intros [= <-]. }
  destruct (f x) as [y|e] eqn:Hx; cbn [mbind result_bind]; [|done].
  destruct (result_map f l) as [ys'|e]; cbn [mbind result_bind]; [|done].
  intros [= <-]. cbn [result_map].
  by rewrite (Hfg _ _ Hx), (IH ys').
Qed.

Lemma result_map_is_Ok {A B : Type} (f : A → result B) (l : list A) :
  (∃ ys, result_map f l = Ok ys) ↔ ∀ x, x ∈ l → ∃ y, f x = Ok y.
Proof.
  induction l as [|x l IH]; cbn [result_map].
  { split; [by intros _ x ?%elem_of_nil|by eexists]. }
  split.
  - intros [ys Hys] x' Hx'.
    destruct (f x) as [y|e] eqn:Hx; cbn [mbind result_bind] in Hys; [|done].
    destruct (result_map f l) as [ys'|e]; cbn [mbind result_bind] in Hys;
      [|done].
    apply elem_of_cons in Hx' as [->|Hx']; [by eexists|].
    apply IH; [by eexists|done].
  - intros Hall. destruct (Hall x) as [y ->]; [by left|].
    destruct (proj2 IH) as [ys ->]; [intros x' Hx'; apply Hall; by right|].
    by eexists.
Qed.

Lemma pack_int_Ok (z : Z) : packable_int z → pack_int z = Ok (MInt z).
Proof. intros Hz. unfold pack_int. by rewrite decide_True. Qed.

Lemma pack_int_is_Ok (z : Z) : (∃ m, pack_int z = Ok m) ↔ packable_int z.
Proof.
  unfold pack_int, packable_int. case_decide; split; try done.
  - by eexists.
  - by intros [m ?].
Qed.

Lemma pack_int_raise (z : Z) e : pack_int z = Raise e → e = OverflowError.
Proof. unfold pack_int. case_decide; [done|]. by intros [= <-]. Qed.

Lemma unpack_int_pack_int (z : Z) m : pack_int z = Ok m → unpack_int m = Ok z.
Proof. unfold pack_int. case_decide; [|done]. by intros [= <-]. Qed.

Lemma unpack_list_pack_list {A : Type} (pk : A → result (msg charge))
    (un : msg charge → result A) (l : list A) m :
  (∀ x y, pk x = Ok y → un y = Ok x) →
  pack_list pk l = Ok m → unpack_list un m = Ok l.
Proof.
  intros H. unfold pack_list.
  destruct (result_map pk l) as [items|e] eqn:Hl; [|done].
  intros [= <-]. by apply (result_map_roundtrip pk).
Qed.

Lemma pack_list_is_Ok {A : Type} (pk : A → result (msg charge)) (l : list A) :
  (∃ m, pack_list pk l = Ok m) ↔ ∀ x, x ∈ l → ∃ y, pk x = Ok y.
Proof.
  rewrite <-result_map_is_Ok. unfold pack_list.
  destruct (result_map pk l) as [items|e]; split; try by eexists.
  - by intros [m ?].
  - by intros [ys ?].
Qed.

Lemma unpack_dict_pack_dict `{Countable K} {V : Type}
    (fk : K → result (msg charge)) (fv : V → result (msg charge))
    (uk : msg charge → result K) (uv : msg charge → result V)
    (d : gmap K V) m :
  (∀ k mk, fk k = Ok mk → uk mk = Ok k) →
  (∀ v mv, fv v = Ok mv → uv mv = Ok v) →
  pack_dict fk fv d = Ok m → unpack_dict uk uv m = Ok d.
Proof.
  intros Hk Hv. unfold pack_dict.
  destruct (result_map _ (map_to_list d)) as [items|e] eqn:Hl; [|done].
  intros [= <-]. unfold unpack_dict.
  assert (result_map (λ kv : msg charge * msg charge,
                        k ← uk kv.1; v ← uv kv.2; Ok (k, v)) items
          = Ok (map_to_list d)) as ->.
  { eapply result_map_roundtrip; [|exact Hl].
    intros [k v] [mk mv]. cbn [fst snd].
    destruct (fk k) as [mk'|e] eqn:Hfk; cbn [mbind result_bind]; [|done].
    destruct (fv v) as [mv'|e] eqn:Hfv; cbn [mbind result_bind]; [|done].
    intros [= <- <-]. by rewrite (Hk _ _ Hfk), (Hv _ _ Hfv). }
  simpl. f_equal.
  rewrite <-(list_to_map_to_list d) at 2. apply list_to_map_proper.
  - rewrite fmap_reverse, reverse_Permutation. apply NoDup_fst_map_to_list.
  - apply reverse_Permutation.
Qed.

Lemma pack_dict_is_Ok `{Countable K} {V : Type}
    (fk : K → result (msg charge)) (fv : V → result (msg charge))
    (d : gmap K V) :
  (∃ m, pack_dict fk fv d = Ok m) ↔
  ∀ k v, d !! k = Some v → (∃ mk, fk k = Ok mk) ∧ ∃ mv, fv v = Ok mv.
Proof.
  unfold pack_dict.
  transitivity (∃ items,
    result_map (λ kv : K * V, k ← fk kv.1; v ← fv kv.2; Ok (k, v))
      (map_to_list d) = Ok items).
  { destruct (result_map _ (map_to_list d)) as [items|e]; split;
      try by eexists.
    - by intros [m ?].
    - by intros [ys ?]. }
  rewrite result_map_is_Ok. split.
  - intros Hall k v Hkv. destruct (Hall (k, v)) as [[mk mv] Hy].
    { by apply elem_of_map_to_list. }
    cbn [fst snd] in Hy.
    destruct (fk k) as [mk'|e]; cbn [mbind result_bind] in Hy; [|done].
    destruct (fv v) as [mv'|e]; cbn [mbind result_bind] in Hy; [|done].
    split; by eexists.
  - intros Hall [k v] Hkv%elem_of_map_to_list.
    destruct (Hall k v Hkv) as [[mk Hmk] [mv Hmv]]. cbn [fst snd].
    rewrite Hmk, Hmv. by eexists.
Qed.

Lemma pack_dict_raise `{Countable K} {V : Type} (P : exn → Prop)
    (fk : K → result (msg charge)) (fv : V → result (msg charge))
    (d : gmap K V) e :
  (∀ k e, fk k = Raise e → P e) → (∀ v e, fv v = Raise e → P e) →
  pack_dict fk fv d = Raise e → P e.
Proof.
  intros Hk Hv. unfold pack_dict.
  generalize (map_to_list d). intros l.
  destruct (result_map _ l) as [items|e'] eqn:Hl; [done|].
  intros [= <-]. revert e' Hl.
  induction l as [|[k v] l IH]; intros e'; cbn [result_map]; [done|].
  cbn [fst snd].
  destruct (fk k) as [mk|e1] eqn:Hfk; cbn [mbind result_bind].
  2: { intros [= <-]. by eapply Hk. }
  destruct (fv v) as [mv|e1] eqn:Hfv; cbn [mbind result_bind].
  2: { intros [= <-]. by eapply Hv. }
  destruct (result_map _ l) as [items|e1]; cbn [mbind result_bind]; [done|].
  intros [= <-]. by apply IH.
Qed.

Lemma pack_list_raise {A : Type} (P : exn → Prop)
    (pk : A → result (msg charge)) (l : list A) e :
  (∀ x e, pk x = Raise e → P e) → pack_list pk l = Raise e → P e.
Proof.
  intros Hpk. unfold pack_list.
  destruct (result_map pk l) as [items|e'] eqn:Hl; [done|].
  intros [= <-]. revert e' Hl.
  induction l as [|x l IH]; intros e'; cbn [result_map]; [done|].
  destruct (pk x) as [y|e1] eqn:Hx; cbn [mbind result_bind].
  2: { intros [= <-]. by eapply Hpk. }
  destruct (result_map pk l) as [items|e1]; cbn [mbind result_bind]; [done|].
  intros [= <-]. by apply IH.
Qed.

Lemma unpack_charges_pack_charges (c : store) m :
  pack_charges c = Ok m → unpack_charges m = Ok c.
Proof.
  unfold unpack_charges, pack_charges.
  apply unpack_dict_pack_dict; [apply unpack_int_pack_int|]. intros d md.
  apply unpack_dict_pack_dict; [by intros k mk [= <-]|]. intros l ml.
  apply unpack_list_pack_list. by intros x y [= <-].
Qed.

Lemma pack_charges_is_Ok (c : store) :
  (∃ m, pack_charges c = Ok m) ↔
  ∀ shell, is_Some (c !! shell) → packable_int shell.
Proof.
  unfold pack_charges. rewrite pack_dict_is_Ok. split.
  - intros Hall shell [d Hd]. apply pack_int_is_Ok. by apply (Hall shell d).
  - intros Hall shell d Hd. split; [apply pack_int_is_Ok, Hall; by eexists|].
    apply pack_dict_is_Ok. intros key b _. split; [by eexists|].
    apply pack_list_is_Ok. intros x _. by eexists.
Qed.

Lemma pack_charges_raise (c : store) e :
  pack_charges c = Raise e → e = OverflowError.
Proof.
  unfold pack_charges.
  apply (pack_dict_raise (λ e, e = OverflowError));
    [intros k e'; apply pack_int_raise|].
  intros d e'. apply (pack_dict_raise (λ e, e = OverflowError)); [done|].
  intros l e''. by apply (pack_list_raise (λ e, e = OverflowError)).
Qed.

Lemma unpack_iso_pack_iso (iso : gmap Z (list Z)) m :
  pack_iso iso = Ok m → unpack_iso m = Ok iso.
Proof.
  unfold unpack_iso, pack_iso.
  apply unpack_dict_pack_dict; [apply unpack_int_pack_int|]. intros l ml.
  apply unpack_list_pack_list, unpack_int_pack_int.
Qed.

Lemma pack_iso_is_Ok (iso : gmap Z (list Z)) :
  (∃ m, pack_iso iso = Ok m) ↔ packable_iso iso.
Proof.
  unfold pack_iso, packable_iso. rewrite pack_dict_is_Ok. split.
  - intros Hall molid group Hg. destruct (Hall molid group Hg) as [Hk Hv].
    split; [by apply pack_int_is_Ok|].
    apply Forall_forall. intros x Hx. apply pack_int_is_Ok.
    by apply (proj1 (pack_list_is_Ok pack_int group) Hv).
  - intros Hall molid group Hg. destruct (Hall molid group Hg) as [Hk Hv].
    split; [by apply pack_int_is_Ok|].
    apply pack_list_is_Ok. intros x Hx. apply pack_int_is_Ok.
    by apply (proj1 (Forall_forall _ _) Hv).
Qed.

Lemma pack_iso_raise (iso : gmap Z (list Z)) e :
  pack_iso iso = Raise e → e = OverflowError.
Proof.
  unfold pack_iso.
  apply (pack_dict_raise (λ e, e = OverflowError));
    [intros k e'; apply pack_int_raise|].
  intros l e'. apply (pack_list_raise (λ e, e = OverflowError)).
  intros x e''. apply pack_int_raise.
Qed.

Lemma archive_lookup (meta c_iacm c_elem i_iacm i_elem : msg charge) :
  let zf : gmap string (msg charge) :=
    <["iso_elem" := i_elem]> (<["iso_iacm" := i_iacm]> (
    <["charges_elem" := c_elem]> (<["charges_iacm" := c_iacm]> (
    <["meta" := meta]> ∅)))) in
  zf !! "meta" = Some meta ∧ zf !! "charges_iacm" = Some c_iacm ∧
  zf !! "charges_elem" = Some c_elem ∧ zf !! "iso_iacm" = Some i_iacm ∧
  zf !! "iso_elem" = Some i_elem.
Proof.
  simpl. split_and!;
    repeat (rewrite lookup_insert_ne by (intros [=]));
    by rewrite lookup_insert_eq.
Qed.

(** What [write] has put into the archive when it returns. *)
Lemma write_entries (self : Repository charge) zf :
  write self = Ok zf →
  ∃ meta c_iacm c_elem i_iacm i_elem iso_i iso_e,
    zf = <["iso_elem" := i_elem]> (<["iso_iacm" := i_iacm]> (
         <["charges_elem" := c_elem]> (<["charges_iacm" := c_iacm]> (
         <["meta" := meta]> ∅)))) ∧
    unpack_list unpack_int meta = Ok [min_shell self; max_shell self] ∧
    unpack_charges c_iacm = Ok (charges_iacm self) ∧
    unpack_charges c_elem = Ok (charges_elem self) ∧
    iso_iacm self = Some iso_i ∧ unpack_iso i_iacm = Ok iso_i ∧
    iso_elem self = Some iso_e ∧ unpack_iso i_elem = Ok iso_e.
Proof.
  unfold write.
  destruct (pack_list pack_int [min_shell self; max_shell self])
    as [meta|e] eqn:Hmeta; cbn [mbind result_bind]; [|done].
  destruct (pack_charges (charges_iacm self)) as [c_iacm|e] eqn:Hci;
    cbn [mbind result_bind]; [|done].
  destruct (pack_charges (charges_elem self)) as [c_elem|e] eqn:Hce;
    cbn [mbind result_bind]; [|done].
  destruct (iso_iacm self) as [iso_i|] eqn:Hii;
    cbn [of_option mbind result_bind]; [|done].
  destruct (pack_iso iso_i) as [i_iacm|e] eqn:Hpi;
    cbn [mbind result_bind]; [|done].
  destruct (iso_elem self) as [iso_e|] eqn:Hie;
    cbn [of_option mbind result_bind]; [|done].
  destruct (pack_iso iso_e) as [i_elem|e] eqn:Hpe;
    cbn [mbind result_bind]; [|done].
  intros [= <-]. exists meta, c_iacm, c_elem, i_iacm, i_elem, iso_i, iso_e.
  split_and!; try done.
  - apply (unpack_list_pack_list pack_int); [apply unpack_int_pack_int|done].
  - by apply unpack_charges_pack_charges.
  - by apply unpack_charges_pack_charges.
  - by apply unpack_iso_pack_iso.
  - by apply unpack_iso_pack_iso.
Qed.

Lemma read_entries (self : Repository charge)
    (zf : gmap string (msg charge)) meta c_iacm c_elem i_iacm i_elem iso_i iso_e :
  zf !! "meta" = Some meta → zf !! "charges_iacm" = Some c_iacm →
  zf !! "charges_elem" = Some c_elem → zf !! "iso_iacm" = Some i_iacm →
  zf !! "iso_elem" = Some i_elem →
  unpack_list unpack_int meta = Ok [min_shell self; max_shell self] →
  unpack_charges c_iacm = Ok (charges_iacm self) →
  unpack_charges c_elem = Ok (charges_elem self) →
  iso_iacm self = Some iso_i → unpack_iso i_iacm = Ok iso_i →
  iso_elem self = Some iso_e → unpack_iso i_elem = Ok iso_e →
  read zf = Ok self.
Proof.
  intros Hm Hci Hce Hii Hie Hmeta Huci Huce Hsi Hui Hse Hue.
  unfold read. rewrite Hm, Hci, Hce, Hii, Hie.
  cbn [of_option mbind result_bind]. rewrite Hmeta.
  cbn [of_option mbind result_bind]. rewrite Huci, Huce, Hui, Hue.
  cbn [of_option mbind result_bind]. rewrite <-Hsi, <-Hse. by destruct self.
Qed.

Lemma read_write_Ok (self : Repository charge) zf :
  write self = Ok zf → read zf = Ok self.
Proof.
  intros (meta & c_iacm & c_elem & i_iacm & i_elem & iso_i & iso_e & -> &
          Hmeta & Huci & Huce & Hsi & Hui & Hse & Hue)%write_entries.
  destruct (archive_lookup meta c_iacm c_elem i_iacm i_elem)
    as (Hm & Hci & Hce & Hii & Hie).
  by eapply read_entries.
Qed.

Lemma write_is_Ok (self : Repository charge) :
  (∃ zf, write self = Ok zf) ↔ has_indices self ∧ packable self.
Proof.
  unfold write, has_indices, packable. split.
  - intros [zf Hzf].
    destruct (pack_list pack_int [min_shell self; max_shell self])
      as [meta|e] eqn:Hmeta; cbn [mbind result_bind] in Hzf; [|done].
    destruct (pack_charges (charges_iacm self)) as [c_iacm|e] eqn:Hci;
      cbn [mbind result_bind] in Hzf; [|done].
    destruct (pack_charges (charges_elem self)) as [c_elem|e] eqn:Hce;
      cbn [mbind result_bind] in Hzf; [|done].
    destruct (iso_iacm self) as [iso_i|] eqn:Hii;
      cbn [of_option mbind result_bind] in Hzf; [|done].
    destruct (pack_iso iso_i) as [i_iacm|e] eqn:Hpi;
      cbn [mbind result_bind] in Hzf; [|done].
    destruct (iso_elem self) as [iso_e|] eqn:Hie;
      cbn [of_option mbind result_bind] in Hzf; [|done].
    destruct (pack_iso iso_e) as [i_elem|e] eqn:Hpe;
      cbn [mbind result_bind] in Hzf; [|done].
    assert (∀ x, x ∈ [min_shell self; max_shell self] → packable_int x) as Hb.
    { intros x Hx. apply pack_int_is_Ok.
      apply (proj1 (pack_list_is_Ok pack_int
                      [min_shell self; max_shell self]));
        [by eexists|done]. }
    split; [by split|]. split_and!.
    + apply Hb. by left.
    + apply Hb. right. by left.
    + apply pack_charges_is_Ok. by eexists.
    + apply pack_charges_is_Ok. by eexists.
    + intros ? [= <-]. apply pack_iso_is_Ok. by eexists.
    + intros ? [= <-]. apply pack_iso_is_Ok. by eexists.
  - intros [[[iso_i Hii] [iso_e Hie]] (Hmn & Hmx & Hci & Hce & Hpi & Hpe)].
    unfold pack_list. cbn [result_map].
    rewrite (pack_int_Ok _ Hmn), (pack_int_Ok _ Hmx).
    cbn [mbind result_bind fmap result_fmap].
    destruct (proj2 (pack_charges_is_Ok _) Hci) as [c_iacm ->].
    destruct (proj2 (pack_charges_is_Ok _) Hce) as [c_elem ->].
    rewrite Hii, Hie. cbn [of_option mbind result_bind].
    destruct (proj2 (pack_iso_is_Ok _) (Hpi _ Hii)) as [i_iacm ->].
    destruct (proj2 (pack_iso_is_Ok _) (Hpe _ Hie)) as [i_elem ->].
    cbn [mbind result_bind]. by eexists.
Qed.

(** C5, as amended.  For a repository to which both isomorphism indices
    have been assigned (empty indices included) and whose integers - the
    shell bounds, the shell keys of both stores, the molecule ids of both
    indices - are in the range that [msgpack.packb] packs, [write] returns
    an archive and [read] of that archive gives back the repository: the
    shell bounds, both typed stores and both isomorphism indices. *)
Theorem read_write (self : Repository charge) :
  has_indices self → packable self →
  ∃ zf, write self = Ok zf ∧ read zf = Ok self.
Proof.
  intros Hidx Hpack.
  destruct (proj2 (write_is_Ok self) (conj Hidx Hpack)) as [zf Hzf].
  exists zf. split; [done|]. by apply read_write_Ok.
Qed.

(** [write] returns an archive exactly when both isomorphism indices have
    been assigned and every integer of the repository can be packed.
    Otherwise it raises: OverflowError when it comes to an integer that
    cannot be packed, AttributeError when it comes to an index that was never
    assigned, as on a repository that the constructor has returned. *)
Theorem write_errors (self : Repository charge) :
  ((∃ zf, write self = Ok zf) ↔ has_indices self ∧ packable self) ∧
  (∀ e, write self = Raise e → e = OverflowError ∨ e = AttributeError) ∧
  (packable self → ¬ has_indices self → write self = Raise AttributeError) ∧
  (has_indices self → ¬ packable self → write self = Raise OverflowError).
Proof.
  split; [apply write_is_Ok|].
  assert (∀ e, write self = Raise e →
            e = OverflowError ∨ (e = AttributeError ∧ ¬ has_indices self))
    as Hraise.
  { intros e. unfold write.
    destruct (pack_list pack_int [min_shell self; max_shell self])
      as [meta|e'] eqn:Hmeta; cbn [mbind result_bind].
    2: { intros [= <-]. left.
         apply (pack_list_raise (λ e, e = OverflowError)) in Hmeta; [done|].
         intros x e''. apply pack_int_raise. }
    destruct (pack_charges (charges_iacm self)) as [c_iacm|e'] eqn:Hci;
      cbn [mbind result_bind].
    2: { intros [= <-]. left. by eapply pack_charges_raise. }
    destruct (pack_charges (charges_elem self)) as [c_elem|e'] eqn:Hce;
      cbn [mbind result_bind].
    2: { intros [= <-]. left. by eapply pack_charges_raise. }
    destruct (iso_iacm self) as [iso_i|] eqn:Hii;
      cbn [of_option mbind result_bind].
    2: { intros [= <-]. right. split; [done|].
         apply not_has_indices. by left. }
    destruct (pack_iso iso_i) as [i_iacm|e'] eqn:Hpi; cbn [mbind result_bind].
    2: { intros [= <-]. left. by eapply pack_iso_raise. }
    destruct (iso_elem self) as [iso_e|] eqn:Hie;
      cbn [of_option mbind result_bind].
    2: { intros [= <-]. right. split; [done|].
         apply not_has_indices. by right. }
    destruct (pack_iso iso_e) as [i_elem|e'] eqn:Hpe; cbn [mbind result_bind];
      [done|].
    intros [= <-]. left. by eapply pack_iso_raise. }
  split_and!.
  - intros e He. destruct (Hraise e He) as [->|[-> _]]; [by left|by right].
  - intros Hpack Hn.
    destruct Hpack as (Hmn & Hmx & Hci & Hce & Hpi & Hpe).
    unfold write, pack_list. cbn [result_map].
    rewrite (pack_int_Ok _ Hmn), (pack_int_Ok _ Hmx).
    cbn [mbind result_bind fmap result_fmap].
    destruct (proj2 (pack_charges_is_Ok _) Hci) as [c_iacm ->].
    destruct (proj2 (pack_charges_is_Ok _) Hce) as [c_elem ->].
    cbn [mbind result_bind].
    destruct (iso_iacm self) as [iso_i|] eqn:Hii;
      cbn [of_option mbind result_bind]; [|done].
    destruct (proj2 (pack_iso_is_Ok _) (Hpi _ eq_refl)) as [i_iacm ->].
    cbn [mbind result_bind].
    destruct (iso_elem self) as [iso_e|] eqn:Hie;
      cbn [of_option mbind result_bind]; [|done].
    exfalso. apply Hn. split; by eexists.
  - intros Hidx Hn. destruct (write self) as [zf|e] eqn:Hw.
    + exfalso. apply Hn. apply write_is_Ok. by eexists.
    + destruct (Hraise e eq_refl) as [->|[_ Hno]]; [done|].
      by destruct Hno.
Qed.

(** ** The filtered view *)

Lemma filtered_copy_without_molecules (self : FilteredCharges charge Atom) tcs :
  filtered_copy self tcs = without_molecules (fc_blocked_molids self) tcs.
Proof.
  unfold filtered_copy. induction tcs as [|[[c m] a] tcs IH]; [done|].
  cbn [without_molecules].
  destruct (decide (m ∈ fc_blocked_molids self)) as [Hin|Hnin].
  - rewrite filter_cons_False by (simpl; tauto). exact IH.
  - rewrite filter_cons_True by done. rewrite fmap_cons. simpl. by rewrite IH.
Qed.

Lemma FilteredCharges_getitem_eq (self : FilteredCharges charge Atom) key :
  FilteredCharges_getitem self key =
    (filtered_bucket (fc_blocked_molids self) (fc_charges self !! key),
     fc_charges self).
Proof.
  unfold FilteredCharges_getitem, filtered_bucket, dict_contains,
    defaultdict_getitem.
  destruct (fc_charges self !! key) as [tcs|] eqn:Hk.
  - rewrite bool_decide_eq_true_2 by eauto.
    rewrite filtered_copy_without_molecules.
    destruct (without_molecules _ tcs); by simpl.
  - rewrite bool_decide_eq_false_2; [done|]. by intros [? [=]].
Qed.

Lemma excluded_molids_eq (iso : gmap Z (list Z)) molid :
  excluded_molids iso molid = (default [molid] (iso !! molid), iso).
Proof.
  unfold excluded_molids, dict_contains, defaultdict_getitem.
  destruct (iso !! molid) as [group|] eqn:Hm.
  - by rewrite bool_decide_eq_true_2 by eauto.
  - rewrite bool_decide_eq_false_2; [done|]. by intros [? [=]].
Qed.

Lemma wrap_shells_foldl
    (charges : gmap Z (gmap string (list (charge * Z * Atom))))
    (excluded : list Z) (keys : list Z)
    (view : gmap Z (FilteredCharges charge Atom)) :
  (∀ shell, shell ∈ keys → is_Some (charges !! shell)) →
  ∃ view',
    foldl (λ acc shell,
             let '(d, charges') := defaultdict_getitem ∅ acc.2 shell in
             (<[shell := {| fc_charges := d; fc_blocked_molids := excluded |}]> acc.1,
              charges'))
          (view, charges) keys = (view', charges) ∧
    ∀ shell,
      view' !! shell =
        if decide (shell ∈ keys)
        then (λ d, {| fc_charges := d; fc_blocked_molids := excluded |}) <$>
               charges !! shell
        else view !! shell.
Proof.
  revert view. induction keys as [|k keys IH]; intros view Hin.
  { exists view. split; [done|]. intros shell. rewrite decide_False; [done|].
    apply not_elem_of_nil. }
  destruct (Hin k ltac:(by left)) as [d Hd].
  cbn [foldl]. unfold defaultdict_getitem at 2. cbn [snd fst]. rewrite Hd.
  destruct (IH (<[k := {| fc_charges := d; fc_blocked_molids := excluded |}]> view))
    as (view' & Hfold & Hlook).
  { intros shell Hs. apply Hin. by right. }
  exists view'. split; [exact Hfold|].
  intros shell. rewrite Hlook.
  destruct (decide (shell ∈ keys)) as [Hk|Hk].
  - rewrite decide_True; [done|]. by right.
  - destruct (decide (shell = k)) as [->|Hne].
    + rewrite decide_True by (by left). by rewrite lookup_insert_eq, Hd.
    + rewrite decide_False by (by intros [?|?]%elem_of_cons).
      by rewrite lookup_insert_ne.
Qed.

Lemma wrap_shells_eq
    (charges : gmap Z (gmap string (list (charge * Z * Atom))))
    (excluded : list Z) :
  wrap_shells charges excluded =
    ((λ d, {| fc_charges := d; fc_blocked_molids := excluded |}) <$> charges,
     charges).
Proof.
  unfold wrap_shells.
  destruct (wrap_shells_foldl charges excluded (map_to_list charges).*1 ∅)
    as (view' & -> & Hlook).
  { intros shell [[k d] [-> Hkd]]%list_elem_of_fmap.
    apply elem_of_map_to_list in Hkd. by exists d. }
  f_equal. apply map_eq. intros shell. rewrite Hlook, lookup_fmap.
  case_decide as Hk; [done|]. rewrite lookup_empty.
  destruct (charges !! shell) as [d|] eqn:Hd; [|done].
  exfalso. apply Hk. apply list_elem_of_fmap. exists (shell, d).
  split; [done|]. by apply elem_of_map_to_list.
Qed.

(** C7. [_FilteredRepository(repo, molid)] leaves [repo] as it is; its
    exclusion list is the recorded isomorphism group of [molid], and
    [[molid]] when the index has none; a lookup of a shell and a hash in the
    view gives the charges of the underlying bucket without the observations
    of the excluded molecules, raises KeyError when the shell or the bucket
    is missing or when nothing is left after filtering, and never changes
    the wrapped dict. *)
Theorem filtered_view_lookup (repo : TraceableRepository charge Atom)
    (molid : Z) :
  let view := (FilteredRepository_init repo molid).1 in
  (FilteredRepository_init repo molid).2 = repo ∧
  (∀ shell key,
     view_getitem (f_charges_iacm view) shell key =
       filtered_bucket (default [molid] (t_iso_iacm repo !! molid))
         (t_charges_iacm repo !! shell ≫= (.!! key))) ∧
  (∀ shell key,
     view_getitem (f_charges_elem view) shell key =
       filtered_bucket (default [molid] (t_iso_elem repo !! molid))
         (t_charges_elem repo !! shell ≫= (.!! key))) ∧
  (∀ (fc : FilteredCharges charge Atom) key,
     (FilteredCharges_getitem fc key).2 = fc_charges fc ∧
     (FilteredCharges_getitem fc key).1 ≠ Ok []).
Proof.
  unfold FilteredRepository_init.
  rewrite !excluded_molids_eq, !wrap_shells_eq. cbn [fst snd].
  split_and!.
  - by destruct repo.
  - intros shell key. unfold view_getitem. cbn [f_charges_iacm].
    rewrite lookup_fmap.
    destruct (t_charges_iacm repo !! shell) as [d|]; [|done].
    cbn [fmap option_fmap option_map of_option mbind result_bind option_bind].
    by rewrite FilteredCharges_getitem_eq.
  - intros shell key. unfold view_getitem. cbn [f_charges_elem].
    rewrite lookup_fmap.
    destruct (t_charges_elem repo !! shell) as [d|]; [|done].
    cbn [fmap option_fmap option_map of_option mbind result_bind option_bind].
    by rewrite FilteredCharges_getitem_eq.
  - intros fc key. rewrite FilteredCharges_getitem_eq. split; [done|].
    cbn [fst]. unfold filtered_bucket.
    destruct (fc_charges fc !! key) as [tcs|]; [|done].
    by destruct (without_molecules _ tcs).
Qed.

(** ** The local functions [a] and [s] on one observation *)

Lemma StronglySorted_sublist {A : Type} (R : relation A) (l1 l2 : list A) :
  l1 `sublist_of` l2 → StronglySorted R l2 → StronglySorted R l1.
Proof.
  induction 1 as [|x l1 l2 Hsub IH|x l1 l2 Hsub IH]; intros Hs; [done|..].
  - apply StronglySorted_inv in Hs as [Hs Hx]. constructor; [by apply IH|].
    rewrite Forall_forall in *. intros y Hy. apply Hx.
    by eapply elem_of_sublist.
  - apply StronglySorted_inv in Hs as [Hs _]. by apply IH.
Qed.

(** [a] keeps the invariant of the data model: on a store whose buckets are
    sorted and non-empty, the bucket of the shell and the hash holds the
    charges it held and the new one, all other buckets are as they were,
    and all buckets are sorted and non-empty again. *)
Theorem add_a_keeps_buckets (repo : store) shell key pc :
  wf_buckets repo →
  wf_buckets (add_a shell key pc repo) ∧
  bucket_of (add_a shell key pc repo) shell key ≡ₚ
    pc :: bucket_of repo shell key ∧
  ∀ shell' key', (shell, key) ≠ (shell', key') →
    bucket_lookup (add_a shell key pc repo) shell' key' =
      bucket_lookup repo shell' key'.
Proof.
  intros Hwf. split_and!.
  - by apply wf_buckets_add_a.
  - rewrite bucket_of_add_a_eq. apply insort_left_Permutation.
  - intros shell' key' Hne. by apply bucket_lookup_add_a_ne.
Qed.

(** [s] undoes [a]: removing the charge that [a] has just inserted
    succeeds and leaves every bucket as it was before the insertion. *)
Theorem subtract_s_after_add_a (repo : store) shell key pc :
  wf_buckets repo →
  ∃ repo', subtract_s shell key pc (add_a shell key pc repo) = Ok repo' ∧
    wf_buckets repo' ∧
    ∀ shell' key', bucket_lookup repo' shell' key' = bucket_lookup repo shell' key'.
Proof.
  intros Hwf.
  pose proof (wf_buckets_add_a shell key pc repo Hwf) as Hwf1.
  destruct (subtract_s_elem shell key pc (add_a shell key pc repo) Hwf1)
    as (repo' & Hs & Hwf' & _ & Hperm & Hother).
  { rewrite bucket_of_add_a_eq, insort_left_Permutation. by left. }
  exists repo'. split_and!; [done..|].
  apply bucket_lookup_ext; [done..|]. intros shell' key'.
  destruct (decide ((shell, key) = (shell', key'))) as [[= <- <-]|Hne].
  - rewrite bucket_of_add_a_eq, insort_left_Permutation in Hperm.
    by apply (inj (pc ::.)) in Hperm.
  - unfold bucket_of. rewrite Hother by done.
    by rewrite bucket_lookup_add_a_ne.
Qed.

(** [s] never checks that the charge it pops is the charge it was asked to
    remove.  For a charge that a sorted bucket does not hold: when every
    stored charge is smaller the pop is out of range and [s] raises; as soon
    as some stored charge is larger, [s] succeeds and removes the least of
    the larger charges instead. *)
Theorem subtract_s_absent_charge (repo : store) shell key d b pc :
  repo !! shell = Some d → d !! key = Some b → sorted b → pc ∉ b →
  (Forall (λ y, ltb y pc = true) b →
     subtract_s shell key pc repo = Raise LookupError) ∧
  (∀ y, y ∈ b → ltb pc y = true →
     ∃ z b', subtract_s shell key pc repo = Ok (prune shell key d b' repo) ∧
       b ≡ₚ z :: b' ∧ sorted b' ∧ ltb pc z = true ∧
       ∀ w, w ∈ b → ltb pc w = true → leb_of z w).
Proof.
  intros Hd Hb Hs Hnin.
  pose proof (bisect_left_spec b pc Hs) as Hp.
  split.
  - intros Hall.
    assert (is_bisect_point b pc (length b)) as Hq.
    { split_and!; [lia| |].
      - intros i y _ Hi. rewrite Forall_forall in Hall. apply Hall.
        by eapply list_elem_of_lookup_2.
      - intros i y Hle Hi. apply lookup_lt_Some in Hi. lia. }
    pose proof (is_bisect_point_unique _ _ _ _ Hp Hq) as Heq.
    unfold subtract_s. rewrite Hd. cbn [of_option mbind result_bind].
    rewrite Hb. cbn [of_option mbind result_bind].
    unfold list_pop. rewrite Heq.
    rewrite decide_False by lia. done.
  - intros y Hy Hlt.
    destruct Hp as (Hle & Hbelow & Habove).
    assert (∀ w, w ∈ b → ltb pc w = true →
              ∃ j, (bisect_left b pc ≤ j)%nat ∧ b !! j = Some w) as Hidx.
    { intros w [j Hj]%list_elem_of_lookup Hw. exists j. split; [|done].
      destruct (decide (bisect_left b pc ≤ j)%nat) as [|Hn]; [done|].
      pose proof (Hbelow j w ltac:(lia) Hj) as Hwp.
      apply ltb_asym in Hw. congruence. }
    destruct (Hidx y Hy Hlt) as (i & Hpi & Hi).
    assert (bisect_left b pc < length b)%nat as Hlen.
    { apply lookup_lt_Some in Hi. lia. }
    destruct (lookup_lt_is_Some_2 b _ Hlen) as [z Hz].
    exists z, (delete (bisect_left b pc) b). split_and!.
    + apply (subtract_s_eq _ _ _ _ _ b); [done..|].
      unfold list_pop. by rewrite decide_True.
    + by apply delete_Permutation.
    + rewrite delete_take_drop. apply sorted_take_drop; [done|lia].
    + destruct (leb_of_cases pc z) as [?|[->|Hzp]]; [done| |].
      * exfalso. apply Hnin. by eapply list_elem_of_lookup_2.
      * by rewrite (Habove _ z (le_n _) Hz) in Hzp.
    + intros w Hw Hwlt. destruct (Hidx w Hw Hwlt) as (j & Hpj & Hj).
      by apply (sorted_lookup b (bisect_left b pc) j).
Qed.

(** ** The order of a filtered bucket *)

(** [__filtered_copy] keeps the charges of the molecules that are not
    blocked, in the order of the wrapped bucket: the result is a
    subsequence of the bucket's charges, so a bucket sorted by charge is
    read as a sorted list; it loses one entry for every observation of a
    blocked molecule, and holds a charge exactly when some molecule that
    is not blocked contributed it. *)
Theorem filtered_copy_order (self : FilteredCharges charge Atom)
    (tcs : list (charge * Z * Atom)) :
  filtered_copy self tcs `sublist_of` ((λ t, t.1.1) <$> tcs) ∧
  (sorted ((λ t, t.1.1) <$> tcs) → sorted (filtered_copy self tcs)) ∧
  (length (filtered_copy self tcs) +
     length (filter (λ t, t.1.2 ∈ fc_blocked_molids self) tcs) = length tcs)%nat ∧
  (∀ c, c ∈ filtered_copy self tcs ↔
        ∃ molid atom, (c, molid, atom) ∈ tcs ∧ molid ∉ fc_blocked_molids self).
Proof.
  assert (filtered_copy self tcs `sublist_of` ((λ t, t.1.1) <$> tcs)) as Hsub.
  { unfold filtered_copy. apply fmap_sublist, sublist_filter. }
  split_and!; [done| | |].
  - intros Hs. by eapply StronglySorted_sublist.
  - clear Hsub. unfold filtered_copy. rewrite length_fmap.
    induction tcs as [|[[c m] a] tcs IH]; [done|].
    destruct (decide (m ∈ fc_blocked_molids self)) as [Hin|Hnin].
    + rewrite (filter_cons_False (λ t, t.1.2 ∉ _))
        by (simpl; intros Hn; by apply Hn).
      rewrite (filter_cons_True (λ t, t.1.2 ∈ _)) by done.
      cbn [length]. rewrite Nat.add_succ_r. by f_equal.
    + rewrite (filter_cons_True (λ t, t.1.2 ∉ _)) by done.
      rewrite (filter_cons_False (λ t, t.1.2 ∈ _)) by done.
      cbn [length]. rewrite Nat.add_succ_l. by f_equal.
  - intros c. unfold filtered_copy. rewrite list_elem_of_fmap. split.
    + intros ([[c' m] a] & -> & [Hm Hin]%list_elem_of_filter). by exists m, a.
    + intros (m & a & Hin & Hm). exists (c, m, a). split; [done|].
      by apply list_elem_of_filter.
Qed.

(** ** Archives with a missing entry *)

(** [read] needs all five entries of the archive: from an archive that
    lacks one of them it never returns a repository, and on what [write]
    has written, with that one entry taken out, it raises the KeyError of
    [zf.read]. *)
Theorem read_missing_entry (self : Repository charge)
    (zf written : gmap string (msg charge)) (name : string) :
  name ∈ ["meta"; "charges_iacm"; "charges_elem"; "iso_iacm"; "iso_elem"] →
  (zf !! name = None → ∃ e, read zf = Raise e) ∧
  (write self = Ok written → read (delete name written) = Raise LookupError).
Proof.
  intros Hname. split.
  - intros Hnone. unfold read.
    destruct (zf !! "meta") as [meta|] eqn:Hmeta;
      cbn [of_option mbind result_bind]; [|by eauto].
    destruct (unpack_list unpack_int meta) as [bounds|e];
      cbn [mbind result_bind]; [|by eauto].
    destruct bounds as [|mn [|mx [|? ?]]]; [by eauto..| |by eauto].
    destruct (zf !! "charges_iacm") as [m1|] eqn:H1;
      cbn [of_option mbind result_bind]; [|by eauto].
    destruct (unpack_charges m1); cbn [mbind result_bind]; [|by eauto].
    destruct (zf !! "charges_elem") as [m2|] eqn:H2;
      cbn [of_option mbind result_bind]; [|by eauto].
    destruct (unpack_charges m2); cbn [mbind result_bind]; [|by eauto].
    destruct (zf !! "iso_iacm") as [m3|] eqn:H3;
      cbn [of_option mbind result_bind]; [|by eauto].
    destruct (unpack_iso m3); cbn [mbind result_bind]; [|by eauto].
    destruct (zf !! "iso_elem") as [m4|] eqn:H4;
      cbn [of_option mbind result_bind]; [|by eauto].
    destruct (unpack_iso m4); cbn [mbind result_bind]; [|by eauto].
    exfalso.
    repeat (apply elem_of_cons in Hname as [->|Hname]; [congruence|]).
    by apply elem_of_nil in Hname.
  - intros (meta & c_iacm & c_elem & i_iacm & i_elem & iso_i & iso_e & -> &
            Hmeta & Huci & Huce & Hsi & Hui & Hse & Hue)%write_entries.
    destruct (archive_lookup meta c_iacm c_elem i_iacm i_elem)
      as (Hm & Hci & Hce & Hii & Hie).
    unfold read.
    repeat (apply elem_of_cons in Hname as [->|Hname];
      [repeat first
         [ rewrite lookup_delete_eq
         | rewrite lookup_delete_ne by (intros [=])
         | rewrite Hm | rewrite Hci | rewrite Hce | rewrite Hii | rewrite Hie
         | rewrite Hmeta | rewrite Huci | rewrite Huce
         | rewrite Hui | rewrite Hue
         | progress cbn [of_option mbind result_bind] ];
       reflexivity|]).
    by apply elem_of_nil in Hname.
Qed.

(** Entries of the archive under other names are not looked at. *)
Theorem read_ignores_other_entries (self : Repository charge)
    (written : gmap string (msg charge)) (name : string) (m : msg charge) :
  name ∉ ["meta"; "charges_iacm"; "charges_elem"; "iso_iacm"; "iso_elem"] →
  write self = Ok written →
  read (<[name := m]> written) = Ok self.
Proof.
  intros Hname
    (meta & c_iacm & c_elem & i_iacm & i_elem & iso_i & iso_e & -> &
     Hmeta & Huci & Huce & Hsi & Hui & Hse & Hue)%write_entries.
  destruct (archive_lookup meta c_iacm c_elem i_iacm i_elem)
    as (Hm & Hci & Hce & Hii & Hie).
  eapply read_entries; try done;
    (rewrite lookup_insert_ne
       by (intros ->; apply Hname; repeat first [by left|right]));
    done.
Qed.

(** ** Python's sort *)

Section sorting.
Context {A K : Type} (lt : K → K → bool) (key : A → K).
Hypothesis Hlt : strict_total_order lt.

Lemma py_insert_Permutation x l : py_insert lt key x l ≡ₚ x :: l.
Proof.
  induction l as [|y l IH]; simpl; [done|].
  destruct (lt (key y) (key x)); [|done]. rewrite IH. apply Permutation_swap.
Qed.

Lemma py_sorted_Permutation l : py_sorted lt key l ≡ₚ l.
Proof.
  induction l as [|x l IH]; simpl; [done|].
  by rewrite py_insert_Permutation, IH.
Qed.

Lemma py_insert_sorted x l :
  StronglySorted (λ a b, lt (key b) (key a) = false) l →
  StronglySorted (λ a b, lt (key b) (key a) = false) (py_insert lt key x l).
Proof.
  induction 1 as [|y l Hs IH Hy]; simpl; [repeat constructor|].
  destruct (lt (key y) (key x)) eqn:Hyx.
  - constructor; [done|]. rewrite py_insert_Permutation. constructor; [|done].
    destruct (lt (key x) (key y)) eqn:Hxy; [|done].
    pose proof (ltb_trans _ Hlt _ _ _ Hxy Hyx) as Hxx.
    by rewrite (ltb_irrefl _ Hlt) in Hxx.
  - constructor; [by constructor|]. constructor; [done|].
    rewrite Forall_forall in Hy |- *. intros z Hz. specialize (Hy z Hz).
    destruct (lt (key z) (key x)) eqn:Hzx; [|done].
    destruct (lt (key x) (key y)) eqn:Hxy.
    + by rewrite (ltb_trans _ Hlt _ _ _ Hzx Hxy) in Hy.
    + by rewrite <-(ltb_total _ Hlt _ _ Hxy Hyx), Hzx in Hy.
Qed.

Lemma py_sorted_sorted l :
  StronglySorted (λ a b, lt (key b) (key a) = false) (py_sorted lt key l).
Proof.
  induction l as [|x l IH]; simpl; [constructor|]. by apply py_insert_sorted.
Qed.

End sorting.

Lemma int_pair_ltb_strict_total_order : strict_total_order int_pair_ltb.
Proof.
  unfold int_pair_ltb. split.
  - intros [a b]. simpl. rewrite decide_True by done. apply Z.ltb_irrefl.
  - intros [a b] [c d] [e f]. simpl. intros H1 H2.
    repeat case_decide; subst; try done;
      rewrite ?Z.ltb_lt in *; lia.
  - intros [a b] [c d]. simpl. intros H1 H2.
    repeat case_decide; subst; rewrite ?Z.ltb_ge in *; f_equal; lia.
Qed.

Lemma String_ltb_strict_total_order : strict_total_order String.ltb.
Proof.
  unfold String.ltb. split.
  - intros x. pose proof (String.compare_antisym x x) as Ha.
    destruct (String.compare x x); done.
  - intros x y z Hxy Hyz.
    destruct (String.compare x y) eqn:Hc1; try done.
    destruct (String.compare y z) eqn:Hc2; try done.
    pose proof (StrictOrder_Transitive (R := OrdersEx.String_as_OT.lt)
                  x y z Hc1 Hc2) as Hxz.
    by rewrite (Hxz : String.compare x z = Lt).
  - intros x y Hxy Hyx. apply String.compare_eq_iff.
    rewrite String.compare_antisym in Hyx.
    destruct (String.compare x y); done.
Qed.

Lemma Color_ltb_strict_total_order : strict_total_order Color_ltb.
Proof.
  pose proof String_ltb_strict_total_order as [Hi Ht Htot].
  unfold Color_ltb. split.
  - intros [a s]. simpl. rewrite decide_True by done. apply Hi.
  - intros [a s] [b t] [c u]. destruct a, b, c; simpl;
      repeat case_decide; try done; apply Ht.
  - intros [a s] [b t]. destruct a, b; simpl;
      repeat case_decide; try done; intros; f_equal; by apply Htot.
Qed.

Lemma py_sorted_id_sorted (l : list charge) : sorted (py_sorted ltb id l).
Proof. apply (py_sorted_sorted ltb id Hord). Qed.

Lemma py_sorted_id_Permutation (l1 l2 : list charge) :
  l1 ≡ₚ l2 → py_sorted ltb id l1 = py_sorted ltb id l2.
Proof.
  intros Hp. apply sorted_Permutation_eq; [apply py_sorted_id_sorted..|].
  by rewrite !py_sorted_Permutation.
Qed.

(** ** The corpus build *)

Lemma processed_from_Ok {A B : Type} (process : A → result B) (g : A → B)
    (items : list A) :
  (∀ x, x ∈ items → process x = Ok (g x)) →
  processed_from process items = (g <$> items, None).
Proof.
  induction items as [|x items IH]; intros Hp; [done|].
  simpl. rewrite (Hp x) by (by left). rewrite IH; [done|].
  intros y Hy. apply Hp. by right.
Qed.

Lemma processed_from_raise {A B : Type} (process : A → result B)
    (items : list A) x e :
  x ∈ items → process x = Raise e →
  ∃ y e', y ∈ items ∧ process y = Raise e' ∧
          (processed_from process items).2 = Some e'.
Proof.
  intros Hx Hpx. induction items as [|z items IH];
    [by apply elem_of_nil in Hx|].
  simpl. destruct (process z) as [b|e'] eqn:Hz.
  - apply elem_of_cons in Hx as [->|Hx]; [congruence|].
    destruct (IH Hx) as (y & e' & Hy & Hpy & Hgen).
    exists y, e'. split_and!; [by right|done..].
  - exists z, e'. split_and!; [by left|done..].
Qed.

Lemma for_each_Ok {A S : Type} (l : list A) (f : A → S → S) (st : S) :
  for_each l (λ x st, Ok (f x st)) st = Ok (foldl (λ st x, f x st) st l).
Proof. revert st. induction l as [|x l IH]; intros st; [done|]. apply IH. Qed.

Lemma merge_list_lookup (shell : Z) (kvs : list (string * list charge))
    (charges : store) (shell' : Z) (key : string) :
  NoDup kvs.*1 →
  bucket_lookup
    (foldl (λ charges kv,
              let d := default ∅ (charges !! shell) in
              <[shell := <[kv.1 := default [] (d !! kv.1) ++ kv.2]> d]> charges)
           charges kvs) shell' key =
    if decide (shell' = shell) then
      match (list_to_map kvs : gmap string (list charge)) !! key with
      | Some values => Some (bucket_of charges shell key ++ values)
      | None => bucket_lookup charges shell key
      end
    else bucket_lookup charges shell' key.
Proof.
  revert charges. induction kvs as [|[k v] kvs IH]; intros charges Hnd.
  { simpl. rewrite lookup_empty. by case_decide; subst. }
  rewrite fmap_cons in Hnd. apply NoDup_cons in Hnd as [Hk Hnd].
  cbn [foldl]. rewrite (IH _ Hnd). cbn [fst snd list_to_map foldr].
  assert (∀ key', bucket_lookup
            (<[shell := <[k := default [] (default ∅ (charges !! shell) !! k) ++ v]>
                          (default ∅ (charges !! shell))]> charges) shell key' =
          if decide (key' = k) then Some (bucket_of charges shell k ++ v)
          else bucket_lookup charges shell key') as Hstep.
  { intros key'. unfold bucket_lookup, bucket_of, bucket_lookup.
    rewrite lookup_insert_eq. simpl.
    destruct (decide (key' = k)) as [->|Hne].
    - rewrite lookup_insert_eq. by destruct (charges !! shell).
    - rewrite lookup_insert_ne by done. by destruct (charges !! shell). }
  destruct (decide (shell' = shell)) as [->|Hne].
  - destruct (decide (key = k)) as [->|Hkey].
    + rewrite lookup_insert_eq.
      rewrite (not_elem_of_list_to_map_1 kvs k Hk). rewrite Hstep.
      by rewrite decide_True.
    + rewrite lookup_insert_ne by done. unfold bucket_of at 1.
      rewrite Hstep, decide_False by done. done.
  - unfold bucket_lookup. by rewrite lookup_insert_ne.
Qed.

Lemma merge_charges_lookup (shell : Z) (c : gmap string (list charge))
    (charges : store) (shell' : Z) (key : string) :
  bucket_lookup (merge_charges shell c charges) shell' key =
    if decide (shell' = shell) then
      match c !! key with
      | Some values => Some (bucket_of charges shell key ++ values)
      | None => bucket_lookup charges shell key
      end
    else bucket_lookup charges shell' key.
Proof.
  unfold merge_charges. rewrite merge_list_lookup.
  - by rewrite list_to_map_to_list.
  - apply NoDup_fst_map_to_list.
Qed.

Lemma merge_charges_other_shell (shell : Z) (c : gmap string (list charge))
    (charges : store) (shell' : Z) :
  shell' ≠ shell → merge_charges shell c charges !! shell' = charges !! shell'.
Proof.
  intros Hne. unfold merge_charges. generalize (map_to_list c). intros kvs.
  revert charges. induction kvs as [|kv kvs IH]; intros charges; [done|].
  cbn [foldl]. rewrite IH. by rewrite lookup_insert_ne.
Qed.

Lemma worker_fold_lookup (l : list (string * charge))
    (acc : gmap string (list charge)) (key : string) :
  foldl (λ charges kp, <[kp.1 := default [] (charges !! kp.1) ++ [kp.2]]> charges)
        acc l !! key =
    match omap (λ kp, if decide (kp.1 = key) then Some kp.2 else None) l with
    | [] => acc !! key
    | new => Some (default [] (acc !! key) ++ new)
    end.
Proof.
  revert acc. induction l as [|[k pc] l IH]; intros acc; [done|].
  cbn [foldl]. rewrite IH. cbn [fst snd].
  set (f := λ kp : string * charge,
              if decide (kp.1 = key) then Some kp.2 else None).
  assert (omap f ((k, pc) :: l) =
            if decide (k = key) then pc :: omap f l else omap f l) as ->.
  { unfold f. simpl. by destruct (decide (k = key)). }
  destruct (decide (k = key)) as [->|Hne].
  - rewrite lookup_insert_eq. cbn [default from_option id].
    destruct (omap f l) as [|x new]; [done|]. by rewrite <-app_assoc.
  - by rewrite lookup_insert_ne.
Qed.

(** The dict that the worker of a shell returns for a graph whose atoms
    all have their charge: under every hash that occurs, the charges of the
    atoms with that hash, in the order of the atoms. *)
Lemma ChargeWorker_process_charged (shell : Z) (graph : Graph charge) :
  all_charged graph →
  ∃ c, ChargeWorker_process shell graph = Ok c ∧
    ∀ key, c !! key =
      match fragments_at graph shell key with
      | [] => None
      | b => Some b
      end.
Proof.
  intros Hc. unfold ChargeWorker_process.
  rewrite for_generated_no_exn by (by apply iter_atomic_fragments_all_charged).
  rewrite (for_each_ext _ _
             (λ kp charges,
                Ok (<[kp.1 := default [] (charges !! kp.1) ++ [kp.2]]> charges)))
    by (by intros [key pc] st).
  rewrite for_each_Ok. eexists. split; [done|].
  intros key. rewrite worker_fold_lookup. unfold fragments_at.
  rewrite lookup_empty. cbn [default app].
  by destruct (omap _ _).
Qed.

Lemma ChargeWorker_process_uncharged (shell : Z) (graph : Graph charge) atom :
  first_uncharged (nodes graph) = Some atom →
  ChargeWorker_process shell graph = Raise (KeyError_partial_charge atom).
Proof.
  intros Hu. destruct (ChargeWorker_process_eq shell graph) as [c ->].
  by rewrite Hu.
Qed.

(** The items that a dict of a worker adds to the charges of a shell. *)
Lemma merge_workers_lookup (shell : Z) (gs : list (Z * Graph charge))
    (wd : Z * Graph charge → gmap string (list charge))
    (charges : store) (shell' : Z) (key : string) :
  (∀ mg, mg ∈ gs → ∀ key, wd mg !! key =
     match fragments_at mg.2 shell key with [] => None | b => Some b end) →
  bucket_lookup
    (foldl (λ charges c, merge_charges shell c charges) charges (wd <$> gs))
    shell' key =
    if decide (shell' = shell) then
      match build_contributions gs shell key with
      | [] => bucket_lookup charges shell key
      | new => Some (bucket_of charges shell key ++ new)
      end
    else bucket_lookup charges shell' key.
Proof.
  revert charges. induction gs as [|mg gs IH]; intros charges Hwd.
  { simpl. by case_decide; subst. }
  rewrite fmap_cons. cbn [foldl]. rewrite IH by (intros; apply Hwd; by right).
  unfold build_contributions. rewrite bind_cons.
  fold (build_contributions gs shell key).
  destruct (decide (shell' = shell)) as [->|Hne].
  - unfold bucket_of at 1. rewrite !merge_charges_lookup, decide_True by done.
    rewrite (Hwd mg) by (by left).
    destruct (fragments_at mg.2 shell key) as [|x b] eqn:Hb.
    + done.
    + cbn [default from_option id].
      destruct (build_contributions gs shell key).
      * by rewrite app_nil_r.
      * by rewrite <-app_assoc.
  - by rewrite merge_charges_lookup, decide_False.
Qed.

Lemma merge_workers_other_shell (shell : Z)
    (cs : list (gmap string (list charge))) (charges : store) (shell' : Z) :
  shell' ≠ shell →
  foldl (λ charges c, merge_charges shell c charges) charges cs !! shell' =
    charges !! shell'.
Proof.
  intros Hne. revert charges. induction cs as [|c cs IH]; intros charges;
    [done|].
  cbn [foldl]. rewrite IH. by apply merge_charges_other_shell.
Qed.

Lemma build_contributions_Permutation (gs1 gs2 : list (Z * Graph charge))
    (shell : Z) (key : string) :
  gs1 ≡ₚ gs2 →
  build_contributions gs1 shell key ≡ₚ build_contributions gs2 shell key.
Proof. intros Hp. unfold build_contributions. by rewrite Hp. Qed.

Lemma charge_pool_charged
    (completion : list (Z * Graph charge) → list (Z * Graph charge))
    (shell : Z) (graphs : list (Z * Graph charge)) (charges : store) :
  Forall (λ mg, all_charged mg.2) graphs → completion graphs ≡ₚ graphs →
  ∃ charges',
    for_generated
      (processed completion (λ mg, ChargeWorker_process shell mg.2) graphs)
      (λ c charges, Ok (merge_charges shell c charges)) charges = Ok charges' ∧
    (∀ shell', shell' ≠ shell → charges' !! shell' = charges !! shell') ∧
    (∀ key, bucket_lookup charges' shell key =
       match build_contributions (completion graphs) shell key with
       | [] => bucket_lookup charges shell key
       | new => Some (bucket_of charges shell key ++ new)
       end).
Proof.
  intros Hc Hp.
  set (wd := λ mg : Z * Graph charge,
               match ChargeWorker_process shell mg.2 with
               | Ok c => c
               | Raise _ => ∅
               end).
  assert (∀ mg, mg ∈ completion graphs →
            ChargeWorker_process shell mg.2 = Ok (wd mg) ∧
            ∀ key, wd mg !! key =
              match fragments_at mg.2 shell key with
              | [] => None
              | b => Some b
              end) as Hwd.
  { intros mg Hmg. rewrite Hp in Hmg. rewrite Forall_forall in Hc.
    destruct (ChargeWorker_process_charged shell mg.2 (Hc mg Hmg))
      as (c & Hw & Hlook).
    unfold wd. by rewrite Hw. }
  unfold processed.
  rewrite (processed_from_Ok _ wd) by (intros mg Hmg; by apply Hwd).
  rewrite for_generated_no_exn by done. cbn [fst].
  rewrite for_each_Ok. eexists. split; [done|]. split.
  - intros shell' Hne. by apply merge_workers_other_shell.
  - intros key. rewrite merge_workers_lookup by (intros; by apply Hwd).
    by rewrite decide_True.
Qed.

Lemma charge_loop_charged
    (completion : Z → list (Z * Graph charge) → list (Z * Graph charge))
    (graphs : list (Z * Graph charge)) (shs : list Z) (charges : store) :
  NoDup shs → Forall (λ mg, all_charged mg.2) graphs →
  (∀ shell, completion shell graphs ≡ₚ graphs) →
  ∃ charges',
    for_each shs (λ shell charges,
      for_generated
        (processed (completion shell)
           (λ mg, ChargeWorker_process shell mg.2) graphs)
        (λ c charges, Ok (merge_charges shell c charges)) charges) charges
      = Ok charges' ∧
    (∀ shell, shell ∉ shs → charges' !! shell = charges !! shell) ∧
    (∀ shell key, shell ∈ shs →
       bucket_lookup charges' shell key =
         match build_contributions (completion shell graphs) shell key with
         | [] => bucket_lookup charges shell key
         | new => Some (bucket_of charges shell key ++ new)
         end).
Proof.
  intros Hnd Hc Hp. revert charges.
  induction shs as [|sh shs IH]; intros charges.
  { exists charges. split_and!; [done..|]. by intros shell key ?%elem_of_nil. }
  apply NoDup_cons in Hnd as [Hsh Hnd].
  destruct (charge_pool_charged (completion sh) sh graphs charges Hc (Hp sh))
    as (charges1 & Hpool & Hother & Hlook).
  destruct (IH Hnd charges1) as (charges' & Hloop & Hother' & Hlook').
  exists charges'. cbn [for_each]. rewrite Hpool. cbn [mbind result_bind].
  split_and!; [done| |].
  - intros shell Hnin. rewrite not_elem_of_cons in Hnin.
    destruct Hnin as [Hne Hnin]. rewrite Hother' by done. by apply Hother.
  - intros shell key [->|Hin]%elem_of_cons.
    + unfold bucket_lookup at 1. rewrite Hother' by done. apply Hlook.
    + rewrite Hlook' by done.
      assert (shell ≠ sh) as Hne by (by intros ->).
      unfold bucket_of, bucket_lookup. by rewrite Hother.
Qed.

Lemma sort_loop_lookup (shs : list Z) (charges : store) (shell : Z) :
  NoDup shs →
  foldl (λ charges shell,
           <[shell := py_sorted ltb id <$> default ∅ (charges !! shell)]> charges)
        charges shs !! shell =
    if decide (shell ∈ shs)
    then Some (py_sorted ltb id <$> default ∅ (charges !! shell))
    else charges !! shell.
Proof.
  revert charges. induction shs as [|sh shs IH]; intros charges Hnd.
  { cbn [foldl]. rewrite decide_False; [done|]. apply not_elem_of_nil. }
  apply NoDup_cons in Hnd as [Hsh Hnd]. cbn [foldl]. rewrite IH by done.
  destruct (decide (shell ∈ shs)) as [Hin|Hnin].
  - rewrite decide_True by (by right).
    assert (shell ≠ sh) as Hne by (by intros ->).
    by rewrite lookup_insert_ne.
  - destruct (decide (shell = sh)) as [->|Hne].
    + rewrite decide_True by (by left). by rewrite lookup_insert_eq.
    + rewrite decide_False by (by intros [?|?]%elem_of_cons).
      by rewrite lookup_insert_ne.
Qed.

Lemma generate_charges_charged
    (completion : Z → list (Z * Graph charge) → list (Z * Graph charge))
    (self : Repository charge) (graphs : list (Z * Graph charge)) :
  Forall (λ mg, all_charged mg.2) graphs →
  (∀ shell, completion shell graphs ≡ₚ graphs) →
  ∃ charges, generate_charges completion self graphs = Ok charges ∧
    (∀ shell, is_Some (charges !! shell) ↔ shell ∈ build_shells self) ∧
    (∀ shell key, bucket_lookup charges shell key =
       if decide (shell ∈ build_shells self ∧
                  build_contributions graphs shell key ≠ [])
       then Some (py_sorted ltb id (build_contributions graphs shell key))
       else None).
Proof.
  intros Hc Hp. unfold generate_charges.
  assert (NoDup (build_shells self)) as Hnd by apply NoDup_seqZ.
  destruct (charge_loop_charged completion graphs (build_shells self) ∅
              Hnd Hc Hp) as (charges1 & -> & Hother & Hlook).
  cbn [mbind result_bind]. eexists. split; [done|]. split.
  - intros shell. rewrite sort_loop_lookup by done.
    destruct (decide (shell ∈ build_shells self)) as [Hin|Hnin].
    + split; [done|by eexists].
    + rewrite Hother by done. rewrite lookup_empty. split; [|done].
      by intros [? [=]].
  - intros shell key. unfold bucket_lookup at 1.
    rewrite sort_loop_lookup by done.
    destruct (decide (shell ∈ build_shells self)) as [Hin|Hnin].
    + cbn [mbind option_bind]. rewrite lookup_fmap.
      assert (default ∅ (charges1 !! shell) !! key =
                bucket_lookup charges1 shell key) as ->.
      { unfold bucket_lookup. by destruct (charges1 !! shell). }
      rewrite Hlook by done.
      pose proof (build_contributions_Permutation _ _ shell key (Hp shell))
        as Hperm.
      destruct (build_contributions (completion shell graphs) shell key)
        as [|x b] eqn:Hb.
      * apply Permutation_nil_l in Hperm. rewrite <-Hperm.
        rewrite decide_False by (by intros [_ ?]).
        unfold bucket_lookup. by rewrite lookup_empty.
      * rewrite decide_True.
        2:{ split; [done|]. intros Hnil. rewrite Hnil in Hperm.
            by apply Permutation_nil_r in Hperm. }
        unfold bucket_of, bucket_lookup. rewrite lookup_empty.
        cbn [mbind option_bind default from_option id app fmap option_fmap
             option_map].
        by rewrite (py_sorted_id_Permutation _ _ Hperm).
    + rewrite Hother by done. rewrite decide_False by (by intros [? _]).
      by rewrite lookup_empty.
Qed.

Lemma elem_of_build_shells (self : Repository charge) (shell : Z) :
  shell ∈ build_shells self ↔ min_shell self ≤ shell ≤ max_shell self.
Proof. unfold build_shells. rewrite elem_of_seqZ. lia. Qed.

Lemma store_eq_lookup (repo1 repo2 : store) :
  (∀ shell, is_Some (repo1 !! shell) ↔ is_Some (repo2 !! shell)) →
  (∀ shell key, bucket_lookup repo1 shell key = bucket_lookup repo2 shell key) →
  repo1 = repo2.
Proof.
  intros Hdom Hlook. apply map_eq. intros shell.
  specialize (Hdom shell). pose proof (Hlook shell) as Hl.
  unfold bucket_lookup in Hl.
  destruct (repo1 !! shell) as [d1|], (repo2 !! shell) as [d2|]; simpl in *.
  - f_equal. by apply map_eq.
  - by destruct (proj1 Hdom) as [? [=]].
  - by destruct (proj2 Hdom) as [? [=]].
  - done.
Qed.

Lemma sorted_contributions_holds (charges : store) (P : Z → Prop)
    `{∀ shell, Decision (P shell)} (contrib : Z → string → list charge) :
  (∀ shell key, bucket_lookup charges shell key =
     if decide (P shell ∧ contrib shell key ≠ [])
     then Some (py_sorted ltb id (contrib shell key)) else None) →
  wf_buckets charges ∧
  holds_exactly charges (λ shell key,
    if decide (P shell) then contrib shell key else []).
Proof.
  intros Hlook.
  assert (∀ l : list charge, l ≠ [] → py_sorted ltb id l ≠ []) as Hne.
  { intros l Hl Hnil. apply Hl. apply Permutation_nil_r. rewrite <-Hnil.
    symmetry. apply py_sorted_Permutation. }
  split.
  - intros shell key b. rewrite Hlook. case_decide as Hd; [|done].
    intros Hb. injection Hb as <-. split; [|apply py_sorted_id_sorted].
    apply Hne. by destruct Hd.
  - intros shell key. rewrite Hlook.
    destruct (decide (P shell)) as [HP|HP].
    + destruct (decide (contrib shell key = [])) as [Hnil|Hcn].
      * by rewrite decide_False by (by intros [_ ?]).
      * rewrite decide_True by done.
        split_and!; [by apply Hne|apply py_sorted_id_sorted|].
        apply py_sorted_Permutation.
    + by rewrite decide_False by (by intros [? _]).
Qed.

Lemma sorted_contributions_Permutation (charges : store) (P : Z → Prop)
    `{∀ shell, Decision (P shell)} (contrib1 contrib2 : Z → string → list charge) :
  (∀ shell key, contrib1 shell key ≡ₚ contrib2 shell key) →
  (∀ shell key, bucket_lookup charges shell key =
     if decide (P shell ∧ contrib1 shell key ≠ [])
     then Some (py_sorted ltb id (contrib1 shell key)) else None) →
  ∀ shell key, bucket_lookup charges shell key =
    if decide (P shell ∧ contrib2 shell key ≠ [])
    then Some (py_sorted ltb id (contrib2 shell key)) else None.
Proof.
  intros Hperm Hlook shell key. rewrite Hlook.
  rewrite (py_sorted_id_Permutation _ _ (Hperm shell key)).
  apply decide_ext. specialize (Hperm shell key).
  split; intros [HP Hne]; (split; [done|]); intros Hnil; apply Hne;
    rewrite Hnil in Hperm.
  - by apply Permutation_nil_r in Hperm.
  - by apply Permutation_nil_l in Hperm.
Qed.

(** [__generate_charges] on graphs whose atoms all have their charge,
    whatever the order in which the pools hand back their results: the
    store has an entry for exactly the shells [min_shell .. max_shell];
    every bucket is sorted and not empty, and the bucket of a shell and a
    hash holds exactly the charges of the atoms of all graphs whose
    neighbourhood of that shell has that hash. *)
Theorem generate_charges_buckets
    (completion : Z → list (Z * Graph charge) → list (Z * Graph charge))
    (self : Repository charge) (graphs : list (Z * Graph charge)) :
  Forall (λ mg, all_charged mg.2) graphs →
  (∀ shell, completion shell graphs ≡ₚ graphs) →
  ∃ charges, generate_charges completion self graphs = Ok charges ∧
    (∀ shell, is_Some (charges !! shell) ↔
              min_shell self ≤ shell ≤ max_shell self) ∧
    wf_buckets charges ∧
    holds_exactly charges (λ shell key,
      if decide (min_shell self ≤ shell ≤ max_shell self)
      then build_contributions graphs shell key else []).
Proof.
  intros Hc Hp.
  destruct (generate_charges_charged completion self graphs Hc Hp)
    as (charges & Hgen & Hdom & Hlook).
  exists charges. split; [done|]. split.
  { intros shell. by rewrite Hdom, elem_of_build_shells. }
  apply (sorted_contributions_holds charges
           (λ shell, min_shell self ≤ shell ≤ max_shell self)).
  intros shell key. rewrite Hlook. apply decide_ext.
  by rewrite elem_of_build_shells.
Qed.

(** The store that [__generate_charges] returns does not depend on the
    order in which the workers complete, nor on the order in which the
    graphs were read: concatenating the lists of the workers and sorting
    them at the end gives the same buckets. *)
Theorem generate_charges_order_independent
    (completion1 completion2 :
       Z → list (Z * Graph charge) → list (Z * Graph charge))
    (self : Repository charge) (graphs1 graphs2 : list (Z * Graph charge)) :
  Forall (λ mg, all_charged mg.2) graphs1 → graphs1 ≡ₚ graphs2 →
  (∀ shell, completion1 shell graphs1 ≡ₚ graphs1) →
  (∀ shell, completion2 shell graphs2 ≡ₚ graphs2) →
  generate_charges completion1 self graphs1 =
    generate_charges completion2 self graphs2.
Proof.
  intros Hc1 Hperm Hp1 Hp2.
  assert (Forall (λ mg, all_charged mg.2) graphs2) as Hc2
    by (by rewrite <-Hperm).
  destruct (generate_charges_charged completion1 self graphs1 Hc1 Hp1)
    as (charges1 & -> & Hdom1 & Hlook1).
  destruct (generate_charges_charged completion2 self graphs2 Hc2 Hp2)
    as (charges2 & -> & Hdom2 & Hlook2).
  f_equal. apply store_eq_lookup.
  - intros shell. by rewrite Hdom1, Hdom2.
  - intros shell key. rewrite Hlook1, Hlook2.
    pose proof (build_contributions_Permutation _ _ shell key Hperm) as Hb.
    rewrite (py_sorted_id_Permutation _ _ Hb).
    apply decide_ext. split; intros [Hin Hne]; (split; [done|]);
      intros Hnil; apply Hne; rewrite Hnil in Hb.
    + by apply Permutation_nil_r in Hb.
    + by apply Permutation_nil_l in Hb.
Qed.

Lemma for_generated_raise {A S : Type} (gen : generator A) (f : A → S → S)
    (st : S) (e : exn) :
  gen.2 = Some e → for_generated gen (λ x st, Ok (f x st)) st = Raise e.
Proof. intros He. unfold for_generated. by rewrite for_each_Ok, He. Qed.

Lemma generate_charges_raise
    (completion : Z → list (Z * Graph charge) → list (Z * Graph charge))
    (self : Repository charge) (graphs : list (Z * Graph charge))
    (mg : Z * Graph charge) (atom : Z) :
  mg ∈ graphs → first_uncharged (nodes mg.2) = Some atom →
  (∀ shell, completion shell graphs ≡ₚ graphs) →
  min_shell self ≤ max_shell self →
  ∃ mg' atom', mg' ∈ graphs ∧
    first_uncharged (nodes mg'.2) = Some atom' ∧
    generate_charges completion self graphs =
      Raise (KeyError_partial_charge atom').
Proof.
  intros Hmg Hu Hp Hle. unfold generate_charges, build_shells.
  rewrite seqZ_cons by lia. cbn [for_each].
  destruct (processed_from_raise (λ mg, ChargeWorker_process (min_shell self) mg.2)
              (completion (min_shell self) graphs) mg
              (KeyError_partial_charge atom))
    as (mg' & e' & Hmg' & Hraise & Hgen).
  { by rewrite Hp. }
  { by apply ChargeWorker_process_uncharged. }
  destruct (ChargeWorker_process_eq (min_shell self) mg'.2) as [c Hw].
  rewrite Hraise in Hw.
  destruct (first_uncharged (nodes mg'.2)) as [atom'|] eqn:Hu'; [|done].
  injection Hw as ->. exists mg', atom'.
  split_and!; [by rewrite <-(Hp (min_shell self))|done|].
  by rewrite (for_generated_raise _ _ _ _ Hgen).
Qed.

(** A graph with an atom without [partial_charge] aborts
    [__generate_charges] as soon as one shell is processed: it raises the
    KeyError that names the first such atom of one of the graphs (which
    graph depends on the order in which the workers complete).  With
    [max_shell < min_shell] no shell is processed and the result is the
    empty store, whatever the graphs are. *)
Theorem generate_charges_uncharged
    (completion : Z → list (Z * Graph charge) → list (Z * Graph charge))
    (self : Repository charge) (graphs : list (Z * Graph charge))
    (mg : Z * Graph charge) (atom : Z) :
  mg ∈ graphs → first_uncharged (nodes mg.2) = Some atom →
  (∀ shell, completion shell graphs ≡ₚ graphs) →
  (min_shell self ≤ max_shell self →
     ∃ mg' atom', mg' ∈ graphs ∧
       first_uncharged (nodes mg'.2) = Some atom' ∧
       generate_charges completion self graphs =
         Raise (KeyError_partial_charge atom')) ∧
  (max_shell self < min_shell self →
     generate_charges completion self graphs = Ok ∅).
Proof.
  intros Hmg Hu Hp. split.
  - intros Hle. by apply (generate_charges_raise _ _ _ mg atom).
  - intros Hlt. unfold generate_charges, build_shells.
    rewrite (seqZ_nil (min_shell self)) by lia. done.
Qed.

Lemma read_graphs_from (l : list Z) (acc : list (Z * Graph charge)) :
  (∀ molid, molid ∈ l → is_Some (convert_from_file molid)) →
  for_generated (processed_from ReadWorker_process l)
    (λ mg graphs, Ok (graphs ++ [mg])) acc = Ok (acc ++ file_graphs l).
Proof.
  revert acc. induction l as [|molid l IH]; intros acc Hf.
  { unfold for_generated, file_graphs. simpl. by rewrite app_nil_r. }
  destruct (Hf molid ltac:(by left)) as [graph Hg].
  specialize (IH (acc ++ [(molid, graph)]) ltac:(intros; apply Hf; by right)).
  unfold file_graphs. cbn [omap list_omap processed_from].
  unfold ReadWorker_process at 1. rewrite Hg.
  cbn [of_option mbind result_bind fmap option_fmap option_map].
  unfold for_generated in *. cbn [fst snd for_each mbind result_bind].
  rewrite IH. unfold file_graphs. by rewrite <-app_assoc.
Qed.

Lemma read_graphs_Ok (completion : list Z → list Z) (molids : list Z) :
  (∀ molid, molid ∈ molids → is_Some (convert_from_file molid)) →
  completion molids ≡ₚ molids →
  read_graphs completion molids = Ok (file_graphs (completion molids)).
Proof.
  intros Hf Hp. unfold read_graphs, processed.
  rewrite read_graphs_from; [done|].
  intros molid Hm. apply Hf. by rewrite <-Hp.
Qed.

Lemma file_graphs_Permutation (l1 l2 : list Z) :
  l1 ≡ₚ l2 → file_graphs l1 ≡ₚ file_graphs l2.
Proof. intros Hp. unfold file_graphs. by rewrite Hp. Qed.

Lemma elem_graphs_Permutation (l1 l2 : list Z) :
  l1 ≡ₚ l2 → elem_graphs l1 ≡ₚ elem_graphs l2.
Proof. intros Hp. unfold elem_graphs. by rewrite Hp. Qed.

Lemma elem_of_file_graphs (l : list Z) (molid : Z) (graph : Graph charge) :
  (molid, graph) ∈ file_graphs l ↔
  molid ∈ l ∧ convert_from_file molid = Some graph.
Proof.
  unfold file_graphs. rewrite list_elem_of_omap. split.
  - intros (m & Hm & Hg). destruct (convert_from_file m) eqn:Hf; [|done].
    by injection Hg as -> ->.
  - intros [Hm Hg]. exists molid. by rewrite Hg.
Qed.

Lemma elem_of_elem_graphs (l : list Z) (molid : Z) (graph' : Graph charge) :
  (molid, graph') ∈ elem_graphs l ↔
  molid ∈ l ∧ ∃ graph, convert_from_file molid = Some graph ∧
                       to_elements graph = Ok graph'.
Proof.
  unfold elem_graphs. rewrite list_elem_of_omap. split.
  - intros (m & Hm & Hg). destruct (convert_from_file m) as [g|] eqn:Hf;
      [|done].
    simpl in Hg. destruct (to_elements g) eqn:Ht; [|done].
    injection Hg as -> ->. eauto.
  - intros (Hm & g & Hg & Ht). exists molid. by rewrite Hg; simpl; rewrite Ht.
Qed.

Lemma elem_graphs_result_map (l : list Z) :
  (∀ molid, molid ∈ l → processable molid) →
  result_map (λ mg, graph ← to_elements mg.2; Ok (mg.1, graph)) (file_graphs l)
    = Ok (elem_graphs l).
Proof.
  induction l as [|molid l IH]; intros Hp; [done|].
  destruct (Hp molid ltac:(by left)) as (graph & graph' & Hf & Ht & _).
  unfold file_graphs, elem_graphs in *. cbn [omap list_omap].
  rewrite Hf. cbn [fmap option_fmap option_map mbind option_bind].
  rewrite Ht. cbn [result_map snd fst]. rewrite Ht. cbn [mbind result_bind].
  rewrite IH by (intros; apply Hp; by right). done.
Qed.

Lemma foldl_canons_keep (l : list (Z * string)) (acc : gmap Z string)
    (molid : Z) :
  is_Some (acc !! molid) →
  is_Some (foldl (λ canons mc, <[mc.1 := mc.2]> canons) acc l !! molid).
Proof.
  revert acc. induction l as [|[m c] l IH]; intros acc Hs; [done|].
  cbn [foldl fst snd]. apply IH. destruct (decide (m = molid)) as [->|Hne].
  - rewrite lookup_insert_eq. by eexists.
  - by rewrite lookup_insert_ne.
Qed.

Lemma foldl_canons_elem (l : list (Z * string)) (acc : gmap Z string)
    (molid : Z) :
  molid ∈ l.*1 →
  is_Some (foldl (λ canons mc, <[mc.1 := mc.2]> canons) acc l !! molid).
Proof.
  revert acc. induction l as [|[m c] l IH]; intros acc Hin.
  { by apply elem_of_nil in Hin. }
  rewrite fmap_cons in Hin. cbn [foldl fst snd] in *.
  apply elem_of_cons in Hin as [Heq|Hin]; [|by apply IH].
  apply foldl_canons_keep. rewrite Heq, lookup_insert_eq. by eexists.
Qed.

Lemma foldl_canons_Some (l : list (Z * string)) (acc : gmap Z string)
    (molid : Z) (c : string) :
  foldl (λ canons mc, <[mc.1 := mc.2]> canons) acc l !! molid = Some c →
  (molid, c) ∈ l ∨ acc !! molid = Some c.
Proof.
  revert acc. induction l as [|[m c'] l IH]; intros acc Hc; [by right|].
  cbn [foldl fst snd] in Hc. apply IH in Hc as [Hin|Hacc]; [left; by right|].
  destruct (decide (m = molid)) as [->|Hne].
  - rewrite lookup_insert_eq in Hacc. injection Hacc as ->. left. by left.
  - rewrite lookup_insert_ne in Hacc by done. by right.
Qed.

Lemma make_canons_Ok (canonize : Graph charge → string)
    (completion : list (Z * Graph charge) → list (Z * Graph charge))
    (graphs : list (Z * Graph charge)) :
  completion graphs ≡ₚ graphs →
  ∃ canons, make_canons canonize completion graphs = Ok canons ∧
    (∀ molid, molid ∈ graphs.*1 → is_Some (canons !! molid)) ∧
    (∀ molid c, canons !! molid = Some c →
       ∃ graph, (molid, graph) ∈ graphs ∧ c = canonize graph).
Proof.
  intros Hp. unfold make_canons, processed.
  rewrite (processed_from_Ok _ (λ mg, (mg.1, canonize mg.2))) by done.
  rewrite for_generated_no_exn by done. cbn [fst]. rewrite for_each_Ok.
  eexists. split; [done|]. split.
  - intros molid Hm. apply foldl_canons_elem.
    rewrite <-list_fmap_compose. by rewrite <-Hp in Hm.
  - intros molid c Hc.
    apply foldl_canons_Some in Hc as [Hin|Hc];
      [|by rewrite lookup_empty in Hc].
    apply list_elem_of_fmap in Hin as ([m g] & [= -> ->] & Hin).
    exists g. rewrite Hp in Hin. done.
Qed.

Lemma make_isomorphics_total (molids : list Z) (canons : gmap Z string) :
  (∀ molid, molid ∈ molids → is_Some (canons !! molid)) →
  ∃ iso, make_isomorphics molids canons = Ok iso.
Proof.
  intros Hc. unfold make_isomorphics. rewrite decide_True; [by eexists|].
  by apply Forall_forall.
Qed.

Lemma processable_file_graphs (l : list Z) :
  (∀ molid, molid ∈ l → processable molid) →
  Forall (λ mg, all_charged mg.2) (file_graphs l) ∧
  Forall (λ mg, all_charged mg.2) (elem_graphs l).
Proof.
  intros Hp. split; apply Forall_forall; intros [m g].
  - intros [Hm Hg]%elem_of_file_graphs.
    destruct (Hp m Hm) as (graph & graph' & Hf & _ & Hc).
    simpl. congruence.
  - intros (Hm & g0 & Hg & Ht)%elem_of_elem_graphs.
    destruct (Hp m Hm) as (graph & graph' & Hf & _ & Hc).
    simpl. apply (to_elements_all_charged g0); [done|]. congruence.
Qed.

Lemma create_from_Ok (canonize : Graph charge → string) (sched : schedule charge)
    (molids : list Z) (mn mx : Z) :
  fair sched → (∀ molid, molid ∈ molids → processable molid) →
  ∃ c_iacm c_elem canons_iacm canons_elem i_iacm i_elem,
    create_from canonize sched molids mn mx =
      Ok {| min_shell := Z.max mn 0; max_shell := mx;
            charges_iacm := c_iacm; charges_elem := c_elem;
            iso_iacm := Some i_iacm; iso_elem := Some i_elem |} ∧
    (∀ shell, is_Some (c_iacm !! shell) ↔ Z.max mn 0 ≤ shell ≤ mx) ∧
    (∀ shell, is_Some (c_elem !! shell) ↔ Z.max mn 0 ≤ shell ≤ mx) ∧
    (∀ shell key, bucket_lookup c_iacm shell key =
       if decide (Z.max mn 0 ≤ shell ≤ mx ∧
                  build_contributions (file_graphs molids) shell key ≠ [])
       then Some (py_sorted ltb id
                    (build_contributions (file_graphs molids) shell key))
       else None) ∧
    (∀ shell key, bucket_lookup c_elem shell key =
       if decide (Z.max mn 0 ≤ shell ≤ mx ∧
                  build_contributions (elem_graphs molids) shell key ≠ [])
       then Some (py_sorted ltb id
                    (build_contributions (elem_graphs molids) shell key))
       else None) ∧
    make_isomorphics molids canons_iacm = Ok i_iacm ∧
    make_isomorphics molids canons_elem = Ok i_elem ∧
    ∀ molid graph graph', molid ∈ molids →
      convert_from_file molid = Some graph → to_elements graph = Ok graph' →
      canons_iacm !! molid = Some (canonize graph) ∧
      canons_elem !! molid = Some (canonize graph').
Proof.
  intros (Hread & Hcharge & Hcanon) Hproc.
  set (repo := Repository_init mn mx : Repository charge).
  assert (∀ molid, molid ∈ molids → is_Some (convert_from_file molid)) as Hfile.
  { intros molid Hm. destruct (Hproc molid Hm) as (g & _ & -> & _). by eexists. }
  assert (∀ molid, molid ∈ read_order sched molids → processable molid)
    as Hproc'.
  { intros molid Hm. apply Hproc. by rewrite <-(Hread molids). }
  destruct (processable_file_graphs _ Hproc') as [Hci Hce].
  unfold create_from. fold repo.
  rewrite (read_graphs_Ok _ _ Hfile (Hread molids)).
  cbn [mbind result_bind].
  set (graphs := file_graphs (read_order sched molids)) in *.
  set (graphs' := elem_graphs (read_order sched molids)) in *.
  destruct (generate_charges_charged (charge_order sched true) repo graphs Hci
              (λ shell, Hcharge true shell graphs))
    as (c_iacm & -> & Hdomi & Hlooki).
  cbn [mbind result_bind].
  destruct (make_canons_Ok canonize (canon_order sched true) graphs
              (Hcanon true graphs)) as (canons_iacm & -> & Hcdi & Hcvi).
  cbn [mbind result_bind].
  assert (∀ molid, molid ∈ molids → molid ∈ graphs.*1) as Hin.
  { intros molid Hm. destruct (Hfile molid Hm) as [g Hg].
    apply list_elem_of_fmap. exists (molid, g). split; [done|].
    apply elem_of_file_graphs. by rewrite (Hread molids). }
  assert (∀ molid, molid ∈ molids → molid ∈ graphs'.*1) as Hin'.
  { intros molid Hm. destruct (Hproc molid Hm) as (g & g' & Hg & Ht & _).
    apply list_elem_of_fmap. exists (molid, g'). split; [done|].
    apply elem_of_elem_graphs. rewrite (Hread molids). eauto. }
  destruct (make_isomorphics_total molids canons_iacm) as [i_iacm Hi].
  { intros molid Hm. by apply Hcdi, Hin. }
  rewrite Hi. cbn [mbind result_bind].
  unfold graphs at 1. rewrite (elem_graphs_result_map _ Hproc').
  cbn [mbind result_bind]. fold graphs'.
  destruct (generate_charges_charged (charge_order sched false) repo graphs'
              Hce (λ shell, Hcharge false shell graphs'))
    as (c_elem & -> & Hdome & Hlooke).
  cbn [mbind result_bind].
  destruct (make_canons_Ok canonize (canon_order sched false) graphs'
              (Hcanon false graphs')) as (canons_elem & -> & Hcde & Hcve).
  cbn [mbind result_bind].
  destruct (make_isomorphics_total molids canons_elem) as [i_elem He].
  { intros molid Hm. by apply Hcde, Hin'. }
  rewrite He. cbn [mbind result_bind].
  exists c_iacm, c_elem, canons_iacm, canons_elem, i_iacm, i_elem.
  split_and!; [done| | | | |done|done|].
  - intros shell. by rewrite Hdomi, elem_of_build_shells.
  - intros shell. by rewrite Hdome, elem_of_build_shells.
  - apply (sorted_contributions_Permutation c_iacm
             (λ shell, Z.max mn 0 ≤ shell ≤ mx)
             (build_contributions graphs)).
    + intros shell key. apply build_contributions_Permutation.
      apply file_graphs_Permutation, Hread.
    + intros shell key. rewrite Hlooki. apply decide_ext.
      by rewrite elem_of_build_shells.
  - apply (sorted_contributions_Permutation c_elem
             (λ shell, Z.max mn 0 ≤ shell ≤ mx)
             (build_contributions graphs')).
    + intros shell key. apply build_contributions_Permutation.
      apply elem_graphs_Permutation, Hread.
    + intros shell key. rewrite Hlooke. apply decide_ext.
      by rewrite elem_of_build_shells.
  - intros molid graph graph0 Hm Hg Ht. split.
    + destruct (Hcdi molid (Hin molid Hm)) as [c Hc]. rewrite Hc.
      destruct (Hcvi molid c Hc) as (g & Hgin & ->).
      apply elem_of_file_graphs in Hgin as [_ Hgin]. congruence.
    + destruct (Hcde molid (Hin' molid Hm)) as [c Hc]. rewrite Hc.
      destruct (Hcve molid c Hc) as (g & Hgin & ->).
      apply elem_of_elem_graphs in Hgin as (_ & g0 & Hg0 & Ht0). congruence.
Qed.

(** [Repository.create_from] on a directory whose files can all be
    processed, whatever the order in which the pools hand back their
    results: it returns a repository with the lower bound
    [max(min_shell, 0)]; both stores have an entry for exactly the shells
    between the bounds; all buckets are sorted and not empty, and each holds
    exactly the charges that the molecules of the directory contribute under
    that typing; the two indices are what [__make_isomorphics] gives for the
    canonical hashes of the molecules under the two typings. *)
Theorem create_from_spec (canonize : Graph charge → string) (sched : schedule charge)
    (molids : list Z) (mn mx : Z) :
  fair sched → (∀ molid, molid ∈ molids → processable molid) →
  ∃ repo, create_from canonize sched molids mn mx = Ok repo ∧
    min_shell repo = Z.max mn 0 ∧ max_shell repo = mx ∧
    (∀ shell, is_Some (charges_iacm repo !! shell) ↔ Z.max mn 0 ≤ shell ≤ mx) ∧
    (∀ shell, is_Some (charges_elem repo !! shell) ↔ Z.max mn 0 ≤ shell ≤ mx) ∧
    wf_buckets (charges_iacm repo) ∧ wf_buckets (charges_elem repo) ∧
    holds_exactly (charges_iacm repo) (λ shell key,
      if decide (Z.max mn 0 ≤ shell ≤ mx)
      then build_contributions (file_graphs molids) shell key else []) ∧
    holds_exactly (charges_elem repo) (λ shell key,
      if decide (Z.max mn 0 ≤ shell ≤ mx)
      then build_contributions (elem_graphs molids) shell key else []) ∧
    ∃ canons_iacm canons_elem i_iacm i_elem,
      iso_iacm repo = Some i_iacm ∧ iso_elem repo = Some i_elem ∧
      make_isomorphics molids canons_iacm = Ok i_iacm ∧
      make_isomorphics molids canons_elem = Ok i_elem ∧
      ∀ molid graph graph', molid ∈ molids →
        convert_from_file molid = Some graph → to_elements graph = Ok graph' →
        canons_iacm !! molid = Some (canonize graph) ∧
        canons_elem !! molid = Some (canonize graph').
Proof.
  intros Hfair Hproc.
  destruct (create_from_Ok canonize sched molids mn mx Hfair Hproc)
    as (c_iacm & c_elem & canons_iacm & canons_elem & i_iacm & i_elem &
        Hcreate & Hdomi & Hdome & Hlooki & Hlooke & Hi & He & Hcanons).
  destruct (sorted_contributions_holds c_iacm
              (λ shell, Z.max mn 0 ≤ shell ≤ mx) _ Hlooki) as [Hwfi Hholdi].
  destruct (sorted_contributions_holds c_elem
              (λ shell, Z.max mn 0 ≤ shell ≤ mx) _ Hlooke) as [Hwfe Hholde].
  eexists. split; [exact Hcreate|]. cbn.
  split_and!; [done..|]. by exists canons_iacm, canons_elem, i_iacm, i_elem.
Qed.

Lemma charges_at_shells (graph : Graph charge) (shs : list Z) (shell : Z)
    (key : string) :
  NoDup shs →
  charges_at shell key
    (sh ← shs; (λ kp, (sh, kp.1, kp.2)) <$> (_iter_atomic_fragments graph sh).1)
    = if decide (shell ∈ shs) then fragments_at graph shell key else [].
Proof.
  induction shs as [|sh shs IH]; intros Hnd.
  { rewrite decide_False; [done|]. apply not_elem_of_nil. }
  apply NoDup_cons in Hnd as [Hsh Hnd].
  rewrite bind_cons, charges_at_app, IH by done.
  assert (∀ l : list (string * charge),
            charges_at shell key ((λ kp, (sh, kp.1, kp.2)) <$> l) =
            if decide (sh = shell)
            then omap (λ kp, if decide (kp.1 = key) then Some kp.2 else None) l
            else []) as Hone.
  { intros l. unfold charges_at.
    set (F := λ o : Z * string * charge,
                if decide (o.1.1 = shell ∧ o.1.2 = key) then Some o.2 else None).
    set (G := λ kp : string * charge,
                if decide (kp.1 = key) then Some kp.2 else None).
    induction l as [|[k pc] l IHl].
    - simpl. by destruct (decide (sh = shell)).
    - rewrite fmap_cons.
      assert (∀ x xs, omap F (x :: xs) =
                match F x with
                | Some y => y :: omap F xs
                | None => omap F xs
                end) as HF by done.
      assert (∀ x xs, omap G (x :: xs) =
                match G x with
                | Some y => y :: omap G xs
                | None => omap G xs
                end) as HG by done.
      rewrite HF, HG.
      rewrite IHl. unfold F, G. cbn [fst snd].
      destruct (decide (sh = shell)) as [->|Hne].
      + destruct (decide (k = key)) as [->|Hk].
        * by rewrite decide_True.
        * by rewrite decide_False by (by intros [_ ?]).
      + by rewrite decide_False by (by intros [? _]). }
  rewrite Hone. clear Hone. destruct (decide (sh = shell)) as [->|Hne].
  - rewrite (decide_False (P := shell ∈ shs)) by done.
    rewrite decide_True by (by left). by rewrite app_nil_r.
  - destruct (decide (shell ∈ shs)) as [Hin|Hnin].
    + by rewrite decide_True by (by right).
    + by rewrite decide_False by (by intros [?|?]%elem_of_cons).
Qed.

Lemma charges_at_observations (graph : Graph charge) (mx shell : Z)
    (key : string) :
  charges_at shell key (observations graph mx) =
    if decide (1 ≤ shell ≤ mx) then fragments_at graph shell key else [].
Proof.
  unfold observations. rewrite charges_at_shells by apply NoDup_seqZ.
  apply decide_ext. rewrite elem_of_seqZ. lia.
Qed.

Lemma contributions_build (mx : Z) (cur : list Z) (shell : Z) (key : string) :
  (∀ molid, molid ∈ cur → processable molid) →
  contributions_iacm mx cur shell key =
    (if decide (1 ≤ shell ≤ mx)
     then build_contributions (file_graphs cur) shell key else []) ∧
  contributions_elem mx cur shell key =
    (if decide (1 ≤ shell ≤ mx)
     then build_contributions (elem_graphs cur) shell key else []).
Proof.
  unfold contributions_iacm, contributions_elem, build_contributions,
    file_graphs, elem_graphs.
  induction cur as [|molid cur IH]; intros Hp.
  { by case_decide. }
  destruct (Hp molid ltac:(by left)) as (graph & graph' & Hf & Ht & _).
  destruct (IH ltac:(intros; apply Hp; by right)) as [IHi IHe].
  rewrite !bind_cons, IHi, IHe. cbn [omap list_omap].
  rewrite (observations_iacm_eq _ _ _ Hf), (observations_elem_eq _ _ _ _ Hf Ht).
  rewrite Hf. cbn [fmap option_fmap option_map mbind option_bind]. rewrite Ht.
  rewrite !bind_cons, !charges_at_observations. cbn [snd].
  by case_decide.
Qed.

Lemma contributing_adds (l cur0 : list Z) :
  contributing (Add <$> l) cur0 = Some (reverse l ++ cur0).
Proof.
  revert cur0. induction l as [|molid l IH]; intros cur0; [done|].
  rewrite fmap_cons. cbn [contributing]. rewrite IH, reverse_cons.
  by rewrite <-app_assoc.
Qed.

(** The bulk build and the incremental [add] agree on the shells that
    both process: for a directory whose files can all be processed, adding
    the molecules one by one to a repository without buckets to which both
    isomorphism indices have been assigned (as [create_from] leaves it for
    an empty directory) gives, for every shell from [max(min_shell, 1)] to
    [max_shell], the same buckets as [create_from].  Below and above, they
    differ by design of the two loops: [create_from] stores nothing outside
    [max(min_shell, 0) .. max_shell], [add] nothing outside
    [1 .. max_shell]. *)
Theorem create_from_agrees_with_add (canonize : Graph charge → string)
    (sched : schedule charge) (molids : list Z) (mn mx : Z)
    (self : Repository charge) :
  fair sched → (∀ molid, molid ∈ molids → processable molid) →
  has_indices self →
  no_buckets (charges_iacm self) → no_buckets (charges_elem self) →
  max_shell self = mx →
  ∃ built added,
    create_from canonize sched molids mn mx = Ok built ∧
    run self (Add <$> molids) = Ok added ∧
    (∀ shell key, Z.max mn 1 ≤ shell ≤ mx →
       bucket_lookup (charges_iacm built) shell key =
         bucket_lookup (charges_iacm added) shell key ∧
       bucket_lookup (charges_elem built) shell key =
         bucket_lookup (charges_elem added) shell key) ∧
    (∀ shell key, shell < Z.max mn 0 ∨ mx < shell →
       bucket_lookup (charges_iacm built) shell key = None ∧
       bucket_lookup (charges_elem built) shell key = None) ∧
    (∀ shell key, shell < 1 ∨ mx < shell →
       bucket_lookup (charges_iacm added) shell key = None ∧
       bucket_lookup (charges_elem added) shell key = None).
Proof.
  intros Hfair Hproc Hidx Hni Hne Hmx.
  destruct (create_from_Ok canonize sched molids mn mx Hfair Hproc)
    as (c_iacm & c_elem & canons_iacm & canons_elem & i_iacm & i_elem &
        Hcreate & _ & _ & Hlooki & Hlooke & _).
  assert (∀ molid, molid ∈ reverse molids ++ [] → processable molid) as Hproc'.
  { intros molid. rewrite app_nil_r, elem_of_reverse. apply Hproc. }
  destruct (run_invariant (Add <$> molids) self [] (reverse molids ++ []))
    as (added & Hrun & _ & Hwfi & Hwfe & Hbi & Hbe).
  { exact Hidx. }
  { intros shell key b. by rewrite Hni. }
  { intros shell key b. by rewrite Hne. }
  { intros shell key. unfold bucket_of. by rewrite Hni. }
  { intros shell key. unfold bucket_of. by rewrite Hne. }
  { apply contributing_adds. }
  { intros o [molid [-> Hm]]%list_elem_of_fmap. by apply Hproc. }
  rewrite Hmx in Hbi, Hbe.
  assert (∀ (built added : store) (graphs : list Z → list (Z * Graph charge))
            (contrib : Z → string → list charge),
            (∀ l1 l2, l1 ≡ₚ l2 → graphs l1 ≡ₚ graphs l2) →
            wf_buckets added →
            (∀ shell key, bucket_of added shell key ≡ₚ contrib shell key) →
            (∀ shell key, contrib shell key =
               if decide (1 ≤ shell ≤ mx)
               then build_contributions (graphs (reverse molids ++ [])) shell key
               else []) →
            (∀ shell key, bucket_lookup built shell key =
               if decide (Z.max mn 0 ≤ shell ≤ mx ∧
                          build_contributions (graphs molids) shell key ≠ [])
               then Some (py_sorted ltb id
                            (build_contributions (graphs molids) shell key))
               else None) →
            (∀ shell key, Z.max mn 1 ≤ shell ≤ mx →
               bucket_lookup built shell key = bucket_lookup added shell key) ∧
            (∀ shell key, shell < Z.max mn 0 ∨ mx < shell →
               bucket_lookup built shell key = None) ∧
            (∀ shell key, shell < 1 ∨ mx < shell →
               bucket_lookup added shell key = None)) as Hagree.
  { intros built0 added0 graphs contrib Hgp Hwf Hb Hcontrib Hlook.
    assert (∀ shell key,
              build_contributions (graphs (reverse molids ++ [])) shell key ≡ₚ
              build_contributions (graphs molids) shell key) as Hperm.
    { intros shell key. apply build_contributions_Permutation, Hgp.
      by rewrite app_nil_r, reverse_Permutation. }
    split_and!.
    - intros shell key Hrange. rewrite Hlook.
      specialize (Hb shell key). rewrite Hcontrib in Hb.
      rewrite decide_True in Hb by lia. rewrite Hperm in Hb.
      destruct (bucket_lookup added0 shell key) as [b|] eqn:Hadded.
      + destruct (Hwf shell key b Hadded) as [Hbne Hbs].
        rewrite (bucket_of_Some _ _ _ _ Hadded) in Hb.
        rewrite decide_True.
        2:{ split; [lia|]. intros Hnil. rewrite Hnil in Hb.
            by apply Permutation_nil_r in Hb. }
        f_equal. apply sorted_Permutation_eq;
          [apply py_sorted_id_sorted|done|].
        by rewrite py_sorted_Permutation.
      + rewrite (bucket_of_None _ _ _ Hadded) in Hb.
        apply Permutation_nil_l in Hb.
        by rewrite decide_False by (by intros [_ ?]).
    - intros shell key Hout. rewrite Hlook.
      rewrite decide_False; [done|]. intros [? _]. lia.
    - intros shell key Hout. specialize (Hb shell key).
      rewrite Hcontrib, decide_False in Hb by lia.
      destruct (bucket_lookup added0 shell key) as [b|] eqn:Hadded; [|done].
      destruct (Hwf shell key b Hadded) as [Hbne _].
      rewrite (bucket_of_Some _ _ _ _ Hadded) in Hb.
      by apply Permutation_nil_r in Hb. }
  destruct (Hagree c_iacm (charges_iacm added) file_graphs
              (contributions_iacm mx (reverse molids ++ [])))
    as (Hi1 & Hi2 & Hi3); [apply file_graphs_Permutation|done..| |done|].
  { intros shell key. by apply contributions_build. }
  destruct (Hagree c_elem (charges_elem added) elem_graphs
              (contributions_elem mx (reverse molids ++ [])))
    as (He1 & He2 & He3); [apply elem_graphs_Permutation|done..| |done|].
  { intros shell key. by apply contributions_build. }
  eexists _, added. split; [exact Hcreate|]. split; [exact Hrun|]. cbn.
  split_and!; intros shell key Hr; split; auto.
Qed.

(** A data error of one worker aborts the whole build.  When a listed
    file cannot be opened, [create_from] raises the error of [open]; when
    all files open, some atom has no [partial_charge] and at least one shell
    is processed, it raises the KeyError that names the first such atom of
    one of the molecules. *)
Theorem create_from_aborts (canonize : Graph charge → string)
    (sched : schedule charge) (molids : list Z) (mn mx : Z) :
  fair sched →
  ((∃ molid, molid ∈ molids ∧ convert_from_file molid = None) →
   create_from canonize sched molids mn mx = Raise OSError) ∧
  ((∀ molid, molid ∈ molids → is_Some (convert_from_file molid)) →
   (∃ molid graph atom, molid ∈ molids ∧
      convert_from_file molid = Some graph ∧
      first_uncharged (nodes graph) = Some atom) →
   Z.max mn 0 ≤ mx →
   ∃ molid graph atom, molid ∈ molids ∧
     convert_from_file molid = Some graph ∧
     first_uncharged (nodes graph) = Some atom ∧
     create_from canonize sched molids mn mx =
       Raise (KeyError_partial_charge atom)).
Proof.
  intros (Hread & Hcharge & Hcanon). split.
  - intros (molid & Hm & Hnone). unfold create_from, read_graphs, processed.
    destruct (processed_from_raise ReadWorker_process
                (read_order sched molids) molid OSError)
      as (molid' & e' & _ & Hraise & Hgen).
    { by rewrite (Hread molids). }
    { unfold ReadWorker_process. by rewrite Hnone. }
    assert (e' = OSError) as ->.
    { unfold ReadWorker_process in Hraise.
      destruct (convert_from_file molid'); simpl in Hraise; congruence. }
    by rewrite (for_generated_raise _ _ _ _ Hgen).
  - intros Hfile (molid & graph & atom & Hm & Hg & Hu) Hle.
    unfold create_from.
    rewrite (read_graphs_Ok _ _ Hfile (Hread molids)). cbn [mbind result_bind].
    destruct (generate_charges_raise (charge_order sched true)
                (Repository_init mn mx)
                (file_graphs (read_order sched molids)) (molid, graph) atom)
      as ([molid' graph'] & atom' & Hin & Hu' & ->); [|done|..|done|].
    { apply elem_of_file_graphs. by rewrite (Hread molids). }
    { intros shell. apply Hcharge. }
    apply elem_of_file_graphs in Hin as [Hm' Hg'].
    rewrite (Hread molids) in Hm'. by exists molid', graph', atom'.
Qed.

(** ** [subtract] on a repository that [create_from] has built *)

Lemma sorted_contributions_bucket_of (charges : store) (P : Z → Prop)
    `{∀ shell, Decision (P shell)} (contrib : Z → string → list charge) :
  (∀ shell key, bucket_lookup charges shell key =
     if decide (P shell ∧ contrib shell key ≠ [])
     then Some (py_sorted ltb id (contrib shell key)) else None) →
  ∀ shell key, bucket_of charges shell key ≡ₚ
    if decide (P shell) then contrib shell key else [].
Proof.
  intros Hlook shell key. unfold bucket_of. rewrite Hlook.
  destruct (decide (P shell)) as [HP|HP].
  - destruct (decide (contrib shell key = [])) as [Hnil|Hne].
    + rewrite decide_False by (by intros [_ ?]). by rewrite Hnil.
    + rewrite decide_True by done. apply py_sorted_Permutation.
  - by rewrite decide_False by (by intros [? _]).
Qed.

Lemma build_contributions_cons (mg : Z * Graph charge)
    (graphs : list (Z * Graph charge)) (shell : Z) (key : string) :
  build_contributions (mg :: graphs) shell key =
    fragments_at mg.2 shell key ++ build_contributions graphs shell key.
Proof. unfold build_contributions. by rewrite bind_cons. Qed.

(** Removing a molecule of the directory from the repository that
    [create_from] has built with [min_shell <= 1]: [subtract] succeeds, all
    buckets stay sorted and not empty, and for the shells [1 .. max_shell]
    every bucket is left with exactly the charges of the other molecules.
    The charges that the molecule contributed for shell 0 (stored when
    [min_shell <= 0]) stay where they are: [subtract] never visits shell
    0. *)
Theorem subtract_from_built (canonize : Graph charge → string)
    (sched : schedule charge) (molids others : list Z) (mn mx : Z) (molid : Z) :
  fair sched → (∀ molid, molid ∈ molids → processable molid) →
  molids ≡ₚ molid :: others → mn ≤ 1 →
  ∃ built self',
    create_from canonize sched molids mn mx = Ok built ∧
    subtract built molid = Ok self' ∧
    holds_exactly (charges_iacm self') (λ shell key,
      if decide (1 ≤ shell ≤ mx)
      then build_contributions (file_graphs others) shell key
      else if decide (Z.max mn 0 ≤ shell ≤ mx)
           then build_contributions (file_graphs molids) shell key else []) ∧
    holds_exactly (charges_elem self') (λ shell key,
      if decide (1 ≤ shell ≤ mx)
      then build_contributions (elem_graphs others) shell key
      else if decide (Z.max mn 0 ≤ shell ≤ mx)
           then build_contributions (elem_graphs molids) shell key else []).
Proof.
  intros Hfair Hproc Hperm Hmn.
  destruct (create_from_Ok canonize sched molids mn mx Hfair Hproc)
    as (c_iacm & c_elem & canons_iacm & canons_elem & i_iacm & i_elem &
        Hcreate & _ & _ & Hlooki & Hlooke & _).
  destruct (Hproc molid) as (graph & graph' & Hf & Ht & Hc).
  { rewrite Hperm. by left. }
  destruct (sorted_contributions_holds c_iacm
              (λ shell, Z.max mn 0 ≤ shell ≤ mx) _ Hlooki) as [Hwfi _].
  destruct (sorted_contributions_holds c_elem
              (λ shell, Z.max mn 0 ≤ shell ≤ mx) _ Hlooke) as [Hwfe _].
  pose proof (sorted_contributions_bucket_of c_iacm
                (λ shell, Z.max mn 0 ≤ shell ≤ mx) _ Hlooki) as Hbi.
  pose proof (sorted_contributions_bucket_of c_elem
                (λ shell, Z.max mn 0 ≤ shell ≤ mx) _ Hlooke) as Hbe.
  assert (file_graphs (molid :: others) = (molid, graph) :: file_graphs others)
    as Hfg.
  { unfold file_graphs. cbn [omap list_omap]. by rewrite Hf. }
  assert (elem_graphs (molid :: others) = (molid, graph') :: elem_graphs others)
    as Heg.
  { unfold elem_graphs. cbn [omap list_omap]. rewrite Hf.
    cbn [mbind option_bind]. by rewrite Ht. }
  set (resti := λ (shell : Z) (key : string),
      if decide (1 ≤ shell ≤ mx)
      then build_contributions (file_graphs others) shell key
      else if decide (Z.max mn 0 ≤ shell ≤ mx)
           then build_contributions (file_graphs molids) shell key else []).
  set (reste := λ (shell : Z) (key : string),
      if decide (1 ≤ shell ≤ mx)
      then build_contributions (elem_graphs others) shell key
      else if decide (Z.max mn 0 ≤ shell ≤ mx)
           then build_contributions (elem_graphs molids) shell key else []).
  destruct (sub_all_spec (observations graph mx) c_iacm resti) as
    (ci' & Hsi & Hwfi' & _ & Hbi'); [exact Hwfi| |].
  { intros shell key. rewrite Hbi, charges_at_observations. unfold resti.
    destruct (decide (1 ≤ shell ≤ mx)) as [Hr|Hr]; [|done].
    rewrite decide_True by lia.
    rewrite (build_contributions_Permutation _ (file_graphs (molid :: others)))
      by (by apply file_graphs_Permutation).
    by rewrite Hfg, build_contributions_cons. }
  destruct (sub_all_spec (observations graph' mx) c_elem reste) as
    (ce' & Hse & Hwfe' & _ & Hbe'); [exact Hwfe| |].
  { intros shell key. rewrite Hbe, charges_at_observations. unfold reste.
    destruct (decide (1 ≤ shell ≤ mx)) as [Hr|Hr]; [|done].
    rewrite decide_True by lia.
    rewrite (build_contributions_Permutation _ (elem_graphs (molid :: others)))
      by (by apply elem_graphs_Permutation).
    by rewrite Heg, build_contributions_cons. }
  eexists _, _. split; [exact Hcreate|].
  rewrite (subtract_processable _ _ graph graph') by done.
  cbn [max_shell charges_iacm charges_elem]. rewrite Hsi, Hse.
  cbn [mbind result_bind]. split; [reflexivity|].
  cbn [charges_iacm charges_elem set_charges_iacm set_charges_elem].
  split; by apply holds_exactly_intro.
Qed.

(** On a repository built with [min_shell >= 2], [subtract] fails for
    every molecule that has an atom: it starts with shell 1, for which
    [create_from] has stored nothing, and the lookup raises.  (With
    [max_shell < 1] it visits no shell at all.) *)
Theorem subtract_from_built_below_min_shell (canonize : Graph charge → string)
    (sched : schedule charge) (molids : list Z) (mn mx : Z) (molid : Z)
    (graph : Graph charge) :
  fair sched → (∀ molid, molid ∈ molids → processable molid) →
  processable molid → convert_from_file molid = Some graph →
  nodes graph ≠ [] → 2 ≤ mn → 1 ≤ mx →
  ∃ built,
    create_from canonize sched molids mn mx = Ok built ∧
    charges_iacm built !! 1 = None ∧
    subtract built molid = Raise LookupError.
Proof.
  intros Hfair Hproc (graph0 & graph' & Hf & Ht & Hc) Hg Hnodes Hmn Hmx.
  assert (graph0 = graph) as -> by congruence.
  destruct (create_from_Ok canonize sched molids mn mx Hfair Hproc)
    as (c_iacm & c_elem & canons_iacm & canons_elem & i_iacm & i_elem &
        Hcreate & Hdomi & _).
  assert (c_iacm !! 1 = None) as Hnone.
  { destruct (c_iacm !! 1) eqn:H1; [|done].
    assert (is_Some (c_iacm !! 1)) as Hs by (by eexists).
    apply Hdomi in Hs. lia. }
  destruct (nodes graph) as [|[atom data] atoms] eqn:Hn; [done|].
  assert (is_Some (partial_charge data)) as [pc Hpc].
  { unfold all_charged in Hc. rewrite Hn in Hc.
    by apply Forall_cons in Hc as [Hd _]. }
  assert (∃ key obs, observations graph mx = (1, key, pc) :: obs)
    as (key & obs & Hobs).
  { unfold observations. rewrite seqZ_cons by lia. rewrite bind_cons.
    unfold _iter_atomic_fragments at 1. rewrite Hn.
    cbn [iter_atomic_fragments_from]. rewrite Hpc.
    cbn [fst snd fmap list_fmap app]. by eexists _, _. }
  eexists. split; [exact Hcreate|]. split; [exact Hnone|].
  rewrite (subtract_processable _ _ graph graph') by done.
  cbn [max_shell charges_iacm charges_elem]. rewrite Hobs.
  unfold sub_all. cbn [for_each fst snd].
  assert (subtract_s 1 key pc c_iacm = Raise LookupError) as ->
    by (unfold subtract_s; by rewrite Hnone).
  done.
Qed.

End charge_assign.

(** * The environment of the examples *)

Lemma Z_ltb_strict_total_order : strict_total_order Z.ltb.
Proof.
  split.
  - intros x. apply Z.ltb_irrefl.
  - intros x y z Hxy Hyz. apply Z.ltb_lt. apply Z.ltb_lt in Hxy, Hyz. lia.
  - intros x y Hxy Hyx. apply Z.ltb_ge in Hxy, Hyx. lia.
Qed.

Lemma example_processable : processable example_IACM_MAP example_files 1.
Proof.
  eexists _, _. split_and!; [reflexivity|vm_compute; reflexivity|].
  repeat constructor; by eexists.
Qed.

Lemma example_no_buckets mn mx :
  no_buckets (charges_iacm (example_repository mn mx)) ∧
  no_buckets (charges_elem (example_repository mn mx)).
Proof. by split; intros shell key. Qed.

Lemma example_wf_buckets mn mx :
  wf_buckets Z.ltb (charges_iacm (example_repository mn mx)) ∧
  wf_buckets Z.ltb (charges_elem (example_repository mn mx)).
Proof. by split; intros shell key b. Qed.

(** * The isomorphism index *)

Lemma groupby_concat {A K : Type} `{EqDecision K} (key : A → K) (l : list A) :
  concat (groupby key l).*2 = l.
Proof.
  induction l as [|x l IH]; [done|]. simpl.
  destruct (groupby key l) as [|[k g] gs]; simpl in *.
  - by rewrite <-IH.
  - case_decide; simpl; by rewrite <-IH.
Qed.

Lemma groupby_keys {A K : Type} `{EqDecision K} (key : A → K) (l : list A) :
  Forall (λ kg, Forall (λ x, key x = kg.1) kg.2) (groupby key l).
Proof.
  induction l as [|x l IH]; [constructor|]. simpl.
  destruct (groupby key l) as [|[k g] gs]; simpl in *.
  - by repeat constructor.
  - apply Forall_cons in IH as [Hg Hgs]. case_decide; simpl.
    + constructor; [|done]. by constructor.
    + constructor; [by repeat constructor|]. by constructor.
Qed.

Lemma record_isogroup_lookup (iso : gmap Z (list Z)) (g : list Z) (a : Z) :
  record_isogroup iso g !! a =
    if decide ((1 < length g)%nat ∧ a ∈ g) then Some g else iso !! a.
Proof.
  unfold record_isogroup.
  assert (∀ (l : list Z) (acc : gmap Z (list Z)),
            foldl (λ iso molid, <[molid := g]> iso) acc l !! a =
              if decide (a ∈ l) then Some g else acc !! a) as Hfold.
  { intros l. induction l as [|x l IH]; intros acc; cbn [foldl].
    - rewrite decide_False; [done|]. apply not_elem_of_nil.
    - rewrite IH. destruct (decide (a ∈ l)) as [Hl|Hl].
      + rewrite decide_True; [done|]. by right.
      + destruct (decide (a = x)) as [->|Hne].
        * rewrite decide_True by (by left). by rewrite lookup_insert_eq.
        * rewrite decide_False by (by intros [?|?]%elem_of_cons).
          by rewrite lookup_insert_ne. }
  destruct (decide (1 < length g)%nat) as [Hlen|Hlen].
  - rewrite Hfold. destruct (decide (a ∈ g)).
    + by rewrite decide_True.
    + rewrite decide_False; [done|]. by intros [_ ?].
  - rewrite decide_False; [done|]. by intros [? _].
Qed.

Lemma record_isogroups_notin (gl : list (list Z)) (acc : gmap Z (list Z))
    (a : Z) :
  a ∉ concat gl → foldl record_isogroup acc gl !! a = acc !! a.
Proof.
  revert acc. induction gl as [|g gl IH]; intros acc Ha; [done|].
  cbn [foldl]. simpl in Ha. rewrite elem_of_app in Ha.
  rewrite IH by tauto. rewrite record_isogroup_lookup.
  rewrite decide_False; [done|]. tauto.
Qed.

Lemma record_isogroups_elem (gl : list (list Z)) (acc : gmap Z (list Z))
    (b : Z) (g : list Z) :
  NoDup (concat gl) → g ∈ gl → b ∈ g → (1 < length g)%nat →
  foldl record_isogroup acc gl !! b = Some g.
Proof.
  revert acc. induction gl as [|g0 gl IH]; intros acc Hnd Hg Hb Hlen.
  { by apply elem_of_nil in Hg. }
  simpl in Hnd. apply NoDup_app in Hnd as (_ & Hdisj & Hnd).
  cbn [foldl]. apply elem_of_cons in Hg as [->|Hg].
  - rewrite record_isogroups_notin by (by apply Hdisj).
    rewrite record_isogroup_lookup. by rewrite decide_True.
  - by apply IH.
Qed.

Lemma record_isogroups_lookup (gl : list (list Z)) (acc : gmap Z (list Z))
    (a : Z) (g : list Z) :
  foldl record_isogroup acc gl !! a = Some g →
  (g ∈ gl ∧ a ∈ g ∧ (1 < length g)%nat) ∨ acc !! a = Some g.
Proof.
  revert acc. induction gl as [|g0 gl IH]; intros acc Ha; [by right|].
  cbn [foldl] in Ha. apply IH in Ha as [(Hg & Ha & Hlen)|Ha].
  - left. split_and!; [by right|done..].
  - rewrite record_isogroup_lookup in Ha. case_decide as Hd.
    + injection Ha as <-. left. split_and!; [by left|tauto..].
    + by right.
Qed.

(** What [__make_isomorphics] does record, for molecule ids listed once
    each: the group of [a] holds [a], has at least two members, and every
    member has the fingerprint of [a] and the same group.  What is missing
    in general is the members of other runs with the same fingerprint. *)
Lemma make_isomorphics_symmetric (molids : list Z) (canons : gmap Z string)
    (iso : gmap Z (list Z)) (a b : Z) (group : list Z) :
  NoDup molids → make_isomorphics molids canons = Ok iso →
  iso !! a = Some group → b ∈ group →
  (1 < length group)%nat ∧ a ∈ group ∧ iso !! b = Some group ∧
  canons !! a = canons !! b.
Proof.
  unfold make_isomorphics. intros Hnd Hm Ha Hb. case_decide; [|done].
  injection Hm as <-.
  set (gs := groupby (λ molid, canons !! molid) molids) in *.
  assert (∀ (l : list (option string * list Z)) (acc : gmap Z (list Z)),
            foldl (λ iso kg, record_isogroup iso kg.2) acc l =
            foldl record_isogroup acc l.*2) as Hfold.
  { intros l. induction l as [|kg l IH]; intros acc; [done|]. simpl. apply IH. }
  rewrite Hfold in *.
  assert (NoDup (concat gs.*2)) as Hnd'.
  { unfold gs. by rewrite groupby_concat. }
  apply record_isogroups_lookup in Ha as [(Hg & Hag & Hlen)|Ha];
    [|by rewrite lookup_empty in Ha].
  split_and!; [done..| |].
  - by apply record_isogroups_elem.
  - pose proof (groupby_keys (λ molid, canons !! molid) molids) as Hkeys.
    fold gs in Hkeys.
    apply list_elem_of_fmap in Hg as ([k g'] & -> & Hkg). simpl in *.
    rewrite Forall_forall in Hkeys. specialize (Hkeys _ Hkg). simpl in Hkeys.
    rewrite Forall_forall in Hkeys.
    by rewrite (Hkeys a Hag), (Hkeys b Hb).
Qed.

Lemma groupby_head {A K : Type} `{EqDecision K} (key : A → K) (x : A)
    (l : list A) k g gs :
  groupby key (x :: l) = (k, g) :: gs → k = key x ∧ ∃ g', g = x :: g'.
Proof.
  simpl. destruct (groupby key l) as [|[k' g'] gs'].
  - intros [= <- <- <-]. eauto.
  - case_decide; intros [= <- <- <-]; eauto.
Qed.

Lemma groupby_nonempty {A K : Type} `{EqDecision K} (key : A → K) (l : list A) :
  Forall (λ kg, kg.2 ≠ []) (groupby key l).
Proof.
  induction l as [|x l IH]; [constructor|]. simpl.
  destruct (groupby key l) as [|[k g] gs]; simpl in *.
  - by repeat constructor.
  - apply Forall_cons in IH as [Hg Hgs].
    case_decide; repeat (constructor; [by simpl|]); done.
Qed.

Lemma elem_of_concat {A : Type} (x : A) (ls : list (list A)) :
  x ∈ concat ls ↔ ∃ l, x ∈ l ∧ l ∈ ls.
Proof.
  induction ls as [|l ls IH]; simpl.
  - split; [by intros ?%elem_of_nil|]. by intros (l & _ & ?%elem_of_nil).
  - rewrite elem_of_app, IH. split.
    + intros [Hx|(l' & Hx & Hl')]; [exists l|exists l']; split; try done;
        [by left|by right].
    + intros (l' & Hx & [->|Hl']%elem_of_cons); [by left|right; by exists l'].
Qed.

Lemma NoDup_fst_unique {A B : Type} (l : list (A * B)) k v1 v2 :
  NoDup l.*1 → (k, v1) ∈ l → (k, v2) ∈ l → v1 = v2.
Proof.
  induction l as [|[k' v'] l IH]; intros Hnd H1 H2.
  { by apply elem_of_nil in H1. }
  rewrite fmap_cons in Hnd. apply NoDup_cons in Hnd as [Hk Hnd]. simpl in Hk.
  apply elem_of_cons in H1 as [H1|H1]; apply elem_of_cons in H2 as [H2|H2].
  - congruence.
  - injection H1 as -> ->. exfalso. apply Hk. apply list_elem_of_fmap.
    by exists (k', v2).
  - injection H2 as -> ->. exfalso. apply Hk. apply list_elem_of_fmap.
    by exists (k', v1).
  - by apply IH.
Qed.

Lemma contiguous_tail {A K : Type} (key : A → K) (x : A) (l : list A) :
  contiguous key (x :: l) → contiguous key l.
Proof. intros Hc l1 a l2 b l3 ->. by apply (Hc (x :: l1) a l2 b l3). Qed.

Lemma groupby_contiguous_keys {A K : Type} `{EqDecision K} (key : A → K)
    (l : list A) :
  contiguous key l → NoDup (groupby key l).*1.
Proof.
  induction l as [|x l IH]; intros Hc; [constructor|].
  specialize (IH (contiguous_tail _ _ _ Hc)).
  pose proof (groupby_keys key l) as Hkeys.
  pose proof (groupby_nonempty key l) as Hne.
  pose proof (groupby_concat key l) as Hcat.
  simpl. destruct (groupby key l) as [|[k g] gs] eqn:Hg; simpl in *.
  { repeat constructor. apply not_elem_of_nil. }
  case_decide as Hk; [done|]. simpl. constructor; [|done].
  intros Hin. change (key x ∈ ((k, g) :: gs).*1) in Hin.
  apply list_elem_of_fmap in Hin as ([k' g'] & Hkx & Hin). simpl in Hkx.
  destruct l as [|first l']; [done|].
  apply groupby_head in Hg as [-> _].
  rewrite Forall_forall in Hkeys, Hne.
  pose proof (Hkeys _ Hin) as Hkg. pose proof (Hne _ Hin) as Hg'.
  simpl in Hkg, Hg'. destruct g' as [|y g']; [done|].
  apply Forall_cons in Hkg as [Hy _].
  assert (y ∈ first :: l') as Hyl.
  { change (concat ((key first, g) :: gs).*2 = first :: l') in Hcat.
    rewrite <-Hcat. apply elem_of_concat. exists (y :: g').
    split; [by left|]. apply list_elem_of_fmap. by exists (k', y :: g'). }
  apply elem_of_cons in Hyl as [->|Hyl]; [congruence|].
  apply list_elem_of_split in Hyl as (l2 & l3 & ->).
  assert (key x = key y) as Hxy by (simpl in *; congruence).
  specialize (Hc [] x (first :: l2) y l3 eq_refl Hxy).
  apply Forall_cons in Hc as [Hf _]. congruence.
Qed.

(** Where every fingerprint occupies one run of [molids] (as it does when
    [molids] is sorted by fingerprint), the index is complete: two
    different molecule ids with the same fingerprint are in each other's
    group, and the group of a molecule holds exactly the listed ids with
    its fingerprint. *)
Theorem make_isomorphics_contiguous (molids : list Z) (canons : gmap Z string)
    (iso : gmap Z (list Z)) (a b : Z) :
  NoDup molids → contiguous (λ molid, canons !! molid) molids →
  make_isomorphics molids canons = Ok iso →
  a ∈ molids → b ∈ molids → a ≠ b → canons !! a = canons !! b →
  ∃ group, iso !! a = Some group ∧ iso !! b = Some group ∧
    ∀ c, c ∈ group ↔ c ∈ molids ∧ canons !! c = canons !! a.
Proof.
  unfold make_isomorphics. intros Hnd Hc Hm Ha Hb Hab Hcan.
  case_decide; [|done]. injection Hm as <-.
  pose proof (groupby_contiguous_keys _ _ Hc) as Hkeys.
  pose proof (groupby_keys (λ molid, canons !! molid) molids) as Hgk.
  pose proof (groupby_concat (λ molid, canons !! molid) molids) as Hcat.
  set (gs := groupby (λ molid, canons !! molid) molids) in *.
  assert (∀ (l : list (option string * list Z)) (acc : gmap Z (list Z)),
            foldl (λ iso kg, record_isogroup iso kg.2) acc l =
            foldl record_isogroup acc l.*2) as Hfold.
  { intros l. induction l as [|kg l IH]; intros acc; [done|]. simpl. apply IH. }
  rewrite Hfold.
  assert (∀ c, c ∈ molids → ∃ g, (canons !! c, g) ∈ gs ∧ c ∈ g) as Hgroup.
  { intros c Hcm. rewrite <-Hcat in Hcm.
    apply elem_of_concat in Hcm as (g & Hcg & Hg).
    apply list_elem_of_fmap in Hg as ([k g'] & -> & Hkg). simpl in Hcg.
    exists g'. split; [|done]. rewrite Forall_forall in Hgk.
    specialize (Hgk _ Hkg). simpl in Hgk. rewrite Forall_forall in Hgk.
    by rewrite (Hgk c Hcg). }
  assert (∀ k g1 g2, (k, g1) ∈ gs → (k, g2) ∈ gs → g1 = g2) as Huniq.
  { intros k g1 g2 H1 H2. by eapply (NoDup_fst_unique gs). }
  destruct (Hgroup a Ha) as (g & Hg & Hag).
  destruct (Hgroup b Hb) as (g' & Hg' & Hbg).
  rewrite <-Hcan in Hg'. rewrite (Huniq _ _ _ Hg' Hg) in Hbg. clear g' Hg'.
  assert (1 < length g)%nat as Hlen.
  { destruct g as [|x [|y g]]; simpl; [|exfalso|lia].
    - by apply elem_of_nil in Hag.
    - apply list_elem_of_singleton in Hag, Hbg. congruence. }
  assert (NoDup (concat gs.*2)) as Hnd' by (by rewrite Hcat).
  assert (g ∈ gs.*2) as Hggs.
  { apply list_elem_of_fmap. by exists (canons !! a, g). }
  exists g. split_and!; [by apply record_isogroups_elem..|].
  intros c. split.
  - intros Hcg. split.
    + rewrite <-Hcat. apply elem_of_concat. by exists g.
    + rewrite Forall_forall in Hgk. specialize (Hgk _ Hg). simpl in Hgk.
      rewrite Forall_forall in Hgk. by apply Hgk.
  - intros [Hcm Hck]. destruct (Hgroup c Hcm) as (g' & Hg' & Hcg).
    rewrite Hck in Hg'. by rewrite <-(Huniq _ _ _ Hg' Hg).
Qed.

(** C1. Molecules 1 and 3 have the same canonical hash, but molecule 2,
    with another hash, stands between them in [molids]: [groupby] gives
    three runs of one molecule each and the index stays empty. *)
Theorem make_isomorphics_separated :
  example_canons !! 1 = example_canons !! 3 ∧
  groupby (λ molid, example_canons !! molid) [1; 2; 3] =
    [(Some "a", [1]); (Some "b", [2]); (Some "a", [3])] ∧
  make_isomorphics [1; 2; 3] example_canons = Ok ∅.
Proof. split_and!; by vm_compute. Qed.

(** With the two isomorphic molecules next to each other the index does
    record the group for both. *)
Example make_isomorphics_adjacent :
  make_isomorphics [1; 3; 2] example_canons =
    Ok (<[1 := [1; 3]]> (<[3 := [1; 3]]> ∅)).
Proof. by vm_compute. Qed.

(** * The solver channel *)

Lemma ensure_dreadnaut_running_spawns (self : Nauty) :
  (process self = None ∨
   ∃ p rc, process self = Some p ∧ poll p = Some rc ∧ rc ≠ 0) →
  running (ensure_dreadnaut_running self) ∧
  spawned (ensure_dreadnaut_running self) = S (spawned self).
Proof.
  unfold ensure_dreadnaut_running, running, poll_truthy.
  intros [->|(p & rc & -> & -> & Hrc)].
  - split; [by eexists|done].
  - destruct (Z.eqb_spec rc 0) as [|_]; [done|]. simpl. split; [by eexists|done].
Qed.

Lemma ensure_dreadnaut_running_live (self : Nauty) :
  running self → ensure_dreadnaut_running self = self.
Proof.
  unfold ensure_dreadnaut_running, running, poll_truthy.
  by intros (p & -> & ->).
Qed.

(** C4. A solver process that has exited with status 0 is not replaced:
    [poll()] returns 0, which is false in the test of
    [__ensure_dreadnaut_running], so nothing is spawned and no running
    process exists after the call. *)
Theorem ensure_dreadnaut_running_exit_0 (n : nat) :
  let self := {| process := Some {| poll := Some 0 |}; spawned := n |} in
  ensure_dreadnaut_running self = self ∧
  spawned (ensure_dreadnaut_running self) = n ∧
  ¬ running (ensure_dreadnaut_running self).
Proof.
  simpl. split_and!; [done..|]. by intros (p & [= <-] & [=]).
Qed.

(** * Shell keys *)

(** C6. On a repository with [min_shell = max_shell = 2], [add] processes
    the shells 1 and 2: afterwards both typed stores have an entry for
    shell 1, below [min_shell]. *)
Theorem add_below_min_shell :
  ∃ self',
    add Z.ltb example_canonize example_IACM_MAP example_files example_built 1
      = Ok self' ∧
    min_shell self' = 2 ∧ max_shell self' = 2 ∧
    charges_iacm self' !! 1 = Some (<["C/1" := [100]]> {[ "HC/1" := [-25] ]}) ∧
    charges_elem self' !! 1 = Some (<["C/1" := [100]]> {[ "H/1" := [-25] ]}).
Proof. eexists. split_and!; by vm_compute. Qed.

(** * One molecule per call *)

(** C10. In every state of the repository, [add] and [subtract] of a
    molecule id process the file of that id and no other molecule.  When an
    isomorphism index was never assigned, the lookup of the molecule in it
    raises AttributeError before any file is read, and nothing is mutated.
    Otherwise the call never looks at what the indices hold: the result is
    the same whatever groups the indices record and whatever the other
    files of the directory contain; when the file can be processed, the
    stores after [add] are the stores before with the observations of that
    one molecule inserted, and [subtract] removes those observations. *)
Theorem iterate_single_molecule {charge : Type} (ltb : charge → charge → bool)
    (canonize_neighborhood : Graph charge → Z → Z → string)
    (IACM_MAP : gmap string string)
    (files files' : Z → option (Graph charge))
    (self : Repository charge) (molid : Z) (i_iacm i_elem : gmap Z (list Z)) :
  files molid = files' molid →
  (¬ has_indices self →
     add ltb canonize_neighborhood IACM_MAP files self molid
       = Raise AttributeError ∧
     subtract ltb canonize_neighborhood IACM_MAP files self molid
       = Raise AttributeError) ∧
  (has_indices self →
     add ltb canonize_neighborhood IACM_MAP files
         (set_iso i_iacm i_elem self) molid
       = set_iso i_iacm i_elem <$>
           add ltb canonize_neighborhood IACM_MAP files' self molid ∧
     subtract ltb canonize_neighborhood IACM_MAP files
         (set_iso i_iacm i_elem self) molid
       = set_iso i_iacm i_elem <$>
           subtract ltb canonize_neighborhood IACM_MAP files' self molid ∧
     ∀ graph graph',
       files molid = Some graph → to_elements IACM_MAP graph = Ok graph' →
       all_charged graph →
       let obs := observations canonize_neighborhood graph (max_shell self) in
       let obs' := observations canonize_neighborhood graph' (max_shell self) in
       add ltb canonize_neighborhood IACM_MAP files self molid =
         Ok (set_charges_elem (add_all ltb obs' (charges_elem self))
               (set_charges_iacm (add_all ltb obs (charges_iacm self)) self)) ∧
       subtract ltb canonize_neighborhood IACM_MAP files self molid =
         c_iacm ← sub_all ltb obs (charges_iacm self);
         c_elem ← sub_all ltb obs' (charges_elem self);
         Ok (set_charges_elem c_elem (set_charges_iacm c_iacm self))).
Proof.
  intros Hfiles. split.
  { intros Hn. split; by apply iterate_unassigned. }
  intros Hidx. split_and!.
  - rewrite add_set_iso by done. f_equal. unfold add.
    rewrite !iterate_eq by done. by rewrite Hfiles.
  - rewrite subtract_set_iso by done. f_equal. unfold subtract.
    rewrite !iterate_eq by done. by rewrite Hfiles.
  - intros graph graph' Hf Ht Hc. split.
    + by apply add_processable.
    + by apply subtract_processable.
Qed.

(** * The solver request and response *)

Lemma result_map_fmap {A B : Type} (f : A → result B) (g : A → B) (l : list A) :
  (∀ x, x ∈ l → f x = Ok (g x)) → result_map f l = Ok (g <$> l).
Proof.
  induction l as [|x l IH]; intros Hf; [done|]. simpl.
  rewrite (Hf x) by (by left). simpl. rewrite IH; [done|].
  intros y Hy. apply Hf. by right.
Qed.

Lemma result_map_raise {A B : Type} (f : A → result B) (l : list A) x e :
  (∀ y e', f y = Raise e' → e' = e) → x ∈ l → f x = Raise e →
  result_map f l = Raise e.
Proof.
  intros He Hx Hfx. induction l as [|y l IH]; [by apply elem_of_nil in Hx|].
  simpl. destruct (f y) as [b|e'] eqn:Hy; simpl.
  - apply elem_of_cons in Hx as [->|Hx]; [congruence|].
    by rewrite (IH Hx).
  - f_equal. by eapply He.
Qed.

Lemma enumerate_snoc {A : Type} (l : list A) (x : A) :
  enumerate (l ++ [x]) = enumerate l ++ [(length l, x)].
Proof. unfold enumerate. rewrite imap_app. simpl. by rewrite Nat.add_0_r. Qed.

Lemma elem_of_enumerate {A : Type} (l : list A) (i : nat) (x : A) :
  (i, x) ∈ enumerate l ↔ l !! i = Some x.
Proof.
  unfold enumerate. rewrite elem_of_lookup_imap. split.
  - by intros (j & y & [= -> ->] & Hj).
  - intros Hi. by exists i, x.
Qed.

Lemma node_to_index_snoc (ns : list Z) (v : Z) :
  node_to_index (ns ++ [v]) = <[v := Z.of_nat (length ns)]> (node_to_index ns).
Proof. unfold node_to_index. by rewrite enumerate_snoc, foldl_app. Qed.

Lemma node_to_index_lookup (ns : list Z) (v : Z) (i : nat) :
  NoDup ns → node_to_index ns !! v = Some (Z.of_nat i) ↔ ns !! i = Some v.
Proof.
  induction ns as [|u ns IH] using rev_ind; intros Hnd.
  { unfold node_to_index. simpl. by rewrite lookup_empty. }
  apply NoDup_app in Hnd as (Hnd & Hdisj & _).
  rewrite node_to_index_snoc. destruct (decide (v = u)) as [->|Hne].
  - rewrite lookup_insert_eq. split.
    + intros [= Hi]. apply Nat2Z.inj in Hi as <-.
      by rewrite lookup_app_r, Nat.sub_diag by lia.
    + intros Hi. destruct (decide (i < length ns)%nat) as [Hlt|Hge].
      * rewrite lookup_app_l in Hi by done. exfalso.
        apply (Hdisj u); [by eapply list_elem_of_lookup_2|by left].
      * apply lookup_lt_Some in Hi as Hlen. rewrite length_app in Hlen.
        simpl in Hlen. do 2 f_equal. lia.
  - rewrite lookup_insert_ne by done. rewrite (IH Hnd). split.
    + intros Hi. rewrite lookup_app_l; [done|]. by eapply lookup_lt_Some.
    + intros Hi. destruct (decide (i < length ns)%nat) as [Hlt|Hge].
      * by rewrite lookup_app_l in Hi.
      * rewrite lookup_app_r in Hi by lia.
        destruct (i - length ns)%nat as [|[|?]]; simpl in Hi; congruence.
Qed.

(** [__make_nauty_edges] on edges whose end points all have an index: the
    result holds the index pairs of the edges, each as often as the edge
    is listed, in ascending lexicographic order, and it does not depend on
    the order in which [graph.edges()] lists the edges. *)
Theorem make_nauty_edges_sorted (edges : list (Z * Z)) (n2i : gmap Z Z) :
  (∀ u v, (u, v) ∈ edges → is_Some (n2i !! u) ∧ is_Some (n2i !! v)) →
  ∃ nauty_edges, make_nauty_edges edges n2i = Ok nauty_edges ∧
    nauty_edges ≡ₚ (λ uv, (n2i !!! uv.1, n2i !!! uv.2)) <$> edges ∧
    sorted int_pair_ltb nauty_edges ∧
    ∀ edges', edges' ≡ₚ edges → make_nauty_edges edges' n2i = Ok nauty_edges.
Proof.
  intros Hknown.
  assert (∀ edges', edges' ≡ₚ edges →
            make_nauty_edges edges' n2i =
              Ok (py_sorted int_pair_ltb id
                    ((λ uv, (n2i !!! uv.1, n2i !!! uv.2)) <$> edges')))
    as Heq.
  { intros edges' Hp. unfold make_nauty_edges.
    rewrite (result_map_fmap _ (λ uv, (n2i !!! uv.1, n2i !!! uv.2))); [done|].
    intros [u v] Huv. rewrite Hp in Huv.
    destruct (Hknown u v Huv) as [[i Hi] [j Hj]]. simpl.
    rewrite Hi, Hj. simpl.
    by rewrite (lookup_total_correct _ _ _ Hi), (lookup_total_correct _ _ _ Hj). }
  eexists. split; [by apply Heq|]. split_and!.
  - apply py_sorted_Permutation.
  - apply py_sorted_id_sorted, int_pair_ltb_strict_total_order.
  - intros edges' Hp. rewrite (Heq edges' Hp). f_equal.
    apply py_sorted_id_Permutation; [apply int_pair_ltb_strict_total_order|].
    by rewrite Hp.
Qed.

(** An edge with an end point that has no index makes [__make_nauty_edges]
    raise KeyError, wherever the edge stands in the list. *)
Theorem make_nauty_edges_unknown_node (edges : list (Z * Z)) (n2i : gmap Z Z)
    (u v : Z) :
  (u, v) ∈ edges → n2i !! u = None ∨ n2i !! v = None →
  make_nauty_edges edges n2i = Raise LookupError.
Proof.
  intros Huv Hnone. unfold make_nauty_edges.
  rewrite (result_map_raise _ _ (u, v) LookupError); [done| |done|].
  - intros [a b] e. simpl.
    destruct (n2i !! a); simpl; [|by intros [= <-]].
    destruct (n2i !! b); simpl; [done|by intros [= <-]].
  - simpl. destruct Hnone as [->| ->]; [done|].
    by destruct (n2i !! u).
Qed.

(** [__canonical_edges] lists every pair of a node and one of its
    neighbours, as often as the adjacency lists hold it, in ascending
    lexicographic order; the result depends on the pairs only, not on the
    order of the adjacency lists or of the neighbours inside a list. *)
Theorem canonical_edges_sorted (adjacency_lists : list (Z * list Z)) :
  sorted int_pair_ltb (canonical_edges adjacency_lists) ∧
  (∀ node_id neighbor_id,
     (node_id, neighbor_id) ∈ canonical_edges adjacency_lists ↔
     ∃ neighbors, (node_id, neighbors) ∈ adjacency_lists ∧
                  neighbor_id ∈ neighbors) ∧
  length (canonical_edges adjacency_lists) =
    sum_list (length <$> adjacency_lists.*2) ∧
  (∀ adjacency_lists',
     (nb ← adjacency_lists'; (λ n, (nb.1, n)) <$> nb.2) ≡ₚ
     (nb ← adjacency_lists; (λ n, (nb.1, n)) <$> nb.2) →
     canonical_edges adjacency_lists' = canonical_edges adjacency_lists) ∧
  (∀ adjacency_lists', adjacency_lists' ≡ₚ adjacency_lists →
     canonical_edges adjacency_lists' = canonical_edges adjacency_lists).
Proof.
  unfold canonical_edges. split_and!.
  - apply py_sorted_id_sorted, int_pair_ltb_strict_total_order.
  - intros u v. rewrite py_sorted_Permutation, list_elem_of_bind. split.
    + intros ([u' nbrs] & Hin & Hadj). simpl in Hin.
      apply list_elem_of_fmap in Hin as (n & [= -> ->] & Hn). by exists nbrs.
    + intros (nbrs & Hadj & Hn). exists (u, nbrs). split; [|done].
      simpl. apply list_elem_of_fmap. by exists v.
  - rewrite py_sorted_Permutation.
    induction adjacency_lists as [|[u nbrs] adj IH]; [done|].
    rewrite bind_cons, length_app, length_fmap, IH. done.
  - intros adj' Hp.
    by apply py_sorted_id_Permutation; [apply int_pair_ltb_strict_total_order|].
  - intros adj' Hp.
    apply py_sorted_id_Permutation; [apply int_pair_ltb_strict_total_order|].
    by rewrite Hp.
Qed.

Lemma py_getitem_Ok {A : Type} (l : list A) (i : Z) :
  (∃ x, py_getitem l i = Ok x) ↔
  - Z.of_nat (length l) ≤ i < Z.of_nat (length l).
Proof.
  unfold py_getitem. case_decide as Hi.
  - destruct (l !! Z.to_nat i) as [x|] eqn:Hx; simpl.
    + apply lookup_lt_Some in Hx. split; [lia|by eauto].
    + apply lookup_ge_None in Hx. split; [by intros [? [=]]|lia].
  - case_decide as Hi'; [|split; [by intros [? [=]]|lia]].
    destruct (l !! Z.to_nat (Z.of_nat (length l) + i)) as [x|] eqn:Hx; simpl.
    + apply lookup_lt_Some in Hx. split; [lia|by eauto].
    + apply lookup_ge_None in Hx. split; [by intros [? [=]]|lia].
Qed.

Lemma fmap_lookup_seqZ {A : Type} (d : A) (l : list A) :
  (λ i, default d (l !! Z.to_nat i)) <$> seqZ 0 (Z.of_nat (length l)) = l.
Proof.
  apply list_eq. intros i. rewrite list_lookup_fmap.
  destruct (decide (i < length l)%nat) as [Hlt|Hge].
  - rewrite (lookup_seqZ_lt _ _ i) by lia. simpl.
    rewrite Z.add_0_l, Nat2Z.id.
    destruct (lookup_lt_is_Some_2 l i Hlt) as [x ->]. done.
  - rewrite lookup_seqZ_ge by lia. simpl. symmetry. apply lookup_ge_None. lia.
Qed.

(** [__canonical_node_colors] reads the colour of every id with Python's
    indexing: it succeeds exactly when every id is in
    [-len(node_colors) .. len(node_colors) - 1], the colour at position [i]
    of the result is the colour of the [i]-th id, and for ids that are a
    rearrangement of [0 .. len(node_colors) - 1] the result is the same
    rearrangement of the colours. *)
Theorem canonical_node_colors_spec (canonical_node_ids : list Z)
    (node_colors : list Color) :
  ((∃ cs, canonical_node_colors canonical_node_ids node_colors = Ok cs) ↔
   Forall (λ id, - Z.of_nat (length node_colors) ≤ id
                 < Z.of_nat (length node_colors)) canonical_node_ids) ∧
  (∀ cs, canonical_node_colors canonical_node_ids node_colors = Ok cs →
     length cs = length canonical_node_ids ∧
     ∀ i id, canonical_node_ids !! i = Some id → 0 ≤ id →
       cs !! i = node_colors !! Z.to_nat id) ∧
  (canonical_node_ids ≡ₚ seqZ 0 (Z.of_nat (length node_colors)) →
   ∃ cs, canonical_node_colors canonical_node_ids node_colors = Ok cs ∧
     cs ≡ₚ node_colors).
Proof.
  unfold canonical_node_colors. split_and!.
  - induction canonical_node_ids as [|id ids IH]; simpl.
    { split; [constructor|by eauto]. }
    rewrite Forall_cons, <-IH, <-py_getitem_Ok.
    destruct (py_getitem node_colors id) as [c|e]; simpl.
    + destruct (result_map (py_getitem node_colors) ids) as [cs|e]; simpl.
      * split; by eauto.
      * split; [by intros [? [=]]|by intros [_ [? [=]]]].
    + split; [by intros [? [=]]|by intros [[? [=]] _]].
  - induction canonical_node_ids as [|id ids IH]; intros cs; simpl.
    { intros [= <-]. split; [done|]. by intros i id [=]. }
    destruct (py_getitem node_colors id) as [c|e] eqn:Hc; simpl; [|done].
    destruct (result_map (py_getitem node_colors) ids) as [cs'|e]; simpl;
      [|done].
    intros [= <-]. destruct (IH cs' eq_refl) as [Hlen Hlook].
    split; [simpl; by rewrite Hlen|].
    intros [|i] id' Hid Hpos; simpl in *.
    + injection Hid as ->. unfold py_getitem in Hc.
      rewrite decide_True in Hc by done.
      by destruct (node_colors !! Z.to_nat id'); simplify_eq/=.
    + by apply Hlook.
  - intros Hp.
    exists ((λ i, default (false, EmptyString) (node_colors !! Z.to_nat i))
              <$> canonical_node_ids).
    split.
    + apply result_map_fmap. intros id Hid. rewrite Hp in Hid.
      apply elem_of_seqZ in Hid. unfold py_getitem.
      rewrite decide_True by lia.
      destruct (lookup_lt_is_Some_2 node_colors (Z.to_nat id)) as [c Hc];
        [lia|]. by rewrite Hc.
    + rewrite Hp. by rewrite fmap_lookup_seqZ.
Qed.

Lemma groupby_sorted_keys {A K : Type} `{EqDecision K} (lt : K → K → bool)
    (key : A → K) (l : list A) :
  strict_total_order lt →
  StronglySorted (λ a b, lt (key b) (key a) = false) l →
  StronglySorted (λ k1 k2, lt k1 k2 = true) (groupby key l).*1.
Proof.
  intros Hlt. induction l as [|x l IH]; intros Hs; [constructor|].
  apply StronglySorted_inv in Hs as [Hs Hx]. specialize (IH Hs).
  simpl. destruct (groupby key l) as [|[k g] gs] eqn:Hg.
  { repeat constructor. }
  case_decide as Hk; [done|].
  change (StronglySorted (λ k1 k2, lt k1 k2 = true) (key x :: k :: gs.*1)).
  change (StronglySorted (λ k1 k2, lt k1 k2 = true) (k :: gs.*1)) in IH.
  constructor; [done|].
  destruct l as [|first l']; [done|].
  apply groupby_head in Hg as [-> _].
  apply Forall_cons in Hx as [Hfirst _].
  assert (lt (key x) (key first) = true) as Hxk.
  { destruct (lt (key x) (key first)) eqn:Hxf; [done|].
    by destruct Hk; apply (ltb_total _ Hlt). }
  constructor; [done|].
  apply StronglySorted_inv in IH as [_ IH].
  eapply Forall_impl; [exact IH|]. intros k' Hk'. simpl in Hk'.
  by apply (ltb_trans _ Hlt _ (key first)).
Qed.

Lemma StronglySorted_lt_NoDup {K : Type} (lt : K → K → bool) (l : list K) :
  strict_total_order lt →
  StronglySorted (λ k1 k2, lt k1 k2 = true) l → NoDup l.
Proof.
  intros Hlt. induction 1 as [|k l Hs IH Hk]; constructor; [|done].
  intros Hin. rewrite Forall_forall in Hk. specialize (Hk k Hin).
  by rewrite (ltb_irrefl _ Hlt) in Hk.
Qed.

Lemma NoDup_concat_elem {A : Type} (ls : list (list A)) (l : list A) :
  NoDup (concat ls) → l ∈ ls → NoDup l.
Proof.
  induction ls as [|l' ls IH]; intros Hnd Hl; [by apply elem_of_nil in Hl|].
  simpl in Hnd. apply NoDup_app in Hnd as (Hl' & _ & Hls).
  apply elem_of_cons in Hl as [->|Hl]; [done|by apply IH].
Qed.

Lemma NoDup_all_equal {A : Type} (l : list A) (a : A) :
  NoDup l → l ≠ [] → (∀ x, x ∈ l → x = a) → l = [a].
Proof.
  intros Hnd Hne Hall. destruct l as [|x [|y l]]; [done|..].
  - by rewrite (Hall x) by (by left).
  - exfalso. apply NoDup_cons in Hnd as [Hx _]. apply Hx.
    rewrite (Hall x), (Hall y); [by left|by right; left|by left].
Qed.

Lemma make_partition_eq (ns : list Z) (colors : list Color) :
  NoDup ns → (length colors ≤ length ns)%nat →
  make_partition ns colors (node_to_index ns) = Ok (cells_of (colored_nodes colors)).
Proof.
  intros Hnd Hlen. unfold make_partition.
  rewrite (result_map_fmap _ (λ ic, (Z.of_nat ic.1, ic.2))); [done|].
  intros [i c] Hic. apply elem_of_enumerate in Hic. simpl.
  destruct (lookup_lt_is_Some_2 ns i) as [v Hv].
  { apply lookup_lt_Some in Hic. lia. }
  rewrite Hv. simpl.
  by rewrite (proj2 (node_to_index_lookup ns v i Hnd) Hv).
Qed.

Lemma elem_of_colored_nodes (colors : list Color) (i : Z) (c : Color) :
  (i, c) ∈ colored_nodes colors ↔ 0 ≤ i ∧ colors !! Z.to_nat i = Some c.
Proof.
  unfold colored_nodes. rewrite list_elem_of_fmap. split.
  - intros ([j c'] & [= -> ->] & Hj%elem_of_enumerate). simpl.
    by rewrite Nat2Z.id; split; [lia|].
  - intros [Hi Hc]. exists (Z.to_nat i, c). simpl. split.
    + f_equal. lia.
    + by apply elem_of_enumerate.
Qed.

Lemma colored_nodes_fst (colors : list Color) :
  (colored_nodes colors).*1 = seqZ 0 (Z.of_nat (length colors)).
Proof.
  unfold colored_nodes, enumerate. apply list_eq. intros i.
  rewrite !list_lookup_fmap, list_lookup_imap.
  destruct (decide (i < length colors)%nat) as [Hlt|Hge].
  - rewrite (lookup_seqZ_lt _ _ i) by lia.
    destruct (lookup_lt_is_Some_2 colors i Hlt) as [c ->]. simpl.
    by rewrite Z.add_0_l.
  - rewrite lookup_seqZ_ge by lia.
    by rewrite (proj2 (lookup_ge_None colors i)) by lia.
Qed.

Lemma cells_of_keys (colored : list (Z * Color)) :
  StronglySorted (λ c d, Color_ltb c d = true) (cells_of colored).*1.
Proof.
  unfold cells_of. rewrite <-list_fmap_compose.
  apply (groupby_sorted_keys Color_ltb snd _ Color_ltb_strict_total_order).
  apply (py_sorted_sorted Color_ltb snd Color_ltb_strict_total_order).
Qed.

Lemma cells_of_elem (colored : list (Z * Color)) (c : Color) (ids : list Z) :
  (c, ids) ∈ cells_of colored →
  ids ≠ [] ∧ sorted Z.ltb ids ∧ ∀ i, i ∈ ids ↔ (i, c) ∈ colored.
Proof.
  intros Hcell. pose proof (cells_of_keys colored) as Hkeys.
  apply (StronglySorted_lt_NoDup _ _ Color_ltb_strict_total_order) in Hkeys.
  unfold cells_of in Hcell, Hkeys. rewrite <-list_fmap_compose in Hkeys.
  change (NoDup (groupby snd (py_sorted Color_ltb snd colored)).*1) in Hkeys.
  pose proof (groupby_keys snd (py_sorted Color_ltb snd colored)) as Hgk.
  pose proof (groupby_nonempty snd (py_sorted Color_ltb snd colored)) as Hne.
  pose proof (groupby_concat snd (py_sorted Color_ltb snd colored)) as Hcat.
  rewrite Forall_forall in Hgk, Hne.
  apply list_elem_of_fmap in Hcell as ([k g] & [= -> ->] & Hg). simpl.
  split_and!.
  - intros Hnil. apply (Hne _ Hg). simpl.
    apply (f_equal length) in Hnil.
    rewrite (Permutation_length (py_sorted_Permutation _ _ _)), length_fmap
      in Hnil.
    by destruct g.
  - apply py_sorted_id_sorted, Z_ltb_strict_total_order.
  - intros i. rewrite py_sorted_Permutation, list_elem_of_fmap.
    pose proof (Hgk _ Hg) as Hgkg. simpl in Hgkg. rewrite Forall_forall in Hgkg.
    split.
    + intros ([i' c'] & -> & Hic). simpl.
      rewrite <-(Hgkg _ Hic). simpl.
      rewrite <-(py_sorted_Permutation Color_ltb snd colored), <-Hcat.
      apply elem_of_concat. exists g. split; [done|].
      apply list_elem_of_fmap. by exists (k, g).
    + intros Hic. exists (i, k). split; [done|].
      rewrite <-(py_sorted_Permutation Color_ltb snd colored), <-Hcat in Hic.
      apply elem_of_concat in Hic as (g' & Hic & Hg').
      apply list_elem_of_fmap in Hg' as ([k' g''] & -> & Hg'). simpl in Hic.
      pose proof (Hgk _ Hg') as Hk'. simpl in Hk'.
      rewrite Forall_forall in Hk'. specialize (Hk' _ Hic). simpl in Hk'.
      subst k'. by rewrite (NoDup_fst_unique _ _ _ _ Hkeys Hg Hg').
Qed.

Lemma cells_of_concat (colored : list (Z * Color)) :
  concat (cells_of colored).*2 ≡ₚ colored.*1.
Proof.
  unfold cells_of.
  rewrite <-(py_sorted_Permutation Color_ltb snd colored) at 2.
  rewrite <-(groupby_concat snd (py_sorted Color_ltb snd colored)) at 2.
  induction (groupby snd (py_sorted Color_ltb snd colored)) as [|[k g] gs IH];
    [done|].
  rewrite !fmap_cons. simpl. rewrite fmap_app.
  by rewrite py_sorted_Permutation, IH.
Qed.

(** [__make_partition] for the nodes of a graph, each listed once, and at
    most as many colours as nodes: the cells are listed by strictly
    ascending colour; the cell of a colour is not empty, is in ascending
    order and holds exactly the indexes of the nodes with that colour; and
    every index that has a colour is in exactly one cell.  With more
    colours than nodes the lookup [nodes[node_id]] raises IndexError. *)
Theorem make_partition_spec (ns : list Z) (colors : list Color) :
  NoDup ns →
  ((length colors ≤ length ns)%nat →
   ∃ partition, make_partition ns colors (node_to_index ns) = Ok partition ∧
     StronglySorted (λ c d, Color_ltb c d = true) partition.*1 ∧
     (∀ c ids, (c, ids) ∈ partition →
        ids ≠ [] ∧ sorted Z.ltb ids ∧
        ∀ i, i ∈ ids ↔ 0 ≤ i ∧ colors !! Z.to_nat i = Some c) ∧
     concat partition.*2 ≡ₚ seqZ 0 (Z.of_nat (length colors))) ∧
  ((length ns < length colors)%nat →
   make_partition ns colors (node_to_index ns) = Raise LookupError).
Proof.
  intros Hnd. split.
  - intros Hlen. exists (cells_of (colored_nodes colors)). split_and!.
    + by apply make_partition_eq.
    + apply cells_of_keys.
    + intros c ids Hcell.
      destruct (cells_of_elem _ _ _ Hcell) as (Hne & Hs & Hin).
      split_and!; [done..|]. intros i.
      by rewrite Hin, elem_of_colored_nodes.
    + by rewrite cells_of_concat, colored_nodes_fst.
  - intros Hlen. unfold make_partition.
    destruct (lookup_lt_is_Some_2 colors (length ns) Hlen) as [c Hc].
    rewrite (result_map_raise _ _ (length ns, c) LookupError); [done|..].
    + intros [i c'] e. simpl.
      destruct (ns !! i) as [v|]; simpl; [|by intros [= <-]].
      destruct (node_to_index ns !! v); simpl; [done|by intros [= <-]].
    + by apply elem_of_enumerate.
    + simpl. by rewrite (proj2 (lookup_ge_None ns (length ns))) by lia.
Qed.

Lemma node_colors_lookup {charge : Type} (graph : Graph charge)
    (core : option Z) (i : nat) :
  node_colors graph core !! i =
    (λ nd, (bool_decide (Some nd.1 = core), atom_type nd.2)) <$> nodes graph !! i.
Proof. unfold node_colors. by rewrite list_lookup_fmap. Qed.

(** In [canonize] with a core that is a node of the graph, the partition
    handed to the solver ends with the cell of the core: that cell holds the
    index of the core and nothing else, and no other cell has a colour
    marked as core. *)
Theorem make_partition_core {charge : Type} (graph : Graph charge) (core : Z)
    (i : nat) (data : node_data charge) :
  NoDup (nodes graph).*1 → nodes graph !! i = Some (core, data) →
  ∃ partition,
    make_partition (nodes graph).*1 (node_colors graph (Some core))
      (node_to_index (nodes graph).*1) = Ok partition ∧
    last partition = Some ((true, atom_type data), [Z.of_nat i]) ∧
    ∀ c ids, (c, ids) ∈ partition → c.1 = true →
      (c, ids) = ((true, atom_type data), [Z.of_nat i]).
Proof.
  intros Hnd Hi.
  set (colors := node_colors graph (Some core)).
  set (P := cells_of (colored_nodes colors)).
  assert (make_partition (nodes graph).*1 colors
            (node_to_index (nodes graph).*1) = Ok P) as HP.
  { apply make_partition_eq; [done|].
    unfold colors, node_colors. by rewrite !length_fmap. }
  assert (colors !! i = Some (true, atom_type data)) as Hci.
  { unfold colors. rewrite node_colors_lookup, Hi. simpl.
    by rewrite bool_decide_eq_true_2. }
  assert (∀ j t, colors !! j = Some (true, t) → j = i ∧ t = atom_type data)
    as Hcore.
  { intros j t Hj. unfold colors in Hj. rewrite node_colors_lookup in Hj.
    destruct (nodes graph !! j) as [[v d]|] eqn:Hvj; [|done].
    simpl in Hj. injection Hj as Hb Ht.
    apply bool_decide_eq_true in Hb. injection Hb as ->.
    assert (j = i) as ->.
    { eapply (NoDup_lookup _ _ _ core Hnd);
        rewrite list_lookup_fmap; [by rewrite Hvj|by rewrite Hi]. }
    split; [done|]. congruence. }
  assert (NoDup P.*1) as HndP.
  { eapply StronglySorted_lt_NoDup;
      [apply Color_ltb_strict_total_order|apply cells_of_keys]. }
  assert (NoDup (concat P.*2)) as Hndc.
  { unfold P. rewrite cells_of_concat, colored_nodes_fst. apply NoDup_seqZ. }
  assert (∀ c ids, (c, ids) ∈ P → c.1 = true →
            (c, ids) = ((true, atom_type data), [Z.of_nat i])) as Huniq.
  { intros [b t] ids Hcell Hb. simpl in Hb. subst b.
    destruct (cells_of_elem _ _ _ Hcell) as (Hne & _ & Hin).
    assert (∀ x, x ∈ ids → x = Z.of_nat i) as Hall.
    { intros x [Hx Hxc]%Hin%elem_of_colored_nodes.
      apply Hcore in Hxc as [Hxi _]. lia. }
    assert (t = atom_type data) as ->.
    { destruct ids as [|x ids']; [done|].
      assert (x ∈ x :: ids') as Hx by left.
      apply Hin, elem_of_colored_nodes in Hx as [_ Hx].
      by apply Hcore in Hx as [_ ->]. }
    f_equal. apply NoDup_all_equal; [|done..].
    apply (NoDup_concat_elem P.*2); [done|].
    apply list_elem_of_fmap. by exists ((true, atom_type data), ids). }
  assert (∃ ids, ((true, atom_type data), ids) ∈ P) as [ids Hcell].
  { assert (Z.of_nat i ∈ concat P.*2) as Hin.
    { unfold P. rewrite cells_of_concat, colored_nodes_fst.
      apply elem_of_seqZ. pose proof (lookup_lt_Some _ _ _ Hci) as Hlt.
      unfold colors in *. lia. }
    apply elem_of_concat in Hin as (ids & Hin & Hids).
    apply list_elem_of_fmap in Hids as ([c ids'] & -> & Hcell). simpl in Hin.
    exists ids'. destruct (cells_of_elem _ _ _ Hcell) as (_ & _ & Hmem).
    apply Hmem, elem_of_colored_nodes in Hin as [_ Hc].
    rewrite Nat2Z.id, Hci in Hc. by injection Hc as <-. }
  pose proof (Huniq _ _ Hcell eq_refl) as [= ->].
  exists P. split_and!; [done| |done].
  destruct (last P) as [[c ids]|] eqn:Hlast.
  2:{ apply last_None in Hlast. rewrite Hlast in Hcell.
      by apply elem_of_nil in Hcell. }
  apply last_Some in Hlast as [P' HP'].
  rewrite HP' in Hcell. apply elem_of_app in Hcell as [Hcell|Hcell].
  2:{ by apply list_elem_of_singleton in Hcell as <-. }
  pose proof (cells_of_keys (colored_nodes colors)) as Hkeys.
  fold P in Hkeys. rewrite HP', fmap_app in Hkeys.
  assert (Color_ltb (true, atom_type data) c = true) as Hc.
  { apply (StronglySorted_app_1_elem_of _ _ _ _ _ Hkeys).
    - apply list_elem_of_fmap. by exists ((true, atom_type data), [Z.of_nat i]).
    - by left. }
  assert ((c, ids) ∈ P) as Hlast.
  { rewrite HP'. apply elem_of_app. right. by left. }
  destruct c as [[] u].
  - apply Huniq in Hlast as [= -> ->]; [|done].
    by rewrite (ltb_irrefl _ Color_ltb_strict_total_order) in Hc.
  - unfold Color_ltb in Hc. by simpl in Hc.
Qed.

(** * Cross-validation *)

Lemma StronglySorted_reverse {A : Type} (R : relation A) (l : list A) :
  StronglySorted R l → StronglySorted (flip R) (reverse l).
Proof.
  induction 1 as [|x l Hs IH Hx]; [constructor|].
  rewrite reverse_cons. apply StronglySorted_app_2; [|done|repeat constructor].
  intros y z Hy ->%list_elem_of_singleton. rewrite elem_of_reverse in Hy.
  rewrite Forall_forall in Hx. by apply Hx.
Qed.

Lemma StronglySorted_weaken {A : Type} (R1 R2 : relation A) (l : list A) :
  (∀ a b, R1 a b → R2 a b) → StronglySorted R1 l → StronglySorted R2 l.
Proof.
  intros HR. induction 1 as [|x l Hs IH Hx]; constructor; [done|].
  eapply Forall_impl; [exact Hx|]. intros y. apply HR.
Qed.

Lemma py_sorted_reverse_Permutation {A K : Type} (lt : K → K → bool)
    (key : A → K) (l : list A) :
  py_sorted_reverse lt key l ≡ₚ l.
Proof.
  unfold py_sorted_reverse.
  by rewrite reverse_Permutation, py_sorted_Permutation, reverse_Permutation.
Qed.

Lemma py_sorted_reverse_descending (l : list Z) :
  StronglySorted (λ a b, b ≤ a) (py_sorted_reverse Z.ltb id l).
Proof.
  unfold py_sorted_reverse.
  pose proof (py_sorted_id_sorted Z.ltb Z_ltb_strict_total_order (reverse l))
    as Hs.
  apply StronglySorted_reverse in Hs.
  eapply StronglySorted_weaken; [|exact Hs].
  intros a b. unfold flip, leb_of. by rewrite Z.ltb_ge.
Qed.

Lemma StronglySorted_strict (l : list Z) :
  NoDup l → StronglySorted (λ a b, b ≤ a) l → StronglySorted (λ a b, b < a) l.
Proof.
  intros Hnd. induction 1 as [|x l Hs IH Hx]; [constructor|].
  apply NoDup_cons in Hnd as [Hx' Hnd]. constructor; [by apply IH|].
  rewrite Forall_forall in Hx |- *. intros y Hy. specialize (Hx y Hy).
  assert (y ≠ x) by (by intros ->). lia.
Qed.

(** The shells that [cross_validate_molecules] uses, for a repository that
    is given.  Without a [shell] argument: all shells of the repository, from
    the largest to the smallest.  With a list: the wanted shells that the
    repository has, in descending order, each as often as it was asked for;
    an empty list raises the ValueError of [min].  With one shell: that
    shell, when the repository has it. *)
Theorem select_shells_spec {V : Type} (charges_iacm : gmap Z V) :
  (∃ shells, select_shells ShellNone charges_iacm = Ok shells ∧
     StronglySorted (λ a b, b < a) shells ∧
     ∀ s, s ∈ shells ↔ is_Some (charges_iacm !! s)) ∧
  (∀ wanted, wanted ≠ [] →
     ∃ shells, select_shells (ShellList wanted) charges_iacm = Ok shells ∧
       StronglySorted (λ a b, b ≤ a) shells ∧
       shells ≡ₚ filter (λ s, is_Some (charges_iacm !! s)) wanted) ∧
  select_shells (ShellList []) charges_iacm = Raise ValueError ∧
  (∀ s, select_shells (ShellInt s) charges_iacm =
          Ok (if decide (is_Some (charges_iacm !! s)) then [s] else [])).
Proof.
  split_and!.
  - eexists. split; [reflexivity|]. split.
    + apply StronglySorted_strict; [|apply py_sorted_reverse_descending].
      rewrite py_sorted_reverse_Permutation. apply NoDup_fst_map_to_list.
    + intros s. rewrite py_sorted_reverse_Permutation, list_elem_of_fmap.
      split.
      * intros ([s' v] & -> & Hin). apply elem_of_map_to_list in Hin.
        by eexists.
      * intros [v Hv]. exists (s, v). split; [done|].
        by apply elem_of_map_to_list.
  - intros wanted Hne. destruct wanted as [|w wanted]; [done|].
    eexists. split; [reflexivity|]. split.
    + eapply StronglySorted_sublist; [apply sublist_filter|].
      apply py_sorted_reverse_descending.
    + by rewrite py_sorted_reverse_Permutation.
  - reflexivity.
  - intros s. unfold select_shells, wanted_shells.
    change (py_sorted_reverse Z.ltb id [s]) with [s].
    cbn [mbind result_bind].
    rewrite filter_cons, filter_nil. by destruct (decide _).
Qed.

Lemma bucket_filter_concat (molids : list Z) (n : Z) (buckets : list Z) :
  NoDup buckets →
  concat ((λ b, filter (λ molid, molid `mod` n = b) molids) <$> buckets) ≡ₚ
    filter (λ molid, molid `mod` n ∈ buckets) molids.
Proof.
  intros Hnd. induction molids as [|x molids IH].
  { simpl. induction buckets as [|b bs IHb]; [done|].
    apply NoDup_cons in Hnd as [_ Hnd]. simpl. by apply IHb. }
  assert (concat ((λ b, filter (λ molid, molid `mod` n = b) (x :: molids))
                    <$> buckets) ≡ₚ
          (if decide (x `mod` n ∈ buckets) then [x] else []) ++
          concat ((λ b, filter (λ molid, molid `mod` n = b) molids) <$> buckets))
    as ->.
  { clear IH. induction buckets as [|b bs IHb]; [done|].
    apply NoDup_cons in Hnd as [Hb Hnd]. rewrite !fmap_cons. simpl concat.
    rewrite (IHb Hnd). destruct (decide (x `mod` n = b)) as [Heq|Hne].
    - subst b. rewrite filter_cons_True by done.
      rewrite (decide_True (P := x `mod` n ∈ x `mod` n :: bs)) by left.
      by rewrite (decide_False (P := x `mod` n ∈ bs)) by done.
    - rewrite filter_cons_False by done.
      destruct (decide (x `mod` n ∈ bs)) as [Hin|Hnin].
      + rewrite decide_True by (by right). simpl.
        by rewrite Permutation_middle.
      + by rewrite decide_False by (by intros [?|?]%elem_of_cons). }
  rewrite IH. destruct (decide (x `mod` n ∈ buckets)).
  - by rewrite filter_cons_True.
  - by rewrite filter_cons_False.
Qed.

Lemma filter_all {A : Type} (P : A → Prop) `{∀ x, Decision (P x)}
    (l : list A) :
  (∀ x, P x) → filter P l = l.
Proof.
  intros HP. induction l as [|x l IH]; [done|].
  rewrite filter_cons_True by done. by rewrite IH.
Qed.

(** For a positive number of buckets, the calls of
    [cross_validate_molecules] for the buckets [0 .. num_buckets - 1]
    validate every molecule exactly once: each call succeeds, a molecule is
    selected by the bucket [molid % num_buckets] and by no other, and the
    selections together are a rearrangement of the molecule list. *)
Theorem bucket_molids_partition (molids : list Z) (num_buckets : Z) :
  0 < num_buckets →
  (∀ bucket, bucket_molids molids bucket num_buckets =
     Some (filter (λ molid, molid `mod` num_buckets = bucket) molids)) ∧
  (∀ molid bucket selected, molid ∈ molids →
     bucket_molids molids bucket num_buckets = Some selected →
     molid ∈ selected ↔ bucket = molid `mod` num_buckets) ∧
  (∀ molid, 0 ≤ molid `mod` num_buckets < num_buckets) ∧
  concat ((λ bucket, default [] (bucket_molids molids bucket num_buckets))
            <$> seqZ 0 num_buckets) ≡ₚ molids.
Proof.
  intros Hn.
  assert (∀ bucket, bucket_molids molids bucket num_buckets =
            Some (filter (λ molid, molid `mod` num_buckets = bucket) molids))
    as Heq.
  { intros bucket. unfold bucket_molids. destruct molids; [done|].
    by rewrite decide_False by lia. }
  split_and!; [done| | |].
  - intros molid bucket selected Hm. rewrite Heq. intros [= <-].
    rewrite list_elem_of_filter. split; [by intros [-> _]|by intros ->].
  - intros molid. by apply Z.mod_pos_bound.
  - assert ((λ bucket, default [] (bucket_molids molids bucket num_buckets))
              <$> seqZ 0 num_buckets =
            (λ b, filter (λ molid, molid `mod` num_buckets = b) molids)
              <$> seqZ 0 num_buckets) as ->.
    { apply list_fmap_ext. intros i b _. by rewrite Heq. }
    rewrite bucket_filter_concat by apply NoDup_seqZ.
    rewrite filter_all; [done|].
    intros molid. apply elem_of_seqZ.
    pose proof (Z.mod_pos_bound molid num_buckets Hn). lia.
Qed.

(** * Instances of the theorems on the example molecules *)

Lemma example_built_wf :
  wf_buckets Z.ltb (charges_iacm example_built) ∧
  wf_buckets Z.ltb (charges_elem example_built) ∧
  no_empty_shell (charges_iacm example_built) ∧
  no_empty_shell (charges_elem example_built).
Proof.
  split_and!.
  - intros shell key b (d & Hd & Hb)%bucket_lookup_Some.
    unfold example_built in Hd; cbn [charges_iacm charges_elem] in Hd.
    apply lookup_singleton_Some in Hd as [<- <-].
    apply lookup_insert_Some in Hb as [[<- <-]|[_ Hb]];
      [|apply lookup_singleton_Some in Hb as [<- <-]];
      (split; [done|repeat constructor]).
  - intros shell key b (d & Hd & Hb)%bucket_lookup_Some.
    unfold example_built in Hd; cbn [charges_iacm charges_elem] in Hd.
    apply lookup_singleton_Some in Hd as [<- <-].
    apply lookup_insert_Some in Hb as [[<- <-]|[_ Hb]];
      [|apply lookup_singleton_Some in Hb as [<- <-]];
      (split; [done|repeat constructor]).
  - intros shell d Hd.
    unfold example_built in Hd; cbn [charges_iacm charges_elem] in Hd.
    apply lookup_singleton_Some in Hd as [<- <-].
    apply insert_non_empty.
  - intros shell d Hd.
    unfold example_built in Hd; cbn [charges_iacm charges_elem] in Hd.
    apply lookup_singleton_Some in Hd as [<- <-].
    apply insert_non_empty.
Qed.

Lemma example_has_indices mn mx : has_indices (example_repository mn mx).
Proof. split; by eexists. Qed.

Lemma example_built_has_indices : has_indices example_built.
Proof. split; by eexists. Qed.

(** [example_repository 1 2] is a state that the code reaches: [create_from]
    on the directory with molecule 1, then [subtract] of that molecule. *)
Example example_repository_reachable :
  ∃ built,
    create_from Z.ltb example_canonize example_IACM_MAP example_files_1
      example_canonize_molecule example_schedule [1] 1 2 = Ok built ∧
    subtract Z.ltb example_canonize example_IACM_MAP example_files_1 built 1
      = Ok (example_repository 1 2).
Proof. eexists. split; [vm_compute; reflexivity|]. vm_compute. reflexivity. Qed.

(** [example_built], [example_built_0], [example_built_empty] and
    [example_built_big] are what [create_from] returns. *)
Example example_built_reachable :
  create_from Z.ltb example_canonize example_IACM_MAP example_files_1
    example_canonize_molecule example_schedule [1] 2 2 = Ok example_built ∧
  create_from Z.ltb example_canonize example_IACM_MAP example_files_1
    example_canonize_molecule example_schedule [1] 0 0 = Ok example_built_0 ∧
  create_from Z.ltb example_canonize example_IACM_MAP example_files_1
    example_canonize_molecule example_schedule [] 2 2 = Ok example_built_empty ∧
  create_from Z.ltb example_canonize example_IACM_MAP example_files_big
    example_canonize_molecule example_schedule [2 ^ 64; 2 ^ 64 + 1] 1 1
    = Ok example_built_big.
Proof. split_and!; vm_compute; reflexivity. Qed.

(** C2. The repository that the constructor returns has no isomorphism
    indices.  On [Repository(1, 2)], which has no buckets, [add] of
    molecule 1 (every atom charged, nothing contributed yet) raises
    AttributeError at the lookup [molid in self.__iso_iacm]; there is no
    repository after [add] from which the molecule could be subtracted, and
    [subtract] raises in the same way.  On the repository with the same
    bounds and stores whose indices are assigned, [add] succeeds and
    [subtract] gives the repository back. *)
Theorem add_on_constructed_repository :
  processable example_IACM_MAP example_files 1 ∧
  charges_iacm (Repository_init 1 2 : Repository Z) = ∅ ∧
  charges_elem (Repository_init 1 2 : Repository Z) = ∅ ∧
  iso_iacm (Repository_init 1 2 : Repository Z) = None ∧
  add Z.ltb example_canonize example_IACM_MAP example_files
    (Repository_init 1 2) 1 = Raise AttributeError ∧
  subtract Z.ltb example_canonize example_IACM_MAP example_files
    (Repository_init 1 2) 1 = Raise AttributeError ∧
  (add Z.ltb example_canonize example_IACM_MAP example_files
     (example_repository 1 2) 1
   ≫= λ self1, subtract Z.ltb example_canonize example_IACM_MAP example_files
                 self1 1) = Ok (example_repository 1 2).
Proof.
  split; [apply example_processable|]. split_and!; vm_compute; reflexivity.
Qed.


Lemma subtract_after_add_restores_witness :
  ∃ self1 self2,
    add Z.ltb example_canonize example_IACM_MAP example_files example_built 1
      = Ok self1 ∧
    subtract Z.ltb example_canonize example_IACM_MAP example_files self1 1
      = Ok self2 ∧
    self2 = example_built.
Proof.
  destruct example_built_wf as (Hwi & Hwe & Hni & Hne).
  destruct (subtract_after_add_restores Z.ltb example_canonize example_IACM_MAP
              example_files Z_ltb_strict_total_order example_built 1 Hwi Hwe)
    as (Hsucceeds & _ & Hrestores).
  destruct (Hsucceeds example_built_has_indices example_processable)
    as [self1 Hadd].
  destruct (Hrestores self1 Hadd)
    as (self2 & Hsub & _ & _ & _ & _ & _ & _ & Heq).
  exists self1, self2. split; [exact Hadd|]. split; [exact Hsub|].
  exact (Heq Hni Hne).
Defined.

Lemma buckets_after_run_witness :
  ∃ self',
    run Z.ltb example_canonize example_IACM_MAP example_files
      (example_repository 1 2) [Add 1; Add 1; Subtract 1] = Ok self' ∧
    holds_exactly Z.ltb (charges_iacm self')
      (contributions_iacm example_canonize example_files 2 [1]) ∧
    holds_exactly Z.ltb (charges_elem self')
      (contributions_elem example_canonize example_IACM_MAP example_files 2 [1]).
Proof.
  apply (buckets_after_run Z.ltb example_canonize example_IACM_MAP
           example_files Z_ltb_strict_total_order (example_repository 1 2)
           [Add 1; Add 1; Subtract 1] [1]).
  - apply example_has_indices.
  - apply example_no_buckets.
  - apply example_no_buckets.
  - reflexivity.
  - intros o Ho.
    assert (op_molid o = 1) as ->.
    { repeat (apply elem_of_cons in Ho as [->|Ho]; [done|]).
      by apply elem_of_nil in Ho. }
    apply example_processable.
Defined.

Lemma subtract_s_last_observation_witness :
  ∃ repo',
    subtract_s Z.ltb 2 "HC/n" (-25) (charges_iacm example_built) = Ok repo' ∧
    bucket_lookup repo' 2 "HC/n" = None ∧
    repo' !! 2 = Some {[ "C/n" := [100] ]} ∧
    (∀ shell', shell' ≠ 2 →
       repo' !! shell' = charges_iacm example_built !! shell') ∧
    (∀ key', key' ≠ "HC/n" →
       bucket_lookup repo' 2 key' =
         (<["C/n" := [100]]> {[ "HC/n" := [-25] ]} : gmap string (list Z)) !! key').
Proof.
  destruct (subtract_s_last_observation Z.ltb (charges_iacm example_built) 2
              "HC/n" (<["C/n" := [100]]> {[ "HC/n" := [-25] ]}) (-25) (-25)
              eq_refl eq_refl eq_refl)
    as (repo' & Hs & Hb & Hshell & Hother & Hkeys).
  exists repo'. split_and!; [exact Hs|exact Hb| |exact Hother|exact Hkeys].
  rewrite Hshell. reflexivity.
Defined.

Lemma partial_charge_errors_witness :
  (add Z.ltb example_canonize example_IACM_MAP example_files
     (example_repository 1 2) 2 = Raise (KeyError_partial_charge 2) ∧
   (subtract Z.ltb example_canonize example_IACM_MAP example_files
      (example_repository 1 2) 2 = Raise (KeyError_partial_charge 2) ∨
    subtract Z.ltb example_canonize example_IACM_MAP example_files
      (example_repository 1 2) 2 = Raise LookupError)) ∧
  (∀ atom,
     add Z.ltb example_canonize example_IACM_MAP example_files
       (example_repository 1 2) 1 ≠ Raise (KeyError_partial_charge atom) ∧
     subtract Z.ltb example_canonize example_IACM_MAP example_files
       (example_repository 1 2) 1 ≠ Raise (KeyError_partial_charge atom)).
Proof.
  split.
  - destruct (partial_charge_errors Z.ltb example_canonize example_IACM_MAP
                example_files (example_repository 1 2) 2 example_CH_uncharged
                (example_has_indices 1 2) eq_refl) as [Hraise _].
    destruct (Hraise 2 eq_refl) as (_ & _ & Hadd). apply Hadd. simpl. lia.
  - destruct (partial_charge_errors Z.ltb example_canonize example_IACM_MAP
                example_files (example_repository 1 2) 1 example_CH
                (example_has_indices 1 2) eq_refl) as (_ & _ & Hok).
    apply Hok. repeat constructor; by eexists.
Defined.

(** Both errors of [subtract] occur.  On the repository without buckets the
    removal of the carbon's charge, the first atom, fails with the lookup
    error before the hydrogen without a charge is reached; after a failed
    [add] of the same molecule has stored the carbon's charge, [subtract]
    removes it and raises the KeyError that names the hydrogen. *)
Example subtract_uncharged_errors :
  subtract Z.ltb example_canonize example_IACM_MAP example_files
    (example_repository 1 2) 2 = Raise LookupError ∧
  subtract Z.ltb example_canonize example_IACM_MAP example_files
    (set_charges_iacm {[ 1 := {[ "C/1" := [100] ]} ]} (example_repository 1 2)) 2
    = Raise (KeyError_partial_charge 2).
Proof. split; vm_compute; reflexivity. Qed.

(** C9. With [min_shell = max_shell = 0] the corpus build processes shell
    0 and raises the KeyError that names the hydrogen of molecule 2, which
    has no partial charge; the worker of shell 0 raises it.  On the
    repository built with these bounds, [add] and [subtract] of the same
    molecule loop over [range(1, 1)]: they process no shell, never call
    [_iter_atomic_fragments], raise nothing and return the repository as it
    is. *)
Theorem add_uncharged_without_shells :
  example_files 2 = Some example_CH_uncharged ∧
  first_uncharged (nodes example_CH_uncharged) = Some 2 ∧
  ChargeWorker_process example_canonize 0 example_CH_uncharged
    = Raise (KeyError_partial_charge 2) ∧
  create_from Z.ltb example_canonize example_IACM_MAP example_files
    example_canonize_molecule example_schedule [1; 2] 0 0
    = Raise (KeyError_partial_charge 2) ∧
  create_from Z.ltb example_canonize example_IACM_MAP example_files
    example_canonize_molecule example_schedule [1] 0 0 = Ok example_built_0 ∧
  min_shell example_built_0 = 0 ∧ max_shell example_built_0 = 0 ∧
  add Z.ltb example_canonize example_IACM_MAP example_files example_built_0 2
    = Ok example_built_0 ∧
  subtract Z.ltb example_canonize example_IACM_MAP example_files example_built_0 2
    = Ok example_built_0.
Proof. split_and!; vm_compute; reflexivity. Qed.

Lemma iterate_single_molecule_witness :
  add Z.ltb example_canonize example_IACM_MAP example_files
      (set_iso {[ 1 := [1; 2] ]} {[ 1 := [1; 2] ]} example_built) 1
    = set_iso {[ 1 := [1; 2] ]} {[ 1 := [1; 2] ]} <$>
        add Z.ltb example_canonize example_IACM_MAP example_files_1
          example_built 1 ∧
  subtract Z.ltb example_canonize example_IACM_MAP example_files
      (set_iso {[ 1 := [1; 2] ]} {[ 1 := [1; 2] ]} example_built) 1
    = set_iso {[ 1 := [1; 2] ]} {[ 1 := [1; 2] ]} <$>
        subtract Z.ltb example_canonize example_IACM_MAP example_files_1
          example_built 1.
Proof.
  destruct (iterate_single_molecule Z.ltb example_canonize example_IACM_MAP
              example_files example_files_1 example_built 1
              {[ 1 := [1; 2] ]} {[ 1 := [1; 2] ]} eq_refl)
    as [_ Hassigned].
  destruct (Hassigned example_built_has_indices) as (Hadd & Hsub & _).
  split; [exact Hadd|exact Hsub].
Defined.

Lemma example_built_packable : packable example_built.
Proof.
  unfold packable, packable_int. split_and!; try (simpl; lia).
  - intros shell [d Hd].
    unfold example_built in Hd; cbn [charges_iacm charges_elem] in Hd.
    apply lookup_singleton_Some in Hd as [<- _]. lia.
  - intros shell [d Hd].
    unfold example_built in Hd; cbn [charges_iacm charges_elem] in Hd.
    apply lookup_singleton_Some in Hd as [<- _]. lia.
  - intros iso [= <-] molid group Hg. by rewrite lookup_empty in Hg.
  - intros iso [= <-] molid group Hg. by rewrite lookup_empty in Hg.
Qed.

Lemma example_built_written : ∃ written, write example_built = Ok written.
Proof.
  apply write_is_Ok.
  split; [exact example_built_has_indices|exact example_built_packable].
Qed.

Lemma read_write_witness :
  ∃ zf, write example_built = Ok zf ∧ read zf = Ok example_built.
Proof.
  apply (read_write example_built).
  - exact example_built_has_indices.
  - exact example_built_packable.
Defined.

(** C5, as the specification states it, fails for a repository with an
    integer outside the 64 bits of the encoding: the repository built from
    the two isomorphic molecules [2^64] and [2^64 + 1] has both in its
    isomorphism indices, and [write] raises OverflowError when it packs the
    first index, so that there is no archive to read back. *)
Lemma write_overflow :
  create_from Z.ltb example_canonize example_IACM_MAP example_files_big
    example_canonize_molecule example_schedule [2 ^ 64; 2 ^ 64 + 1] 1 1
    = Ok example_built_big ∧
  iso_iacm example_built_big =
    Some (<[2 ^ 64 := [2 ^ 64; 2 ^ 64 + 1]]>
            {[ 2 ^ 64 + 1 := [2 ^ 64; 2 ^ 64 + 1] ]}) ∧
  write example_built_big = Raise OverflowError.
Proof. split_and!; vm_compute; reflexivity. Qed.

(** The sortedness of the stored buckets is needed for [subtract] to undo
    [add]: on the unsorted bucket [1; 9; 1; 9; 9], [insort_left] puts 5 at index 3 and the
    [bisect_left] of [subtract] then finds index 1, so a 9 is popped. *)
Example unsorted_bucket_not_restored :
  insort_left Z.ltb [1; 9; 1; 9; 9] 5 = [1; 9; 1; 5; 9; 9] ∧
  list_pop (bisect_left Z.ltb [1; 9; 1; 5; 9; 9] 5) [1; 9; 1; 5; 9; 9]
    = Ok [1; 1; 5; 9; 9].
Proof. split; vm_compute; reflexivity. Qed.

(** * Instances of the further properties *)

Lemma make_isomorphics_symmetric_witness :
  (1 < length [1; 3])%nat ∧ 1 ∈ [1; 3] ∧
  (<[1 := [1; 3]]> (<[3 := [1; 3]]> ∅) : gmap Z (list Z)) !! 3 = Some [1; 3] ∧
  example_canons !! 1 = example_canons !! 3.
Proof.
  apply (make_isomorphics_symmetric [1; 3; 2] example_canons
           (<[1 := [1; 3]]> (<[3 := [1; 3]]> ∅)) 1 3 [1; 3]).
  - by apply (bool_decide_unpack _).
  - reflexivity.
  - reflexivity.
  - right. left.
Defined.

Lemma example_contiguous :
  contiguous (λ molid, example_canons !! molid) [1; 3; 2].
Proof.
  intros l1 x l2 y l3 Heq Hk.
  destruct l1 as [|a1 [|a2 [|a3 l1]]]; simplify_eq/=;
    destruct l2 as [|b1 [|b2 l2]]; simplify_eq/=;
    try (by destruct l1); try (by destruct l2); try (by vm_compute in Hk);
    repeat constructor.
Qed.

Lemma make_isomorphics_contiguous_witness :
  ∃ group,
    (<[1 := [1; 3]]> (<[3 := [1; 3]]> ∅) : gmap Z (list Z)) !! 1 = Some group ∧
    (<[1 := [1; 3]]> (<[3 := [1; 3]]> ∅) : gmap Z (list Z)) !! 3 = Some group ∧
    ∀ c, c ∈ group ↔ c ∈ [1; 3; 2] ∧ example_canons !! c = example_canons !! 1.
Proof.
  apply (make_isomorphics_contiguous [1; 3; 2] example_canons
           (<[1 := [1; 3]]> (<[3 := [1; 3]]> ∅)) 1 3).
  - by apply (bool_decide_unpack _).
  - exact example_contiguous.
  - reflexivity.
  - left.
  - right. left.
  - lia.
  - reflexivity.
Defined.

Lemma add_a_keeps_buckets_witness :
  wf_buckets Z.ltb (add_a Z.ltb 2 "C/n" 50 (charges_iacm example_built)) ∧
  bucket_of (add_a Z.ltb 2 "C/n" 50 (charges_iacm example_built)) 2 "C/n" ≡ₚ
    50 :: bucket_of (charges_iacm example_built) 2 "C/n" ∧
  ∀ shell' key', (2, "C/n") ≠ (shell', key') →
    bucket_lookup (add_a Z.ltb 2 "C/n" 50 (charges_iacm example_built))
      shell' key' = bucket_lookup (charges_iacm example_built) shell' key'.
Proof.
  apply (add_a_keeps_buckets Z.ltb Z_ltb_strict_total_order).
  apply example_built_wf.
Defined.

Lemma subtract_s_after_add_a_witness :
  ∃ repo',
    subtract_s Z.ltb 2 "C/n" 50
      (add_a Z.ltb 2 "C/n" 50 (charges_iacm example_built)) = Ok repo' ∧
    wf_buckets Z.ltb repo' ∧
    ∀ shell' key',
      bucket_lookup repo' shell' key' =
        bucket_lookup (charges_iacm example_built) shell' key'.
Proof.
  apply (subtract_s_after_add_a Z.ltb Z_ltb_strict_total_order).
  apply example_built_wf.
Defined.

Lemma subtract_s_absent_charge_witness :
  ∃ z b',
    subtract_s Z.ltb 2 "C/n" 50 (charges_iacm example_built) =
      Ok (prune 2 "C/n" (<["C/n" := [100]]> {[ "HC/n" := [-25] ]}) b'
            (charges_iacm example_built)) ∧
    [100] ≡ₚ z :: b' ∧ sorted Z.ltb b' ∧ Z.ltb 50 z = true ∧
    ∀ w, w ∈ [100] → Z.ltb 50 w = true → leb_of Z.ltb z w.
Proof.
  destruct (subtract_s_absent_charge Z.ltb Z_ltb_strict_total_order
              (charges_iacm example_built) 2 "C/n"
              (<["C/n" := [100]]> {[ "HC/n" := [-25] ]}) [100] 50
              eq_refl eq_refl) as [_ Hlarger].
  - repeat constructor.
  - by intros [=]%list_elem_of_singleton.
  - apply (Hlarger 100); [left|reflexivity].
Defined.

Lemma read_missing_entry_witness :
  ∃ written,
    write example_built = Ok written ∧
    ((∅ : gmap string (msg Z)) !! "meta" = None →
     ∃ e, read (charge := Z) ∅ = Raise e) ∧
    read (delete "meta" written) = Raise LookupError.
Proof.
  destruct example_built_written as [written Hwrite].
  exists written. split; [exact Hwrite|].
  destruct (read_missing_entry example_built ∅ written "meta") as [Hnone Hdel].
  - left.
  - split; [exact Hnone|exact (Hdel Hwrite)].
Defined.

Lemma read_ignores_other_entries_witness :
  ∃ written,
    write example_built = Ok written ∧
    read (<["notes" := MStr "built from one molecule"]> written)
      = Ok example_built.
Proof.
  destruct example_built_written as [written Hwrite].
  exists written. split; [exact Hwrite|].
  apply (read_ignores_other_entries example_built written "notes").
  - by apply (bool_decide_unpack _).
  - exact Hwrite.
Defined.

Lemma make_nauty_edges_sorted_witness :
  ∃ nauty_edges,
    make_nauty_edges [(7, 5); (5, 9); (5, 7)] (node_to_index [5; 7; 9])
      = Ok nauty_edges ∧
    nauty_edges ≡ₚ
      (λ uv, (node_to_index [5; 7; 9] !!! uv.1, node_to_index [5; 7; 9] !!! uv.2))
        <$> [(7, 5); (5, 9); (5, 7)] ∧
    sorted int_pair_ltb nauty_edges ∧
    ∀ edges', edges' ≡ₚ [(7, 5); (5, 9); (5, 7)] →
      make_nauty_edges edges' (node_to_index [5; 7; 9]) = Ok nauty_edges.
Proof.
  apply (make_nauty_edges_sorted [(7, 5); (5, 9); (5, 7)]
           (node_to_index [5; 7; 9])).
  intros u v Huv.
  repeat (apply elem_of_cons in Huv as [Huv|Huv];
          [injection Huv as -> ->; split; by eexists|]).
  by apply elem_of_nil in Huv.
Defined.

Lemma make_nauty_edges_unknown_node_witness :
  make_nauty_edges [(5, 7); (7, 8)] (node_to_index [5; 7; 9])
    = Raise LookupError.
Proof.
  apply (make_nauty_edges_unknown_node [(5, 7); (7, 8)]
           (node_to_index [5; 7; 9]) 7 8).
  - right. left.
  - right. reflexivity.
Defined.

Lemma make_partition_spec_witness :
  ∃ partition,
    make_partition [1; 2] (node_colors example_CH (Some 2))
      (node_to_index [1; 2]) = Ok partition ∧
    StronglySorted (λ c d, Color_ltb c d = true) partition.*1 ∧
    (∀ c ids, (c, ids) ∈ partition →
       ids ≠ [] ∧ sorted Z.ltb ids ∧
       ∀ i, i ∈ ids ↔
            0 ≤ i ∧ node_colors example_CH (Some 2) !! Z.to_nat i = Some c) ∧
    concat partition.*2 ≡ₚ seqZ 0 2.
Proof.
  destruct (make_partition_spec [1; 2] (node_colors example_CH (Some 2)))
    as [Hok _].
  - by apply (bool_decide_unpack _).
  - apply Hok. simpl. lia.
Defined.

Lemma make_partition_core_witness :
  ∃ partition,
    make_partition (nodes example_CH).*1 (node_colors example_CH (Some 1))
      (node_to_index (nodes example_CH).*1) = Ok partition ∧
    last partition = Some ((true, "C"), [0]) ∧
    ∀ c ids, (c, ids) ∈ partition → c.1 = true →
      (c, ids) = ((true, "C"), [0]).
Proof.
  apply (make_partition_core example_CH 1 0
           {| atom_type := "C"; partial_charge := Some 100 |}).
  - by apply (bool_decide_unpack _).
  - reflexivity.
Defined.

Lemma example_schedule_fair : fair example_schedule.
Proof. split_and!; intros; apply reverse_Permutation. Qed.

Lemma example_processable_13 (molid : Z) :
  molid ∈ [1; 3] → processable example_IACM_MAP example_files_13 molid.
Proof.
  intros Hm. exists example_CH. eexists. split_and!.
  - repeat (apply elem_of_cons in Hm as [->|Hm]; [reflexivity|]).
    by apply elem_of_nil in Hm.
  - vm_compute. reflexivity.
  - repeat constructor; by eexists.
Qed.

Lemma example_CH_all_charged : all_charged example_CH.
Proof. repeat constructor; by eexists. Qed.

Lemma generate_charges_buckets_witness :
  ∃ charges,
    generate_charges Z.ltb example_canonize (λ _, reverse)
      (example_repository 0 1) [(1, example_CH); (3, example_CH)] = Ok charges ∧
    (∀ shell, is_Some (charges !! shell) ↔ 0 ≤ shell ≤ 1) ∧
    wf_buckets Z.ltb charges ∧
    holds_exactly Z.ltb charges (λ shell key,
      if decide (0 ≤ shell ≤ 1)
      then build_contributions example_canonize
             [(1, example_CH); (3, example_CH)] shell key
      else []).
Proof.
  apply (generate_charges_buckets Z.ltb example_canonize
           Z_ltb_strict_total_order (λ _, reverse) (example_repository 0 1)
           [(1, example_CH); (3, example_CH)]).
  - do 2 (constructor; [apply example_CH_all_charged|]). constructor.
  - intros shell. apply reverse_Permutation.
Defined.

Lemma generate_charges_order_independent_witness :
  generate_charges Z.ltb example_canonize (λ _, reverse)
    (example_repository 0 1) [(1, example_CH); (3, example_CH)] =
  generate_charges Z.ltb example_canonize (λ _ graphs, graphs)
    (example_repository 0 1) [(3, example_CH); (1, example_CH)].
Proof.
  apply (generate_charges_order_independent Z.ltb example_canonize
           Z_ltb_strict_total_order).
  - do 2 (constructor; [apply example_CH_all_charged|]). constructor.
  - apply Permutation_swap.
  - intros shell. apply reverse_Permutation.
  - intros shell. reflexivity.
Defined.

Lemma generate_charges_uncharged_witness :
  (0 ≤ 1 →
   ∃ mg' atom',
     mg' ∈ [(1, example_CH); (2, example_CH_uncharged)] ∧
     first_uncharged (nodes mg'.2) = Some atom' ∧
     generate_charges Z.ltb example_canonize (λ _, reverse)
       (example_repository 0 1) [(1, example_CH); (2, example_CH_uncharged)]
       = Raise (KeyError_partial_charge atom')) ∧
  (1 < 0 →
   generate_charges Z.ltb example_canonize (λ _, reverse)
     (example_repository 0 1) [(1, example_CH); (2, example_CH_uncharged)]
     = Ok ∅).
Proof.
  apply (generate_charges_uncharged Z.ltb example_canonize (λ _, reverse)
           (example_repository 0 1)
           [(1, example_CH); (2, example_CH_uncharged)]
           (2, example_CH_uncharged) 2).
  - right. left.
  - reflexivity.
  - intros shell. apply reverse_Permutation.
Defined.

Lemma create_from_spec_witness :
  ∃ repo,
    create_from Z.ltb example_canonize example_IACM_MAP example_files_13
      example_canonize_molecule example_schedule [1; 3] (-1) 1 = Ok repo ∧
    min_shell repo = 0 ∧ max_shell repo = 1 ∧
    charges_iacm repo !! 0 = Some (<["C/1" := [100; 100]]> {[ "HC/1" := [-25; -25] ]}) ∧
    iso_iacm repo = Some (<[1 := [1; 3]]> {[ 3 := [1; 3] ]}).
Proof.
  destruct (create_from_spec Z.ltb example_canonize example_IACM_MAP
              example_files_13 Z_ltb_strict_total_order
              example_canonize_molecule example_schedule [1; 3] (-1) 1
              example_schedule_fair example_processable_13)
    as (repo & Hcreate & Hmin & Hmax & _).
  exists repo. split; [exact Hcreate|]. split; [exact Hmin|].
  split; [exact Hmax|].
  assert (Ok repo = create_from Z.ltb example_canonize example_IACM_MAP
            example_files_13 example_canonize_molecule example_schedule
            [1; 3] (-1) 1) as Heq by (symmetry; exact Hcreate).
  vm_compute in Heq. injection Heq as ->. split; reflexivity.
Defined.

Lemma example_built_empty_no_buckets :
  has_indices example_built_empty ∧
  no_buckets (charges_iacm example_built_empty) ∧
  no_buckets (charges_elem example_built_empty).
Proof.
  split; [split; by eexists|].
  split; intros shell key; unfold bucket_lookup; simpl;
    (destruct (decide (shell = 2)) as [->|Hne];
     [by rewrite lookup_singleton_eq|by rewrite lookup_singleton_ne]).
Qed.

Lemma create_from_agrees_with_add_witness :
  ∃ built added,
    create_from Z.ltb example_canonize example_IACM_MAP example_files_13
      example_canonize_molecule example_schedule [1; 3] 2 2 = Ok built ∧
    run Z.ltb example_canonize example_IACM_MAP example_files_13
      example_built_empty (Add <$> [1; 3]) = Ok added ∧
    (∀ shell key, 2 ≤ shell ≤ 2 →
       bucket_lookup (charges_iacm built) shell key =
         bucket_lookup (charges_iacm added) shell key ∧
       bucket_lookup (charges_elem built) shell key =
         bucket_lookup (charges_elem added) shell key) ∧
    bucket_lookup (charges_iacm built) 1 "C/1" = None ∧
    bucket_lookup (charges_iacm added) 1 "C/1" = Some [100; 100].
Proof.
  destruct (create_from_agrees_with_add Z.ltb example_canonize example_IACM_MAP
              example_files_13 Z_ltb_strict_total_order
              example_canonize_molecule example_schedule [1; 3] 2 2
              example_built_empty
              example_schedule_fair example_processable_13
              (proj1 example_built_empty_no_buckets)
              (proj1 (proj2 example_built_empty_no_buckets))
              (proj2 (proj2 example_built_empty_no_buckets))
              eq_refl)
    as (built & added & Hcreate & Hrun & Hagree & Hbuilt & _).
  exists built, added. split; [exact Hcreate|]. split; [exact Hrun|].
  split; [exact Hagree|]. split.
  - apply (Hbuilt 1 "C/1"). left. reflexivity.
  - assert (Ok added = run Z.ltb example_canonize example_IACM_MAP
              example_files_13 example_built_empty (Add <$> [1; 3]))
      as Heq by (symmetry; exact Hrun).
    vm_compute in Heq. injection Heq as ->. reflexivity.
Defined.

Lemma create_from_aborts_witness :
  create_from Z.ltb example_canonize example_IACM_MAP example_files
    example_canonize_molecule example_schedule [1; 4] 1 2 = Raise OSError ∧
  ∃ molid graph atom,
    molid ∈ [1; 2] ∧ example_files molid = Some graph ∧
    first_uncharged (nodes graph) = Some atom ∧
    create_from Z.ltb example_canonize example_IACM_MAP example_files
      example_canonize_molecule example_schedule [1; 2] 1 2
      = Raise (KeyError_partial_charge atom).
Proof.
  split.
  - apply (create_from_aborts Z.ltb example_canonize example_IACM_MAP
             example_files example_canonize_molecule example_schedule
             [1; 4] 1 2 example_schedule_fair).
    exists 4. split; [right; left|reflexivity].
  - apply (create_from_aborts Z.ltb example_canonize example_IACM_MAP
             example_files example_canonize_molecule example_schedule
             [1; 2] 1 2 example_schedule_fair).
    + intros molid Hm.
      repeat (apply elem_of_cons in Hm as [->|Hm]; [by eexists|]).
      by apply elem_of_nil in Hm.
    + exists 2, example_CH_uncharged, 2.
      split; [right; left|]. split; reflexivity.
    + lia.
Defined.

Lemma subtract_from_built_witness :
  ∃ built self',
    create_from Z.ltb example_canonize example_IACM_MAP example_files_13
      example_canonize_molecule example_schedule [1; 3] 0 2 = Ok built ∧
    subtract Z.ltb example_canonize example_IACM_MAP example_files_13 built 1
      = Ok self' ∧
    holds_exactly Z.ltb (charges_iacm self') (λ shell key,
      if decide (1 ≤ shell ≤ 2)
      then build_contributions example_canonize
             (file_graphs example_files_13 [3]) shell key
      else if decide (Z.max 0 0 ≤ shell ≤ 2)
           then build_contributions example_canonize
                  (file_graphs example_files_13 [1; 3]) shell key
           else []) ∧
    holds_exactly Z.ltb (charges_elem self') (λ shell key,
      if decide (1 ≤ shell ≤ 2)
      then build_contributions example_canonize
             (elem_graphs example_IACM_MAP example_files_13 [3]) shell key
      else if decide (Z.max 0 0 ≤ shell ≤ 2)
           then build_contributions example_canonize
                  (elem_graphs example_IACM_MAP example_files_13 [1; 3])
                  shell key
           else []).
Proof.
  apply (subtract_from_built Z.ltb example_canonize example_IACM_MAP
           example_files_13 Z_ltb_strict_total_order
           example_canonize_molecule example_schedule [1; 3] [3] 0 2 1
           example_schedule_fair example_processable_13).
  - reflexivity.
  - lia.
Defined.

Lemma subtract_from_built_below_min_shell_witness :
  ∃ built,
    create_from Z.ltb example_canonize example_IACM_MAP example_files_13
      example_canonize_molecule example_schedule [1; 3] 2 2 = Ok built ∧
    charges_iacm built !! 1 = None ∧
    subtract Z.ltb example_canonize example_IACM_MAP example_files_13 built 1
      = Raise LookupError.
Proof.
  apply (subtract_from_built_below_min_shell Z.ltb example_canonize
           example_IACM_MAP example_files_13 Z_ltb_strict_total_order
           example_canonize_molecule example_schedule [1; 3] 2 2 1 example_CH
           example_schedule_fair example_processable_13).
  - apply example_processable_13. left.
  - reflexivity.
  - discriminate.
  - lia.
  - lia.
Defined.

Lemma bucket_molids_partition_witness :
  bucket_molids [1; 2; 3; 4; 5; -7] 2 3 = Some [2; 5; -7] ∧
  concat ((λ bucket, default [] (bucket_molids [1; 2; 3; 4; 5; -7] bucket 3))
            <$> seqZ 0 3) ≡ₚ [1; 2; 3; 4; 5; -7].
Proof.
  destruct (bucket_molids_partition [1; 2; 3; 4; 5; -7] 3)
    as (Hselected & _ & _ & Hall); [lia|].
  split; [|exact Hall]. rewrite Hselected. reflexivity.
Defined.
